(** * Restock backend: the stock-status inference engine

  A shallow embedding of [src/stock-checker.ts] (the markup heuristic
  classifier, in its current form and in the older copy kept in the same
  file) and of [src/ai-vision-service.ts] (the parsing of the model's
  answer and the response cache), with the properties the specification
  states about them.

  Text (a page, a variant descriptor, an answer of the model) is modelled
  by [string]: a sequence of code units below 256 (Latin-1).  The
  built-ins of the language the code relies on ([toLowerCase],
  [includes], [indexOf], [substring], [trim], regular expressions,
  [JSON.parse]) are modelled on that alphabet; the strings inside a JSON
  value, which an escape can fill with any 16-bit unit, are lists of
  units.

  The first part holds the definitions: the built-ins, then the code,
  function by function under its own name.  The second part holds the
  properties. *)

From Stdlib Require Import String Ascii ZArith NArith List Bool Lia.
From stdpp Require Import gmap strings.

Import ListNotations.
Local Open Scope string_scope.
Local Open Scope Z_scope.

(** ** String primitives *)

Module Str.

Definition chars (s : string) : list ascii := list_ascii_of_string s.
Definition str (l : list ascii) : string := string_of_list_ascii l.
Definition code (c : ascii) : N := N_of_ascii c.

Definition between (lo hi : N) (c : ascii) : bool :=
  ((lo <=? code c) && (code c <=? hi))%N.

(** The double quote, which a string literal of this file cannot hold. *)
Definition dq : string := String (ascii_of_N 34) EmptyString.
Definition dqc : ascii := ascii_of_N 34.

(** [String.prototype.toLowerCase] on one code unit: A-Z and the
    capitals of Latin-1 (U+00C0-U+00DE but the multiplication sign). *)
Definition lower_char (c : ascii) : ascii :=
  if between 65 90 c || (between 192 222 c && negb (code c =? 215)%N)
  then ascii_of_N (code c + 32) else c.

(** The upper-case mapping used by case-insensitive matching. U+00FF,
    U+00B5 and U+00DF have no single upper-case unit in the alphabet
    that another unit shares, and stand for themselves. *)
Definition upper_char (c : ascii) : ascii :=
  if between 97 122 c || (between 224 254 c && negb (code c =? 247)%N)
  then ascii_of_N (code c - 32) else c.

Definition toLowerCase (s : string) : string :=
  str (map lower_char (chars s)).

Definition is_digit (c : ascii) : bool := between 48 57 c.

(** [\w]: the basic Latin letters, the digits and the underscore. *)
Definition is_word (c : ascii) : bool :=
  between 97 122 c || between 65 90 c || is_digit c || (code c =? 95)%N.

Definition is_line_terminator (c : ascii) : bool :=
  (code c =? 10)%N || (code c =? 13)%N.

(** White space and line terminators ([\s], and what [trim] strips). *)
Definition is_space (c : ascii) : bool :=
  between 9 13 c || (code c =? 32)%N || (code c =? 160)%N.

Fixpoint starts_with (p s : list ascii) : bool :=
  match p, s with
  | [], _ => true
  | a :: p', b :: s' => Ascii.eqb a b && starts_with p' s'
  | _ :: _, [] => false
  end.

(** Index of the first occurrence of [p] in [s], counted from [i];
    -1 when there is none. *)
Fixpoint index_from (p s : list ascii) (i : Z) : Z :=
  if starts_with p s then i
  else match s with
       | [] => -1
       | _ :: s' => index_from p s' (i + 1)
       end.

Definition indexOf (s p : string) : Z := index_from (chars p) (chars s) 0.

Definition includes (s p : string) : bool := negb (indexOf s p =? -1).

Definition length (s : string) : Z := Z.of_nat (List.length (chars s)).

(** [s.substring(start, end)]: both ends are clamped to [0, length] and
    swapped when out of order. *)
Definition clamp (n : Z) (i : Z) : Z := Z.max 0 (Z.min i n).

Definition slice (l : list ascii) (from to : Z) : list ascii :=
  firstn (Z.to_nat (to - from)) (skipn (Z.to_nat from) l).

Definition substring (s : string) (start fin : Z) : string :=
  let n := length s in
  let a := clamp n start in
  let b := clamp n fin in
  str (slice (chars s) (Z.min a b) (Z.max a b)).

Fixpoint drop_spaces (l : list ascii) : list ascii :=
  match l with
  | c :: l' => if is_space c then drop_spaces l' else l
  | [] => []
  end.

Definition trim (s : string) : string :=
  str (rev (drop_spaces (rev (drop_spaces (chars s))))).

Definition is_empty (s : string) : bool :=
  match s with EmptyString => true | _ => false end.

Fixpoint replicate (n : nat) (c : ascii) : list ascii :=
  match n with O => [] | S n' => c :: replicate n' c end.

(** [n] copies of the space, to lay out long documents. *)
Definition spaces (n : N) : string := str (replicate (N.to_nat n) " "%char).

End Str.

(** ** Regular expressions

  The patterns of the two source files, and the patterns
  [parseVariantStock] builds from the size it reads in the variant
  descriptor, are terms of [regex]; [exec] is the backtracking matcher
  of the language ([RegExp.prototype.exec] on a pattern without the
  global flag), so that [test] and the capture groups of [match] are
  what the code sees. *)

Module Regex.
Import Str.

Inductive class_escape :=
| Digit | NotDigit | Word | NotWord | Space | NotSpace.

Inductive class_item :=
| CChar (c : ascii)
| CRange (lo hi : ascii)
| CEsc (e : class_escape).

Inductive quantifier := QStar | QPlus | QOpt.

Inductive regex :=
| Empty
| Char (c : ascii)
| Dot
| Class (negated : bool) (items : list class_item)
| Seq (r1 r2 : regex)
| Alt (r1 r2 : regex)
| Repeat (q : quantifier) (greedy : bool) (r : regex)
| Group (idx : nat) (r : regex)
| Bol
| Eol
| WordBoundary
| NotWordBoundary.

Record flags := { ignoreCase : bool; multiline : bool }.

Definition no_flags := {| ignoreCase := false; multiline := false |}.
Definition flag_i := {| ignoreCase := true; multiline := false |}.
Definition flag_m := {| ignoreCase := false; multiline := true |}.

(** Canonicalize of the language: with [i], two units match when their
    upper-case mappings agree. *)
Definition canon (fl : flags) (c : ascii) : ascii :=
  if ignoreCase fl then upper_char c else c.

Definition escape_mem (e : class_escape) (c : ascii) : bool :=
  match e with
  | Digit => is_digit c
  | NotDigit => negb (is_digit c)
  | Word => is_word c
  | NotWord => negb (is_word c)
  | Space => is_space c
  | NotSpace => negb (is_space c)
  end.

Definition item_mem (it : class_item) (c : ascii) : bool :=
  match it with
  | CChar a => Ascii.eqb a c
  | CRange lo hi => between (code lo) (code hi) c
  | CEsc e => escape_mem e c
  end.

(** A unit is in a set when some member of the set has its canonical
    form: the members are [c] itself and its two case variants. *)
Definition set_mem (fl : flags) (p : ascii -> bool) (c : ascii) : bool :=
  if ignoreCase fl then p c || p (upper_char c) || p (lower_char c) else p c.

Definition class_mem (fl : flags) (items : list class_item) (c : ascii) : bool :=
  set_mem fl (fun a => existsb (fun it => item_mem it a) items) c.

(** The matcher state: the unit before the current position (for the
    assertions), the position, the text still to read and the captures,
    each a pair of positions. *)
Record mstate := {
  m_prev : option ascii;
  m_pos : nat;
  m_rest : list ascii;
  m_caps : list (nat * (nat * nat))
}.

Definition cont := mstate -> option mstate.

Definition step (p : ascii -> bool) (k : cont) (x : mstate) : option mstate :=
  match m_rest x with
  | c :: rest =>
      if p c
      then k {| m_prev := Some c; m_pos := S (m_pos x); m_rest := rest;
                m_caps := m_caps x |}
      else None
  | [] => None
  end.

Definition set_cap (i from to : nat) (x : mstate) : mstate :=
  {| m_prev := m_prev x; m_pos := m_pos x; m_rest := m_rest x;
     m_caps := (i, (from, to)) :: m_caps x |}.

Fixpoint groups (r : regex) : list nat :=
  match r with
  | Seq r1 r2 | Alt r1 r2 => groups r1 ++ groups r2
  | Repeat _ _ r1 => groups r1
  | Group i r1 => i :: groups r1
  | _ => []
  end.

(** Each round of a quantifier starts with the captures of its body
    undefined. *)
Definition clear_caps (gs : list nat) (x : mstate) : mstate :=
  {| m_prev := m_prev x; m_pos := m_pos x; m_rest := m_rest x;
     m_caps := List.filter (fun e => negb (existsb (Nat.eqb (fst e)) gs))
                 (m_caps x) |}.

Definition word_before (x : mstate) : bool :=
  match m_prev x with Some c => is_word c | None => false end.

Definition word_after (x : mstate) : bool :=
  match m_rest x with c :: _ => is_word c | [] => false end.

Definition at_bol (fl : flags) (x : mstate) : bool :=
  match m_prev x with
  | None => true
  | Some c => multiline fl && is_line_terminator c
  end.

Definition at_eol (fl : flags) (x : mstate) : bool :=
  match m_rest x with
  | [] => true
  | c :: _ => multiline fl && is_line_terminator c
  end.

Definition or_else (a : option mstate) (b : unit -> option mstate) : option mstate :=
  match a with Some z => Some z | None => b tt end.

(** The rounds of a quantifier.  [body] matches the quantified term
    once; a round that reads nothing is refused, so at most as many
    rounds follow as there are units left: with none left ([fuel] is 0)
    the quantifier can only stop. *)
Section Rounds.
Variable body : cont -> mstate -> option mstate.
Variable gs : list nat.
Variable greedy : bool.
Variable k : cont.

Definition round (next : cont) (x : mstate) : option mstate :=
  body (fun y => if Nat.eqb (m_pos y) (m_pos x) then None else next y)
    (clear_caps gs x).

Fixpoint loop (fuel : nat) (x : mstate) {struct fuel} : option mstate :=
  match fuel with
  | O => k x
  | S fuel' =>
      if greedy then or_else (round (loop fuel') x) (fun _ => k x)
      else or_else (k x) (fun _ => round (loop fuel') x)
  end.

End Rounds.

(** The matcher of the language, in continuation-passing style: [m r k x]
    matches [r] at [x] and hands the state reached to [k]; when [k] fails
    the next choice of [r] is tried. *)
Fixpoint m (fl : flags) (r : regex) (k : cont) (x : mstate) {struct r} : option mstate :=
  match r with
  | Empty => k x
  | Char c => step (fun a => Ascii.eqb (canon fl a) (canon fl c)) k x
  | Dot => step (fun a => negb (is_line_terminator a)) k x
  | Class neg items => step (fun a => xorb neg (class_mem fl items a)) k x
  | Seq r1 r2 => m fl r1 (m fl r2 k) x
  | Alt r1 r2 => or_else (m fl r1 k x) (fun _ => m fl r2 k x)
  | Group i r1 => m fl r1 (fun y => k (set_cap i (m_pos x) (m_pos y) y)) x
  | Repeat q greedy r1 =>
      let star := fun y => loop (m fl r1) (groups r1) greedy k (List.length (m_rest y)) y in
      match q with
      | QStar => star x
      | QPlus => m fl r1 star (clear_caps (groups r1) x)
      | QOpt => loop (m fl r1) (groups r1) greedy k (Nat.min 1 (List.length (m_rest x))) x
      end
  | Bol => if at_bol fl x then k x else None
  | Eol => if at_eol fl x then k x else None
  | WordBoundary => if xorb (word_before x) (word_after x) then k x else None
  | NotWordBoundary => if xorb (word_before x) (word_after x) then None else k x
  end.

(** A match: where it starts, where it ends and the captures. *)
Record found := { f_start : nat; f_end : nat; f_caps : list (nat * (nat * nat)) }.

(** The match is tried at each position from the left. *)
Fixpoint scan (fl : flags) (r : regex) (prev : option ascii) (pos : nat)
    (rest : list ascii) {struct rest} : option found :=
  match m fl r Some {| m_prev := prev; m_pos := pos; m_rest := rest; m_caps := [] |} with
  | Some y => Some {| f_start := pos; f_end := m_pos y; f_caps := m_caps y |}
  | None =>
      match rest with
      | [] => None
      | c :: rest' => scan fl r (Some c) (S pos) rest'
      end
  end.

Definition exec (fl : flags) (r : regex) (s : string) : option found :=
  scan fl r None 0%nat (chars s).

Definition test (fl : flags) (r : regex) (s : string) : bool :=
  match exec fl r s with Some _ => true | None => false end.

Definition between_pos (s : string) (from to : nat) : string :=
  str (firstn (to - from) (skipn from (chars s))).

(** The whole match, [match[0]]. *)
Definition matched (s : string) (f : found) : string :=
  between_pos s (f_start f) (f_end f).

Fixpoint lookup_cap (i : nat) (caps : list (nat * (nat * nat))) : option (nat * nat) :=
  match caps with
  | [] => None
  | (j, p) :: caps' => if Nat.eqb i j then Some p else lookup_cap i caps'
  end.

(** A capture group, [match[i]]; [None] is [undefined]. *)
Definition capture (s : string) (f : found) (i : nat) : option string :=
  match lookup_cap i (f_caps f) with
  | Some (from, to) => Some (between_pos s from to)
  | None => None
  end.

End Regex.

(** ** Pattern syntax

  [compile] reads the source text of a pattern, as [new RegExp(text)]
  and the pattern literals do (without the [u] flag, so with the
  leniencies of the web-compatible grammar: a closing bracket or brace
  on its own is a literal, any escaped unit that has no other meaning
  stands for itself).  It is one left-to-right pass with a stack of the open groups.
  Patterns outside the subset read here (braces, back references,
  look-around, named groups, numeric and control escapes) are answered by
  [Unsupported]: what the engine makes of them is left open, and is an
  argument of the code that builds patterns from its input. *)

Module Syntax.
Import Str Regex.

Inductive compiled :=
| Pattern (r : regex)
| SyntaxError
| Unsupported.

(** What a quantifier met at this point would apply to. *)
Inductive qstate := NoAtom | Atom | Quantified.

Record frame := {
  f_cap : option nat;      (* the index of the group, if it captures *)
  f_alts : list regex;     (* the alternatives closed so far, last first *)
  f_seq : list regex       (* the terms of the open alternative, last first *)
}.

Inductive catom := AChar (c : ascii) | AEsc (e : class_escape).

Inductive pending := PNone | PAtom (a : catom) | PDash (a : catom).

Record class_state := {
  c_neg : bool;
  c_items : list class_item;   (* last first *)
  c_pend : pending
}.

Record pstate := {
  p_stack : list frame;
  p_cur : frame;
  p_q : qstate;
  p_groups : nat;
  p_class : option class_state
}.

Definition seq_of (terms : list regex) : regex :=
  fold_left (fun acc t => match acc with Empty => t | _ => Seq t acc end) terms Empty.

Definition alts_of (f : frame) : regex :=
  fold_left (fun acc a => Alt a acc) (f_alts f) (seq_of (f_seq f)).

Definition close_frame (f : frame) : regex :=
  match f_cap f with
  | Some i => Group i (alts_of f)
  | None => alts_of f
  end.

Definition with_cur (st : pstate) (f : frame) (q : qstate) : pstate :=
  {| p_stack := p_stack st; p_cur := f; p_q := q; p_groups := p_groups st;
     p_class := None |}.

Definition add_term (t : regex) (q : qstate) (st : pstate) : pstate :=
  let f := p_cur st in
  with_cur st {| f_cap := f_cap f; f_alts := f_alts f; f_seq := t :: f_seq f |} q.

Definition next_alt (st : pstate) : pstate :=
  let f := p_cur st in
  with_cur st {| f_cap := f_cap f; f_alts := seq_of (f_seq f) :: f_alts f;
                 f_seq := [] |} NoAtom.

Definition open_group (capturing : bool) (st : pstate) : pstate :=
  let n := if capturing then S (p_groups st) else p_groups st in
  {| p_stack := p_cur st :: p_stack st;
     p_cur := {| f_cap := if capturing then Some n else None;
                 f_alts := []; f_seq := [] |};
     p_q := NoAtom; p_groups := n; p_class := None |}.

Definition close_group (st : pstate) : option pstate :=
  match p_stack st with
  | [] => None
  | f :: stack =>
      Some {| p_stack := stack;
              p_cur := {| f_cap := f_cap f; f_alts := f_alts f;
                          f_seq := close_frame (p_cur st) :: f_seq f |};
              p_q := Atom; p_groups := p_groups st; p_class := None |}
  end.

(** [*], [+] and [?] after an atom; a [?] after a quantifier makes it
    lazy; anywhere else there is nothing to repeat. *)
Definition quantify (q : quantifier) (st : pstate) : option pstate :=
  let f := p_cur st in
  match p_q st, f_seq f with
  | Atom, t :: ts =>
      Some (with_cur st {| f_cap := f_cap f; f_alts := f_alts f;
                           f_seq := Repeat q true t :: ts |} Quantified)
  | Quantified, Repeat q' _ t :: ts =>
      match q with
      | QOpt => Some (with_cur st {| f_cap := f_cap f; f_alts := f_alts f;
                                     f_seq := Repeat q' false t :: ts |} NoAtom)
      | _ => None
      end
  | _, _ => None
  end.

Definition class_escape_of (e : ascii) : option class_escape :=
  if Ascii.eqb e "d" then Some Digit
  else if Ascii.eqb e "D" then Some NotDigit
  else if Ascii.eqb e "w" then Some Word
  else if Ascii.eqb e "W" then Some NotWord
  else if Ascii.eqb e "s" then Some Space
  else if Ascii.eqb e "S" then Some NotSpace
  else None.

Definition control_escape_of (e : ascii) : option ascii :=
  if Ascii.eqb e "t" then Some (ascii_of_N 9)
  else if Ascii.eqb e "n" then Some (ascii_of_N 10)
  else if Ascii.eqb e "v" then Some (ascii_of_N 11)
  else if Ascii.eqb e "f" then Some (ascii_of_N 12)
  else if Ascii.eqb e "r" then Some (ascii_of_N 13)
  else None.

(** Escapes left out: decimal ones (back references, octal, NUL) and
    [\c], [\x], [\u], [\k]. *)
Definition unread_escape (e : ascii) : bool :=
  is_digit e || Ascii.eqb e "c" || Ascii.eqb e "x" || Ascii.eqb e "u"
  || Ascii.eqb e "k".

Definition item_of (a : catom) : class_item :=
  match a with AChar c => CChar c | AEsc e => CEsc e end.

(** One more atom read inside a class. [None]: the range is out of order. *)
Definition class_atom (a : catom) (cs : class_state) : option class_state :=
  match c_pend cs with
  | PNone => Some {| c_neg := c_neg cs; c_items := c_items cs; c_pend := PAtom a |}
  | PAtom b =>
      Some {| c_neg := c_neg cs; c_items := item_of b :: c_items cs;
              c_pend := PAtom a |}
  | PDash b =>
      match b, a with
      | AChar lo, AChar hi =>
          if (code lo <=? code hi)%N
          then Some {| c_neg := c_neg cs; c_items := CRange lo hi :: c_items cs;
                       c_pend := PNone |}
          else None
      | _, _ =>
          Some {| c_neg := c_neg cs;
                  c_items := item_of a :: CChar "-" :: item_of b :: c_items cs;
                  c_pend := PNone |}
      end
  end.

Definition class_dash (cs : class_state) : option class_state :=
  match c_pend cs with
  | PAtom b => Some {| c_neg := c_neg cs; c_items := c_items cs; c_pend := PDash b |}
  | _ => class_atom (AChar "-") cs
  end.

Definition class_close (cs : class_state) : regex :=
  let items :=
    match c_pend cs with
    | PNone => c_items cs
    | PAtom b => item_of b :: c_items cs
    | PDash b => CChar "-" :: item_of b :: c_items cs
    end in
  Class (c_neg cs) (rev items).

Definition in_class (st : pstate) (cs : class_state) : pstate :=
  {| p_stack := p_stack st; p_cur := p_cur st; p_q := p_q st;
     p_groups := p_groups st; p_class := Some cs |}.

Definition finish (st : pstate) : compiled :=
  match p_class st, p_stack st with
  | None, [] => Pattern (close_frame (p_cur st))
  | _, _ => SyntaxError
  end.

Definition lift (o : option pstate) (k : pstate -> compiled) : compiled :=
  match o with Some st => k st | None => SyntaxError end.

Fixpoint parse (cs : list ascii) (st : pstate) {struct cs} : compiled :=
  match cs with
  | [] => finish st
  | c :: rest =>
      match p_class st with
      | Some k =>
          (* inside a class *)
          if Ascii.eqb c "]" then parse rest (add_term (class_close k) Atom st)
          else if Ascii.eqb c "-" then
            match class_dash k with
            | Some k' => parse rest (in_class st k')
            | None => SyntaxError
            end
          else if Ascii.eqb c "\" then
            match rest with
            | [] => SyntaxError
            | e :: rest' =>
                let atom :=
                  match class_escape_of e, control_escape_of e with
                  | Some ce, _ => Some (AEsc ce)
                  | None, Some a => Some (AChar a)
                  | None, None =>
                      if Ascii.eqb e "b" then Some (AChar (ascii_of_N 8))
                      else if unread_escape e then None
                      else Some (AChar e)
                  end in
                match atom with
                | None => Unsupported
                | Some a =>
                    match class_atom a k with
                    | Some k' => parse rest' (in_class st k')
                    | None => SyntaxError
                    end
                end
            end
          else
            match class_atom (AChar c) k with
            | Some k' => parse rest (in_class st k')
            | None => SyntaxError
            end
      | None =>
          if Ascii.eqb c "(" then
            match rest with
            | q :: rest1 =>
                if Ascii.eqb q "?" then
                  match rest1 with
                  | d :: rest2 =>
                      if Ascii.eqb d ":" then parse rest2 (open_group false st)
                      else Unsupported
                  | [] => SyntaxError
                  end
                else parse rest (open_group true st)
            | [] => SyntaxError
            end
          else if Ascii.eqb c ")" then lift (close_group st) (parse rest)
          else if Ascii.eqb c "|" then parse rest (next_alt st)
          else if Ascii.eqb c "*" then lift (quantify QStar st) (parse rest)
          else if Ascii.eqb c "+" then lift (quantify QPlus st) (parse rest)
          else if Ascii.eqb c "?" then lift (quantify QOpt st) (parse rest)
          else if Ascii.eqb c "{" then Unsupported
          else if Ascii.eqb c "^" then parse rest (add_term Bol NoAtom st)
          else if Ascii.eqb c "$" then parse rest (add_term Eol NoAtom st)
          else if Ascii.eqb c "." then parse rest (add_term Dot Atom st)
          else if Ascii.eqb c "[" then
            match rest with
            | n :: rest1 =>
                if Ascii.eqb n "^"
                then parse rest1 (in_class st {| c_neg := true; c_items := [];
                                                 c_pend := PNone |})
                else parse rest (in_class st {| c_neg := false; c_items := [];
                                                c_pend := PNone |})
            | [] => SyntaxError
            end
          else if Ascii.eqb c "\" then
            match rest with
            | [] => SyntaxError
            | e :: rest' =>
                match class_escape_of e, control_escape_of e with
                | Some ce, _ => parse rest' (add_term (Class false [CEsc ce]) Atom st)
                | None, Some a => parse rest' (add_term (Char a) Atom st)
                | None, None =>
                    if Ascii.eqb e "b" then parse rest' (add_term WordBoundary NoAtom st)
                    else if Ascii.eqb e "B"
                    then parse rest' (add_term NotWordBoundary NoAtom st)
                    else if unread_escape e then Unsupported
                    else parse rest' (add_term (Char e) Atom st)
                end
            end
          else parse rest (add_term (Char c) Atom st)
      end
  end.

Definition initial : pstate :=
  {| p_stack := []; p_cur := {| f_cap := None; f_alts := []; f_seq := [] |};
     p_q := NoAtom; p_groups := 0; p_class := None |}.

(** [new RegExp(src)]. *)
Definition compile (src : string) : compiled := parse (chars src) initial.

(** A pattern literal of the source: its text is known to be well formed
    (see the [compile_*] facts below). *)
Definition literal (src : string) : regex :=
  match compile src with Pattern r => r | _ => Empty end.

End Syntax.

(** ** JSON

  [JSON.parse], in two passes: the text is cut into tokens, and the
  tokens are read with a stack of the open arrays and objects.  A string
  value is a sequence of code units (an escape [\uXXXX] may denote any
  16-bit unit); a number keeps its decimal reading, from which the only
  thing the code asks of a number, whether it is zero, is decided. *)

Module Json.
Import Str.

(** The number [mantissa * 10 ^ exponent], negated when [negative]. *)
Record number := { negative : bool; mantissa : N; exponent : Z }.

#[warnings="-register-all"]
Inductive value :=
| JNull
| JBool (b : bool)
| JNumber (n : number)
| JString (s : list N)
| JArray (items : list value)
| JObject (fields : list (list N * value)).

Inductive token :=
| TLBrace | TRBrace | TLBracket | TRBracket | TColon | TComma
| TString (s : list N)
| TNumber (n : number)
| TTrue | TFalse | TNull.

Definition units (s : string) : list N := map code (chars s).

(** *** Tokens *)

Inductive numstate :=
| NMinus      (* after the sign: a digit must follow *)
| NZero       (* after a leading zero *)
| NInt        (* in the integer part *)
| NDot        (* after the point: a digit must follow *)
| NFrac       (* in the fraction *)
| NE          (* after e or E *)
| NESign      (* after the sign of the exponent *)
| NExp.       (* in the exponent *)

Record numacc := {
  n_neg : bool;       (* the sign of the number *)
  n_mant : N;         (* the digits read, point removed *)
  n_scale : Z;        (* minus the number of digits of the fraction *)
  n_eneg : bool;      (* the sign of the exponent *)
  n_exp : N           (* the digits of the exponent *)
}.

Inductive mode :=
| Free
| InString (acc : list N)
| Escaped (acc : list N)
| Hex (acc : list N) (todo : nat) (v : N)
| InNumber (st : numstate) (a : numacc).

Definition number_of (a : numacc) : number :=
  {| negative := n_neg a; mantissa := n_mant a;
     exponent := n_scale a + (if n_eneg a then - Z.of_N (n_exp a) else Z.of_N (n_exp a)) |}.

Definition digit_value (c : ascii) : N := (code c - 48)%N.

Definition hex_value (c : ascii) : option N :=
  if is_digit c then Some (code c - 48)%N
  else if between 97 102 c then Some (code c - 87)%N
  else if between 65 70 c then Some (code c - 55)%N
  else None.

Definition is_json_space (c : ascii) : bool :=
  (code c =? 32)%N || (code c =? 9)%N || (code c =? 10)%N || (code c =? 13)%N.

Definition punct (c : ascii) : option token :=
  if Ascii.eqb c "{" then Some TLBrace
  else if Ascii.eqb c "}" then Some TRBrace
  else if Ascii.eqb c "[" then Some TLBracket
  else if Ascii.eqb c "]" then Some TRBracket
  else if Ascii.eqb c ":" then Some TColon
  else if Ascii.eqb c "," then Some TComma
  else None.

Definition simple_escape (c : ascii) : option N :=
  if Ascii.eqb c dqc then Some 34%N
  else if Ascii.eqb c "\" then Some 92%N
  else if Ascii.eqb c "/" then Some 47%N
  else if Ascii.eqb c "b" then Some 8%N
  else if Ascii.eqb c "f" then Some 12%N
  else if Ascii.eqb c "n" then Some 10%N
  else if Ascii.eqb c "r" then Some 13%N
  else if Ascii.eqb c "t" then Some 9%N
  else None.

Definition accepting (st : numstate) : bool :=
  match st with NZero | NInt | NFrac | NExp => true | _ => false end.

Definition add_digit (a : numacc) (d : N) (frac : bool) : numacc :=
  {| n_neg := n_neg a; n_mant := (10 * n_mant a + d)%N;
     n_scale := if frac then n_scale a - 1 else n_scale a;
     n_eneg := n_eneg a; n_exp := n_exp a |}.

Definition add_exp_digit (a : numacc) (d : N) : numacc :=
  {| n_neg := n_neg a; n_mant := n_mant a; n_scale := n_scale a;
     n_eneg := n_eneg a; n_exp := (10 * n_exp a + d)%N |}.

Definition exp_negative (a : numacc) : numacc :=
  {| n_neg := n_neg a; n_mant := n_mant a; n_scale := n_scale a;
     n_eneg := true; n_exp := n_exp a |}.

(** One more unit of a number; [None] when the unit cannot continue it. *)
Definition num_step (st : numstate) (a : numacc) (c : ascii) : option (numstate * numacc) :=
  let is_e := Ascii.eqb c "e" || Ascii.eqb c "E" in
  match st with
  | NMinus =>
      if Ascii.eqb c "0" then Some (NZero, a)
      else if is_digit c then Some (NInt, add_digit a (digit_value c) false)
      else None
  | NZero =>
      if Ascii.eqb c "." then Some (NDot, a)
      else if is_e then Some (NE, a) else None
  | NInt =>
      if is_digit c then Some (NInt, add_digit a (digit_value c) false)
      else if Ascii.eqb c "." then Some (NDot, a)
      else if is_e then Some (NE, a) else None
  | NDot =>
      if is_digit c then Some (NFrac, add_digit a (digit_value c) true) else None
  | NFrac =>
      if is_digit c then Some (NFrac, add_digit a (digit_value c) true)
      else if is_e then Some (NE, a) else None
  | NE =>
      if is_digit c then Some (NExp, add_exp_digit a (digit_value c))
      else if Ascii.eqb c "+" then Some (NESign, a)
      else if Ascii.eqb c "-" then Some (NESign, exp_negative a)
      else None
  | NESign | NExp =>
      if is_digit c then Some (NExp, add_exp_digit a (digit_value c)) else None
  end.

Definition fresh (neg : bool) : numacc :=
  {| n_neg := neg; n_mant := 0; n_scale := 0; n_eneg := false; n_exp := 0 |}.

(** The tokens of a text, last first; [None] for a text that has none
    (a stray unit, an open string, a control unit in a string, a number
    cut short or followed by something that is no delimiter). *)
Fixpoint lex (md : mode) (cs : list ascii) (acc : list token) {struct cs}
    : option (list token) :=
  match cs with
  | [] =>
      match md with
      | Free => Some acc
      | InNumber st a => if accepting st then Some (TNumber (number_of a) :: acc) else None
      | _ => None
      end
  | c :: rest =>
      match md with
      | Free =>
          if is_json_space c then lex Free rest acc
          else if Ascii.eqb c dqc then lex (InString []) rest acc
          else if Ascii.eqb c "-" then lex (InNumber NMinus (fresh true)) rest acc
          else if Ascii.eqb c "0" then lex (InNumber NZero (fresh false)) rest acc
          else if is_digit c
          then lex (InNumber NInt (add_digit (fresh false) (digit_value c) false)) rest acc
          else if Ascii.eqb c "t" then
            match rest with
            | c1 :: c2 :: c3 :: rest' =>
                if starts_with (chars "rue") [c1; c2; c3]
                then lex Free rest' (TTrue :: acc) else None
            | _ => None
            end
          else if Ascii.eqb c "f" then
            match rest with
            | c1 :: c2 :: c3 :: c4 :: rest' =>
                if starts_with (chars "alse") [c1; c2; c3; c4]
                then lex Free rest' (TFalse :: acc) else None
            | _ => None
            end
          else if Ascii.eqb c "n" then
            match rest with
            | c1 :: c2 :: c3 :: rest' =>
                if starts_with (chars "ull") [c1; c2; c3]
                then lex Free rest' (TNull :: acc) else None
            | _ => None
            end
          else match punct c with
               | Some t => lex Free rest (t :: acc)
               | None => None
               end
      | InString s =>
          if Ascii.eqb c dqc then lex Free rest (TString (rev s) :: acc)
          else if Ascii.eqb c "\" then lex (Escaped s) rest acc
          else if (code c <? 32)%N then None
          else lex (InString (code c :: s)) rest acc
      | Escaped s =>
          if Ascii.eqb c "u" then lex (Hex s 4 0%N) rest acc
          else match simple_escape c with
               | Some u => lex (InString (u :: s)) rest acc
               | None => None
               end
      | Hex s todo v =>
          match hex_value c, todo with
          | Some d, 1%nat => lex (InString ((16 * v + d)%N :: s)) rest acc
          | Some d, S todo' => lex (Hex s todo' (16 * v + d)%N) rest acc
          | _, _ => None
          end
      | InNumber st a =>
          match num_step st a c with
          | Some (st', a') => lex (InNumber st' a') rest acc
          | None =>
              if accepting st then
                if is_json_space c then lex Free rest (TNumber (number_of a) :: acc)
                else match punct c with
                     | Some t => lex Free rest (t :: TNumber (number_of a) :: acc)
                     | None => None
                     end
              else None
          end
      end
  end.

Definition tokens (s : string) : option (list token) :=
  match lex Free (chars s) [] with
  | Some ts => Some (rev ts)
  | None => None
  end.

(** *** Values *)

Inductive open_container :=
| OArray (items : list value)                           (* last first *)
| OObject (fields : list (list N * value)) (key : list N).

Inductive phase :=
| PValue        (* a value must come *)
| PArrayStart   (* after [[]: a value or []] *)
| PObjectStart  (* after [{]: a key or [}] *)
| PKey          (* after a comma in an object *)
| PColon        (* after a key *)
| PAfter        (* after a value in a container *)
| PDone (v : value).

Record jstate := { j_stack : list open_container; j_phase : phase }.

(** A value is complete: it is the result, or goes into the container
    that is open. *)
Definition complete (v : value) (stack : list open_container) : jstate :=
  match stack with
  | [] => {| j_stack := []; j_phase := PDone v |}
  | OArray items :: stack' =>
      {| j_stack := OArray (v :: items) :: stack'; j_phase := PAfter |}
  | OObject fields key :: stack' =>
      {| j_stack := OObject ((key, v) :: fields) [] :: stack'; j_phase := PAfter |}
  end.

Definition start_value (t : token) (stack : list open_container) : option jstate :=
  match t with
  | TLBracket => Some {| j_stack := OArray [] :: stack; j_phase := PArrayStart |}
  | TLBrace => Some {| j_stack := OObject [] [] :: stack; j_phase := PObjectStart |}
  | TString s => Some (complete (JString s) stack)
  | TNumber n => Some (complete (JNumber n) stack)
  | TTrue => Some (complete (JBool true) stack)
  | TFalse => Some (complete (JBool false) stack)
  | TNull => Some (complete JNull stack)
  | _ => None
  end.

Definition close_array (stack : list open_container) : option jstate :=
  match stack with
  | OArray items :: stack' => Some (complete (JArray (rev items)) stack')
  | _ => None
  end.

Definition close_object (stack : list open_container) : option jstate :=
  match stack with
  | OObject fields _ :: stack' => Some (complete (JObject (rev fields)) stack')
  | _ => None
  end.

Definition set_key (k : list N) (stack : list open_container) : option jstate :=
  match stack with
  | OObject fields _ :: stack' =>
      Some {| j_stack := OObject fields k :: stack'; j_phase := PColon |}
  | _ => None
  end.

Definition feed (st : jstate) (t : token) : option jstate :=
  let stack := j_stack st in
  match j_phase st, t with
  | PValue, _ => start_value t stack
  | PArrayStart, TRBracket => close_array stack
  | PArrayStart, _ => start_value t stack
  | PObjectStart, TRBrace => close_object stack
  | PObjectStart, TString k => set_key k stack
  | PKey, TString k => set_key k stack
  | PColon, TColon => Some {| j_stack := stack; j_phase := PValue |}
  | PAfter, TComma =>
      match stack with
      | OArray _ :: _ => Some {| j_stack := stack; j_phase := PValue |}
      | OObject _ _ :: _ => Some {| j_stack := stack; j_phase := PKey |}
      | [] => None
      end
  | PAfter, TRBracket => close_array stack
  | PAfter, TRBrace => close_object stack
  | _, _ => None
  end.

Fixpoint feed_all (st : jstate) (ts : list token) : option value :=
  match ts with
  | [] => match j_phase st with PDone v => Some v | _ => None end
  | t :: ts' =>
      match feed st t with
      | Some st' => feed_all st' ts'
      | None => None
      end
  end.

(** [JSON.parse(text)]; [None] when it throws its [SyntaxError]. *)
Definition parse (text : string) : option value :=
  match tokens text with
  | Some ts => feed_all {| j_stack := []; j_phase := PValue |} ts
  | None => None
  end.

(** *** What the code asks of a parsed value *)

Fixpoint units_eqb (a b : list N) : bool :=
  match a, b with
  | [], [] => true
  | x :: a', y :: b' => (x =? y)%N && units_eqb a' b'
  | _, _ => false
  end.

(** Of several members with one key the last is kept. *)
Fixpoint field (k : list N) (fields : list (list N * value)) : option value :=
  match fields with
  | [] => None
  | (k', v) :: fields' =>
      match field k fields' with
      | Some v' => Some v'
      | None => if units_eqb k k' then Some v else None
      end
  end.

(** [v.key] on a value that is neither [null] nor [undefined]; [None] is
    [undefined].  The keys the code reads name no member of an array, a
    string, a number or a boolean. *)
Definition member (v : value) (key : string) : option value :=
  match v with
  | JObject fields => field (units key) fields
  | _ => None
  end.

(** A number of the text is read as the nearest double: it is zero when
    it is at most half the least positive double, [2 ^ -1075]. *)
Definition is_zero (n : number) : bool :=
  if (mantissa n =? 0)%N then true
  else if 0 <=? exponent n then false
  else Z.of_N (mantissa n) * 2 ^ 1075 <=? 10 ^ (- exponent n).

(** [ToBoolean], with [None] for [undefined]. *)
Definition truthy (v : option value) : bool :=
  match v with
  | None | Some JNull => false
  | Some (JBool b) => b
  | Some (JNumber n) => negb (is_zero n)
  | Some (JString s) => match s with [] => false | _ => true end
  | Some (JArray _) | Some (JObject _) => true
  end.

(** [toLowerCase] on the units of a string value.  Above U+00FF the
    Kelvin sign lowers to [k] and the dotted capital I to [i] and a
    combining dot; every other unit there lowers to units above U+007F,
    which no search of this code can tell from the unit itself. *)
Definition lower_unit (u : N) : list N :=
  if ((65 <=? u) && (u <=? 90))%N then [(u + 32)%N]
  else if ((192 <=? u) && (u <=? 222) && negb (u =? 215))%N then [(u + 32)%N]
  else if (u =? 304)%N then [105%N; 775%N]
  else if (u =? 8490)%N then [107%N]
  else [u].

Definition lower_units (s : list N) : list N := flat_map lower_unit s.

Fixpoint units_start (p s : list N) : bool :=
  match p, s with
  | [], _ => true
  | a :: p', b :: s' => (a =? b)%N && units_start p' s'
  | _ :: _, [] => false
  end.

(** [s.includes(p)] on units. *)
Fixpoint units_include (s p : list N) : bool :=
  units_start p s ||
  match s with
  | [] => false
  | _ :: s' => units_include s' p
  end.

End Json.

(** ** Results of code that may throw *)

Inductive js_error :=
| RegExpSyntaxError     (* [new RegExp] on a text that is no pattern *)
| TypeError.            (* a member read on [undefined] *)

(** What a call does: it returns, or it throws. *)
Inductive outcome (A : Type) :=
| Returns (a : A)
| Throws (e : js_error).

Arguments Returns {A} a.
Arguments Throws {A} e.

Definition bind {A B : Type} (x : outcome A) (f : A -> outcome B) : outcome B :=
  match x with
  | Returns a => f a
  | Throws e => Throws e
  end.

Notation "'let*' x := e 'in' k" := (bind e (fun x => k))
  (at level 10, x name, e at level 100, k at level 200).

(** To follow a hypothesis through a [let*]. *)
Ltac split_bind H :=
  match type of H with
  | bind ?e _ = _ =>
      let E := fresh "E" in
      destruct e eqn:E; simpl in H; try discriminate H
  end.

(** A pattern object made at run time: one whose text [compile] reads,
    or one only the engine reads, known by what its [test] answers. *)
Inductive RegExp :=
| Modelled (r : Regex.regex)
| Beyond (test : string -> bool).

(** The engine on the pattern texts [compile] does not read, with the
    flag [i]: [None] when the text is no pattern, else the [test] of the
    pattern.  The properties below hold whatever the engine does there. *)
Definition Engine := string -> option (string -> bool).

(** [new RegExp(src, 'i')]. *)
Definition newRegExp (engine : Engine) (src : string) : outcome RegExp :=
  match Syntax.compile src with
  | Syntax.Pattern r => Returns (Modelled r)
  | Syntax.SyntaxError => Throws RegExpSyntaxError
  | Syntax.Unsupported =>
      match engine src with
      | Some test => Returns (Beyond test)
      | None => Throws RegExpSyntaxError
      end
  end.

(** [pattern.test(text)]. *)
Definition testRegExp (pattern : RegExp) (text : string) : bool :=
  match pattern with
  | Modelled r => Regex.test Regex.flag_i r text
  | Beyond test => test text
  end.

(** ** The markup heuristic classifier ([src/stock-checker.ts]) *)

Inductive StockStatus := in_stock | few_left | unavailable.

Module StockChecker.
Import Str Regex Syntax.

(** The pattern literals of the file. *)

Definition sizePattern : regex :=
  Eval vm_compute in literal "Size:\s*([^,]+)".

Definition colorPattern : regex :=
  Eval vm_compute in literal "Color:\s*([^,]+)".

Definition disabledPattern_src : string :=
  "disabled|aria-disabled=" ++ dq ++ "true" ++ dq ++ "|class=" ++ dq
  ++ "[^" ++ dq ++ "]*disabled[^" ++ dq ++ "]*" ++ dq.

Definition disabledPattern : regex :=
  Eval vm_compute in literal disabledPattern_src.

Definition outOfStockPattern : regex :=
  Eval vm_compute in
    literal "\b(out of stock|sold out|currently unavailable|not available|unavailable)\b".

Definition lowStockPattern : regex :=
  Eval vm_compute in
    literal "\b(low stock|few left|limited stock|only \d+ left)\b".

Definition jsonLdPattern_src : string :=
  "<script[^>]*type=[" ++ dq ++ "']application\/ld\+json[" ++ dq
  ++ "'][^>]*>([\s\S]*?)<\/script>".

Definition jsonLdPattern : regex :=
  Eval vm_compute in literal jsonLdPattern_src.

(** The two patterns built from the size of the variant. *)

Definition sizeUnavailable_src (size : string) : string :=
  size ++ "[^<]*?(out of stock|sold out|unavailable|disabled)".

Definition sizeButton_src (size : string) : string :=
  "data-size=[" ++ dq ++ "']" ++ size ++ "[" ++ dq ++ "'][^>]*(disabled|class="
  ++ dq ++ "[^" ++ dq ++ "]*disabled[^" ++ dq ++ "]*" ++ dq ++ ")".

(** [data?.offers?.availability?.toLowerCase()] and the three tests on
    it.  Whatever throws in the [try] block (the parse, [toLowerCase] on
    a value that is no string) is caught and gives [null]. *)
Definition availabilityStatus (data : Json.value) : option StockStatus :=
  match data with
  | Json.JNull => None
  | _ =>
      match Json.member data "offers" with
      | None | Some Json.JNull => None
      | Some offers =>
          match Json.member offers "availability" with
          | Some (Json.JString a) =>
              let availability := Json.lower_units a in
              let has p := Json.units_include availability (Json.units p) in
              if Json.truthy (Some (Json.JString availability)) then
                if has "instock" || has "in_stock" then Some in_stock
                else if has "outofstock" || has "out_of_stock" then Some unavailable
                else if has "limitedavailability" then Some few_left
                else None
              else None
          | _ => None
          end
      end
  end.

(** The text of the first JSON-LD block, [jsonLdMatch[1]]. *)
Definition jsonLdMatch (html : string) : option string :=
  match exec flag_i jsonLdPattern html with
  | Some f => capture html f 1
  | None => None
  end.

Definition checkStructuredData (html : string) : option StockStatus :=
  match jsonLdMatch html with
  | Some payload =>
      match Json.parse payload with
      | Some data => availabilityStatus data
      | None => None
      end
  | None => None
  end.

Definition hasAddToCart (lowerHtml : string) : bool :=
  includes lowerHtml "add to cart" ||
  includes lowerHtml "add to bag" ||
  includes lowerHtml "add to basket" ||
  includes lowerHtml "buy now" ||
  includes lowerHtml "purchase".

(** The text in which the disabled marks are looked for. *)
Definition buttonSection (lowerHtml : string) : string :=
  let addToCartIndex := indexOf lowerHtml "add to cart" in
  let start := Z.max 0 (addToCartIndex - 1500) in
  let fin := Z.min (length lowerHtml) (addToCartIndex + 1500) in
  substring lowerHtml start fin.

Definition hasDisabledButton (lowerHtml : string) : bool :=
  if hasAddToCart lowerHtml
  then test flag_i disabledPattern (buttonSection lowerHtml)
  else false.

Definition parseStockStatus (html : string) : StockStatus :=
  let lowerHtml := toLowerCase html in
  match checkStructuredData html with
  | Some structuredAvailability => structuredAvailability
  | None =>
      let hasAddToCart := hasAddToCart lowerHtml in
      let hasDisabledButton := hasDisabledButton lowerHtml in
      if test flag_i outOfStockPattern html then unavailable
      else if test flag_i lowStockPattern html then few_left
      else if hasAddToCart && negb hasDisabledButton then in_stock
      else if hasAddToCart && hasDisabledButton then unavailable
      else in_stock
  end.

(** [variantString.match(pattern)?.[1].trim()]; [None] is [undefined]. *)
Definition variantField (pattern : regex) (variantString : string)
    : outcome (option string) :=
  match exec flag_i pattern variantString with
  | None => Returns None
  | Some f =>
      match capture variantString f 1 with
      | Some v => Returns (Some (trim v))
      | None => Throws TypeError
      end
  end.

Definition parseVariantStock (engine : Engine) (html variantString : string)
    : outcome StockStatus :=
  let* size := variantField sizePattern variantString in
  let* color := variantField colorPattern variantString in
  match size with
  | Some size =>
      if is_empty size then Returns (parseStockStatus html)
      else
        let* sizeUnavailablePattern := newRegExp engine (sizeUnavailable_src size) in
        if testRegExp sizeUnavailablePattern html then Returns unavailable
        else
          let* sizeButtonPattern := newRegExp engine (sizeButton_src size) in
          if testRegExp sizeButtonPattern html then Returns unavailable
          else Returns (parseStockStatus html)
  | None => Returns (parseStockStatus html)
  end.

(** The choice [checkStock] makes once the page is fetched: an absent or
    empty variant asks for the product as a whole. *)
Definition classify (engine : Engine) (html : string) (variant : option string)
    : outcome StockStatus :=
  match variant with
  | Some v => if is_empty v then Returns (parseStockStatus html)
              else parseVariantStock engine html v
  | None => Returns (parseStockStatus html)
  end.

End StockChecker.

(** ** The older copy of the classifier

  The second [StockChecker] kept in [src/stock-checker.ts]: whole-product
  classification only, with the marketplace check, the phrase check
  scoped to the purchase area and the structured data read late. *)

Module Legacy.
Import Str Regex Syntax.

Definition checkStructuredData := StockChecker.checkStructuredData.

Definition hasDisabledAttr_src : string :=
  "disabled=" ++ dq ++ "true" ++ dq ++ "|disabled>|disabled\s|disabled=" ++ dq ++ dq
  ++ "|disabled$".

Definition hasDisabledAttr : regex := Eval vm_compute in literal hasDisabledAttr_src.

Definition ariaDisabled : regex :=
  Eval vm_compute in literal ("aria-disabled=" ++ dq ++ "true" ++ dq).

Definition classWith_src (word : string) : string :=
  "class=" ++ dq ++ "[^" ++ dq ++ "]*" ++ word ++ "[^" ++ dq ++ "]*" ++ dq
  ++ "|class='[^']*" ++ word ++ "[^']*'".

Definition hasDisabledClass : regex :=
  Eval vm_compute in literal (classWith_src "disabled").

Definition hasInactiveClass : regex :=
  Eval vm_compute in literal (classWith_src "inactive").

Definition hasZalandoDisabled : regex :=
  Eval vm_compute in literal "button--disabled|z-button--disabled|is-disabled".

Definition outOfStockPatterns : list regex :=
  Eval vm_compute in
    map literal
      [ "\bout of stock\b";
        "\bsold out\b";
        "\bcurrently unavailable\b";
        "\bno longer available\b";
        "\btemporarily out of stock\b";
        "\bnot available\b";
        "\bitem is no longer available\b";
        "\bthis item is unavailable\b" ].

Definition lowStockPatterns : list regex :=
  Eval vm_compute in
    map literal
      [ "only \d+ left";
        "\blow stock\b";
        "\bfew left\b";
        "\blimited stock\b";
        "\balmost gone\b" ].

Definition hasAddToCart (lowerHtml : string) : bool :=
  includes lowerHtml "add to cart" ||
  includes lowerHtml "add to bag" ||
  includes lowerHtml "add to basket" ||
  includes lowerHtml "buy now" ||
  includes lowerHtml "purchase" ||
  includes lowerHtml "pre-order".

Definition hasDisabledButton (lowerHtml : string) : bool :=
  let addToCartIndex := indexOf lowerHtml "add to cart" in
  if negb (addToCartIndex =? -1) then
    let start := Z.max 0 (addToCartIndex - 1500) in
    let fin := Z.min (length lowerHtml) (addToCartIndex + 1500) in
    let buttonSection := substring lowerHtml start fin in
    test flag_m hasDisabledAttr buttonSection
    || test no_flags ariaDisabled buttonSection
    || test flag_i hasDisabledClass buttonSection
    || test flag_i hasInactiveClass buttonSection
    || test no_flags hasZalandoDisabled buttonSection
  else false.

(** The text the phrases are looked for in when a purchase phrase is on
    the page: cut out of [html] at the positions found in [lowerHtml]. *)
Definition productArea (html lowerHtml : string) : string :=
  let addToCartIndex := indexOf lowerHtml "add to cart" in
  let start := Z.max 0 (addToCartIndex - 2000) in
  let fin := Z.min (length lowerHtml) (addToCartIndex + 2000) in
  substring html start fin.

Definition any_match (patterns : list regex) (text : string) : bool :=
  existsb (fun pattern => test flag_i pattern text) patterns.

Definition parseStockStatus (html : string) : StockStatus :=
  let lowerHtml := toLowerCase html in
  if includes lowerHtml "see all buying options"
     || includes lowerHtml "other sellers on amazon"
  then in_stock
  else
    let hasAddToCart := hasAddToCart lowerHtml in
    let hasDisabledButton := hasDisabledButton lowerHtml in
    if any_match outOfStockPatterns
         (if hasAddToCart then productArea html lowerHtml else html)
    then unavailable
    else if any_match lowStockPatterns html then few_left
    else
      match checkStructuredData html with
      | Some structuredAvailability => structuredAvailability
      | None =>
          if hasAddToCart && negb hasDisabledButton then in_stock
          else if hasAddToCart && hasDisabledButton then unavailable
          else in_stock
      end.

End Legacy.

(** ** Reading the model's answer ([src/ai-vision-service.ts]) *)

Module AIVision.
Import Str Regex Syntax.

(** A block of [response.content]: text, or anything else. *)
Inductive ContentBlock :=
| TextBlock (text : string)
| OtherBlock.

Definition Message := list ContentBlock.

(** What is thrown, and caught, inside the two parsers. *)
Inductive failure :=
| NoContent                  (* [content] is [undefined] *)
| UnexpectedResponseType
| NoJsonFound
| JsonSyntaxError            (* thrown by [JSON.parse] *)
| ReadOfNull                 (* a member read on [null] *)
| InvalidStatus (v : option Json.value)
| VariantsNotArray.

(** The [reasoning] of a result: a value of the answer ([None] is
    [undefined]), or the message built in the [catch] block,
    ["Failed to parse AI response: ..."]. *)
Inductive Reasoning :=
| Given (v : option Json.value)
| FailedToParse (e : failure).

Record StockCheckResult := {
  status : StockStatus;
  confidence : Json.value;
  reasoning : Reasoning
}.

Record VariantDetectionResult := {
  variants : list Json.value;
  v_confidence : Json.value;
  v_reasoning : Reasoning
}.

Definition text_value (s : string) : Json.value := Json.JString (Json.units s).

(** The pattern that takes the answer out of the text: from the first
    opening brace to the last closing one. *)
Definition jsonPattern : regex := Eval vm_compute in literal "\{[\s\S]*\}".

Definition jsonMatch (text : string) : option string :=
  match exec no_flags jsonPattern text with
  | Some f => Some (matched text f)
  | None => None
  end.

(** The [try] block up to [JSON.parse], shared by the two parsers. *)
Definition parsedAnswer (response : Message) : failure + Json.value :=
  match response with
  | [] => inl NoContent
  | OtherBlock :: _ => inl UnexpectedResponseType
  | TextBlock text :: _ =>
      match jsonMatch text with
      | None => inl NoJsonFound
      | Some json =>
          match Json.parse json with
          | None => inl JsonSyntaxError
          | Some parsed => inr parsed
          end
      end
  end.

(** [parsed.key]: it throws on [null]. *)
Definition read (parsed : Json.value) (key : string) : failure + option Json.value :=
  match parsed with
  | Json.JNull => inl ReadOfNull
  | _ => inr (Json.member parsed key)
  end.

(** [validStatuses.includes(v)], with the status it names. *)
Definition validStatus (v : option Json.value) : option StockStatus :=
  match v with
  | Some (Json.JString s) =>
      if Json.units_eqb s (Json.units "in_stock") then Some in_stock
      else if Json.units_eqb s (Json.units "few_left") then Some few_left
      else if Json.units_eqb s (Json.units "unavailable") then Some unavailable
      else None
  | _ => None
  end.

(** [v || fallback]. *)
Definition or_default (v : option Json.value) (fallback : string) : Json.value :=
  match v with
  | Some x => if Json.truthy v then x else text_value fallback
  | None => text_value fallback
  end.

Definition tryParseStock (response : Message) : failure + StockCheckResult :=
  match parsedAnswer response with
  | inl e => inl e
  | inr parsed =>
      match read parsed "status" with
      | inl e => inl e
      | inr st =>
          match validStatus st with
          | None => inl (InvalidStatus st)
          | Some s =>
              inr {| status := s;
                     confidence := or_default (Json.member parsed "confidence") "medium";
                     reasoning :=
                       Given (Some (or_default (Json.member parsed "reasoning")
                                      "No reasoning provided")) |}
          end
      end
  end.

Definition parseStockResponse (response : Message) : StockCheckResult :=
  match tryParseStock response with
  | inr result => result
  | inl error =>
      {| status := unavailable;
         confidence := text_value "low";
         reasoning := FailedToParse error |}
  end.

Definition tryParseVariants (response : Message) : failure + VariantDetectionResult :=
  match parsedAnswer response with
  | inl e => inl e
  | inr parsed =>
      match read parsed "variants" with
      | inl e => inl e
      | inr (Some (Json.JArray items)) =>
          inr {| variants := items;
                 v_confidence := or_default (Json.member parsed "confidence") "medium";
                 v_reasoning := Given (Json.member parsed "reasoning") |}
      | inr _ => inl VariantsNotArray
      end
  end.

Definition parseVariantResponse (response : Message) : VariantDetectionResult :=
  match tryParseVariants response with
  | inr result => result
  | inl error =>
      {| variants := [];
         v_confidence := text_value "low";
         v_reasoning := FailedToParse error |}
  end.

End AIVision.

(** ** The response cache ([getFromCache], [setCache])

  The [Map] of the service is a finite map from keys to entries; the
  clock ([Date.now()]) is read once by [getFromCache] and twice by
  [setCache], and each reading is an argument here. *)

Module Cache.
Section WithResult.

(** What is cached: the result of either operation. *)
Variable Result : Type.

Record entry := { result : Result; timestamp : Z }.

Definition CACHE_TTL : Z := 5 * 60 * 1000.

Definition expired (now : Z) (e : entry) : Prop := now - timestamp e > CACHE_TTL.

#[export] Instance expired_dec now e : Decision (expired now e).
Proof. unfold expired. apply _. Defined.

Definition getFromCache (now : Z) (key : string) (cache : gmap string entry)
    : option Result * gmap string entry :=
  match cache !! key with
  | None => (None, cache)
  | Some cached =>
      let age := now - timestamp cached in
      if bool_decide (age > CACHE_TTL) then (None, delete key cache)
      else (Some (result cached), cache)
  end.

(** The sweep of [setCache]: every entry that is expired at [now] goes. *)
Definition sweep (now : Z) (cache : gmap string entry) : gmap string entry :=
  filter (fun kv => ~ expired now kv.2) cache.

Definition setCache (now sweepNow : Z) (key : string) (r : Result)
    (cache : gmap string entry) : gmap string entry :=
  let cache := <[key := {| result := r; timestamp := now |}]> cache in
  if bool_decide (100 < size cache)%nat then sweep sweepNow cache else cache.

(** A run of the cache: reads and writes, each with its clock readings. *)
Inductive op :=
| Get (now : Z) (key : string)
| Put (now sweepNow : Z) (key : string) (r : Result).

Definition step (cache : gmap string entry) (o : op) : gmap string entry :=
  match o with
  | Get now key => (getFromCache now key cache).2
  | Put now sweepNow key r => setCache now sweepNow key r cache
  end.

Definition run (ops : list op) : gmap string entry := fold_left step ops ∅.

End WithResult.

Arguments result {Result} e.
Arguments timestamp {Result} e.
Arguments expired {Result} now e.
Arguments getFromCache {Result} now key cache.
Arguments sweep {Result} now cache.
Arguments setCache {Result} now sweepNow key r cache.
Arguments Get {Result} now key.
Arguments Put {Result} now sweepNow key r.
Arguments step {Result} cache o.
Arguments run {Result} ops.

End Cache.

(** ** The cache around the model call ([detectVariants], [checkVariantStock])

    One call of either operation, run from its first line to its return
    with no other call in between.  The answer the model would give if it
    were asked is an argument, [None] when the call to the model fails
    (the image format and the prompt only feed that call); so are the
    three readings of the clock. *)

Module Service.
Import Str AIVision Cache.

(** The cache holds the results of both operations. *)
Inductive Cached :=
| StockResult (r : StockCheckResult)
| VariantsResult (r : VariantDetectionResult).

Record Clock := { atGet : Z; atSet : Z; atSweep : Z }.

(** What a call does: what it returns ([None]: it throws the error of the
    model call), whether it asked the model, the cache it leaves. *)
Record Call := {
  returned : option Cached;
  invoked : bool;
  cacheAfter : gmap string (entry Cached)
}.

Definition getCacheKey (prefix screenshot : string) : string :=
  prefix ++ "-" ++ substring screenshot 0 100.

Definition checkVariantStock (reply : option Message) (clock : Clock)
    (cache : gmap string (entry Cached)) (screenshot variant : string) : Call :=
  let cacheKey := getCacheKey ("stock-" ++ variant) screenshot in
  match getFromCache (atGet clock) cacheKey cache with
  | (Some cached, cache) =>
      {| returned := Some cached; invoked := false; cacheAfter := cache |}
  | (None, cache) =>
      match reply with
      | Some response =>
          let result := StockResult (parseStockResponse response) in
          {| returned := Some result; invoked := true;
             cacheAfter := setCache (atSet clock) (atSweep clock) cacheKey result cache |}
      | None => {| returned := None; invoked := true; cacheAfter := cache |}
      end
  end.

Definition detectVariants (reply : option Message) (clock : Clock)
    (cache : gmap string (entry Cached)) (screenshot : string) : Call :=
  let cacheKey := getCacheKey "variants" screenshot in
  match getFromCache (atGet clock) cacheKey cache with
  | (Some cached, cache) =>
      {| returned := Some cached; invoked := false; cacheAfter := cache |}
  | (None, cache) =>
      match reply with
      | Some response =>
          let result := VariantsResult (parseVariantResponse response) in
          {| returned := Some result; invoked := true;
             cacheAfter := setCache (atSet clock) (atSweep clock) cacheKey result cache |}
      | None => {| returned := None; invoked := true; cacheAfter := cache |}
      end
  end.

End Service.

(** ** Notions used to state the properties *)

(** What a match of a pattern reads.  [lang fl r u]: the units [u] are a
  text the pattern [r] can read, the assertions left aside. *)

Module RegexSpec.
Import Str Regex Syntax.

Fixpoint lang (fl : flags) (r : regex) (u : list ascii) {struct r} : Prop :=
  match r with
  | Empty | Bol | Eol | WordBoundary | NotWordBoundary => u = []
  | Char c => exists a, u = [a] /\ canon fl a = canon fl c
  | Dot => exists a, u = [a] /\ is_line_terminator a = false
  | Class neg items => exists a, u = [a] /\ xorb neg (class_mem fl items a) = true
  | Seq r1 r2 => exists u1 u2, u = (u1 ++ u2)%list /\ lang fl r1 u1 /\ lang fl r2 u2
  | Alt r1 r2 => lang fl r1 u \/ lang fl r2 u
  | Group _ r1 => lang fl r1 u
  | Repeat _ _ r1 => exists us, u = concat us /\ Forall (lang fl r1) us
  end.

(** The matcher reads [u] from [x] to [y] and [k] succeeds at [y]. *)
Definition reads (L : list ascii -> Prop) (k : cont) (x z : mstate) : Prop :=
  exists u y,
    m_rest x = (u ++ m_rest y)%list
    /\ m_pos y = (m_pos x + List.length u)%nat
    /\ L u
    /\ k y = Some z.

(** *** Patterns that spell a word

    [mentions w r]: every alternative of [r] holds the units of [w] in a
    row.  Whatever such a pattern reads holds [w], up to the case of its
    letters when the flag [i] is set. *)

Fixpoint spells (w : list ascii) (r : regex) {struct w} : bool :=
  match w with
  | [] => true
  | c :: w' =>
      match r with
      | Char c' => Ascii.eqb c c' && match w' with [] => true | _ => false end
      | Seq (Char c') r2 => Ascii.eqb c c' && spells w' r2
      | _ => false
      end
  end.

Fixpoint mentions (w : list ascii) (r : regex) {struct r} : bool :=
  spells w r ||
  match r with
  | Seq _ r2 => mentions w r2
  | Alt r1 r2 => mentions w r1 && mentions w r2
  | Group _ r1 => mentions w r1
  | _ => false
  end.

Definition same_letters (fl : flags) (v w : list ascii) : Prop :=
  Forall2 (fun a c => canon fl a = canon fl c) v w.

Definition holds (fl : flags) (w u : list ascii) : Prop :=
  exists pre v post, u = (pre ++ v ++ post)%list /\ same_letters fl v w.

(** [y] is a state the matcher can be in after [x]: further in the same
    text. *)
Definition reach (x y : mstate) : Prop :=
  exists u, m_rest x = (u ++ m_rest y)%list
            /\ m_pos y = (m_pos x + List.length u)%nat.

(** A matcher that asks its continuation only of states further in the
    text. *)
Definition extensional (body : cont -> mstate -> option mstate) : Prop :=
  forall k k' x, (forall y, reach x y -> k y = k' y) -> body k x = body k' x.

(** Patterns that end with a capture group. *)

Fixpoint ends_with_group (i : nat) (r : regex) : bool :=
  match r with
  | Seq _ r2 => ends_with_group i r2
  | Group j _ => Nat.eqb i j
  | _ => false
  end.

Definition is_pattern (c : compiled) : bool :=
  match c with Pattern _ => true | _ => false end.

End RegexSpec.

Module StrSpec.
Import Str.

(** [p] is the index of an occurrence of [w] in [s]. *)
Definition occurs_at (w s : string) (p : Z) : Prop :=
  exists pre post,
    chars s = (pre ++ chars w ++ post)%list /\ Z.of_nat (List.length pre) = p.

(** The indices of all the occurrences of [w] in [s], counted from [i]. *)
Fixpoint occurrences_from (w s : list ascii) (i : Z) : list Z :=
  (if starts_with w s then [i] else []) ++
  match s with
  | [] => []
  | _ :: s' => occurrences_from w s' (i + 1)
  end.

Definition occurrences (w s : string) : list Z :=
  occurrences_from (chars w) (chars s) 0.

(** No capital of the basic alphabet is left by [toLowerCase]. *)
Definition no_capital (l : list ascii) : Prop :=
  Forall (fun c => between 65 90 c = false) l.

(** The units of the alphabet, to settle a fact on units by running
    through them. *)
Definition all_ascii : list ascii := map ascii_of_nat (seq 0 256).

Definition for_all_pairs (P : ascii -> ascii -> bool) : bool :=
  forallb (fun a => forallb (P a) all_ascii) all_ascii.

(** Small letters of the basic alphabet only. *)
Definition small_letters (l : list ascii) : Prop :=
  Forall (fun c => between 97 122 c = true) l.

End StrSpec.

Module Samples.
Import Str.

(** An engine that reads no pattern beyond those of [compile]; none of
    the samples asks it anything. *)
Definition no_engine : Engine := fun _ => None.

(** Sample pages. *)

Definition jsonLdBlock (availability : string) : string :=
  "<script type=" ++ dq ++ "application/ld+json" ++ dq ++ ">{" ++ dq ++ "@type"
  ++ dq ++ ":" ++ dq ++ "Product" ++ dq ++ "," ++ dq ++ "offers" ++ dq ++ ":{" ++ dq
  ++ "availability" ++ dq ++ ":" ++ dq ++ availability ++ dq ++ "}}</script>".

Definition page_in_stock_and_sold_out : string :=
  "<html>" ++ jsonLdBlock "https://schema.org/InStock"
  ++ "<p>Sold out</p></html>".

Definition page_size_L_disabled : string :=
  "<div><button data-size=" ++ dq ++ "L" ++ dq ++ " disabled>L</button></div>".


Definition page_buying_options : string :=
  "<a>See All Buying Options</a><button disabled>Add to Cart</button>".

Definition page_far_disabled (phrase : string) : string :=
  "<button disabled>x</button>" ++ spaces 2000 ++ "<button>" ++ phrase
  ++ "</button>".


(** Pages whose wording decides. *)
Definition page_sold_out_shout : string := "<p>SOLD OUT!</p>".
Definition page_only_3_left : string := "<p>Hurry, Only 3 left in stock</p>".

(** A page for sale whose prose reads [sold out] by accident. *)
Definition page_sold_outside : string :=
  "<p>Items sold outside the EU ship later</p><button>Add to Cart</button>".

End Samples.

(** Three sentences of the specification as they are worded, for the
    classifier of today; each is refuted below on a sample page, and
    proved in the form the code bears out. *)

Module Stated.
Import Str Regex StockChecker StrSpec.


(** A page that advertises offers of other sellers is [in_stock]. *)
Definition marketplace_override : Prop :=
  forall html : string,
    includes (toLowerCase html) "see all buying options" = true ->
    parseStockStatus html = in_stock.

Definition affordance_phrases : list string :=
  [ "add to cart"; "add to bag"; "add to basket"; "buy now"; "purchase" ].

(** A [disabled] (8 units) at [p] is inside the window of 1500 units
    before and after [i]. *)
Definition in_window (lowerHtml : string) (i p : Z) : Prop :=
  Z.max 0 (i - 1500) <= p /\ p + 8 <= Z.min (length lowerHtml) (i + 1500).

(** Whatever the purchase phrase found on the page, a [disabled] that
    lies outside the window around its first occurrence leaves the
    disabled flag unset. *)
Definition disabled_windowed_around_affordance : Prop :=
  forall (html phrase : string),
    In phrase affordance_phrases ->
    let lowerHtml := toLowerCase html in
    includes lowerHtml phrase = true ->
    (forall p, occurs_at "disabled" lowerHtml p ->
               ~ in_window lowerHtml (indexOf lowerHtml phrase) p) ->
    hasDisabledButton lowerHtml = false.




End Stated.

(** Sample answers of the model, and the sentence of the specification
    on the confidence as it is worded. *)

Module Answers.
Import Str AIVision.

Definition quoted (s : string) : string := dq ++ s ++ dq.

(** An answer with no JSON object at all. *)
Definition answer_prose : Message :=
  [ TextBlock "I cannot find the size selector in this screenshot." ].

(** An answer whose braces hold no JSON (the keys are not quoted). *)
Definition answer_unquoted : Message :=
  [ TextBlock "Result: {status: in_stock, confidence: high}" ].

(** An answer whose status is none of the three. *)
Definition answer_bad_status : Message :=
  [ TextBlock ("{" ++ quoted "status" ++ ":" ++ quoted "sold_out" ++ "}") ].

(** An answer whose [variants] is no array. *)
Definition answer_bad_variants : Message :=
  [ TextBlock ("{" ++ quoted "variants" ++ ":" ++ quoted "none" ++ "}") ].

(** A well-formed answer with a confidence outside the rubric. *)
Definition answer_certain : Message :=
  [ TextBlock ("```json {" ++ quoted "status" ++ ":" ++ quoted "in_stock" ++ ","
               ++ quoted "variants" ++ ":[],"
               ++ quoted "confidence" ++ ":" ++ quoted "certain" ++ "} ```") ].

Definition is_array (v : option Json.value) : bool :=
  match v with Some (Json.JArray _) => true | _ => false end.

Definition in_rubric (c : Json.value) : Prop :=
  c = text_value "high" \/ c = text_value "medium" \/ c = text_value "low".

(** The confidence of every result is one of the three labels. *)
Definition confidence_validated : Prop :=
  forall response : Message,
    in_rubric (confidence (parseStockResponse response))
    /\ in_rubric (v_confidence (parseVariantResponse response)).

(** The result of [checkVariantStock] on a malformed answer. *)
Definition degradedStock (e : failure) : StockCheckResult :=
  {| status := unavailable; confidence := text_value "low";
     reasoning := FailedToParse e |}.

(** The result of [detectVariants] on a malformed answer. *)
Definition degradedVariants (e : failure) : VariantDetectionResult :=
  {| variants := []; v_confidence := text_value "low";
     v_reasoning := FailedToParse e |}.

(** The body of a well-formed answer, without its braces. *)
Definition answer_body : string :=
  quoted "status" ++ ":" ++ quoted "few_left" ++ "," ++ quoted "confidence" ++ ":"
  ++ quoted "high".

End Answers.

(** Ways to look at a match and at a parsed string. *)

Module Probes.
Import Str Regex Syntax.

(** The whole match and the first [n] groups of the first match. *)
Definition groups_of (fl : flags) (src text : string) (n : nat)
    : option (list (option string)) :=
  match compile src with
  | Pattern r =>
      match exec fl r text with
      | Some f => Some (Some (matched text f) :: map (capture text f) (seq 1 n))
      | None => None
      end
  | _ => None
  end.

Definition text_of (v : option Json.value) : option string :=
  match v with
  | Some (Json.JString s) => Some (str (map ascii_of_N s))
  | _ => None
  end.

End Probes.

(** ** What a pattern reads

  A reading of the patterns that names no continuation: [sem fl r prev u
  rt] says that [r] reads the units [u], with [prev] the unit before
  them and [rt] the text after them.  The matcher of [Regex] is compared
  with it in the second part. *)

Module RegexSem.
Import Str Regex.

(** The unit before the position reached once [u] is read. *)
Fixpoint after (prev : option ascii) (u : list ascii) : option ascii :=
  match u with
  | [] => prev
  | c :: u' => after (Some c) u'
  end.

(** The text around a position: the unit before it and the text from it. *)
Definition around (prev : option ascii) (rt : list ascii) : mstate :=
  {| m_prev := prev; m_pos := 0; m_rest := rt; m_caps := [] |}.

(** [sem fl r prev u rt]: after the unit [prev] and before the text [rt],
    the pattern [r] can read [u], assertions included. *)
Inductive sem (fl : flags) : regex -> option ascii -> list ascii -> list ascii -> Prop :=
| sem_empty prev rt : sem fl Empty prev [] rt
| sem_char c a prev rt :
    canon fl a = canon fl c -> sem fl (Char c) prev [a] rt
| sem_dot a prev rt :
    is_line_terminator a = false -> sem fl Dot prev [a] rt
| sem_class neg items a prev rt :
    xorb neg (class_mem fl items a) = true -> sem fl (Class neg items) prev [a] rt
| sem_seq r1 r2 prev u1 u2 rt :
    sem fl r1 prev u1 (u2 ++ rt) -> sem fl r2 (after prev u1) u2 rt ->
    sem fl (Seq r1 r2) prev (u1 ++ u2) rt
| sem_alt_left r1 r2 prev u rt :
    sem fl r1 prev u rt -> sem fl (Alt r1 r2) prev u rt
| sem_alt_right r1 r2 prev u rt :
    sem fl r2 prev u rt -> sem fl (Alt r1 r2) prev u rt
| sem_group i r prev u rt :
    sem fl r prev u rt -> sem fl (Group i r) prev u rt
| sem_star_stop g r prev rt : sem fl (Repeat QStar g r) prev [] rt
| sem_star_more g r prev u1 u2 rt :
    sem fl r prev u1 (u2 ++ rt) ->
    sem fl (Repeat QStar g r) (after prev u1) u2 rt ->
    sem fl (Repeat QStar g r) prev (u1 ++ u2) rt
| sem_plus g r prev u1 u2 rt :
    sem fl r prev u1 (u2 ++ rt) ->
    sem fl (Repeat QStar g r) (after prev u1) u2 rt ->
    sem fl (Repeat QPlus g r) prev (u1 ++ u2) rt
| sem_opt_none g r prev rt : sem fl (Repeat QOpt g r) prev [] rt
| sem_opt_some g r prev u rt :
    sem fl r prev u rt -> sem fl (Repeat QOpt g r) prev u rt
| sem_bol prev rt :
    at_bol fl (around prev rt) = true -> sem fl Bol prev [] rt
| sem_eol prev rt :
    at_eol fl (around prev rt) = true -> sem fl Eol prev [] rt
| sem_boundary prev rt :
    xorb (word_before (around prev rt)) (word_after (around prev rt)) = true ->
    sem fl WordBoundary prev [] rt
| sem_not_boundary prev rt :
    xorb (word_before (around prev rt)) (word_after (around prev rt)) = false ->
    sem fl NotWordBoundary prev [] rt.

(** The matcher reads [u] from [x] to [y], as the pattern allows where
    [x] stands, and [k] succeeds at [y]. *)
Definition reads_at (fl : flags) (r : regex) (k : cont) (x z : mstate) : Prop :=
  exists u y,
    m_rest x = (u ++ m_rest y)%list
    /\ m_pos y = (m_pos x + List.length u)%nat
    /\ m_prev y = after (m_prev x) u
    /\ sem fl r (m_prev x) u (m_rest y)
    /\ k y = Some z.

Definition ok (o : option mstate) : bool :=
  match o with Some _ => true | None => false end.

(** [y] is where the matcher stands once it has read [u] from [x]. *)
Definition stands (x : mstate) (u rt : list ascii) (y : mstate) : Prop :=
  m_prev y = after (m_prev x) u
  /\ m_pos y = (m_pos x + List.length u)%nat
  /\ m_rest y = rt.

End RegexSem.

(** ** The wording of a page

  What the two phrase patterns of the classifier look for, said on the
  text of the page. *)

Module PageText.
Import Str Regex RegexSpec RegexSem.

(** The pattern that reads the units of [w], then what [tail] reads. *)
Fixpoint lit_then (w : list ascii) (tail : regex) : regex :=
  match w with
  | [] => tail
  | c :: w' => Seq (Char c) (lit_then w' tail)
  end.

(** The pattern that reads the units of [w]. *)
Fixpoint word_regex (w : list ascii) : regex :=
  match w with
  | [] => Empty
  | [c] => Char c
  | c :: w' => Seq (Char c) (word_regex w')
  end.

Definition first_is_word (l : list ascii) : bool :=
  match l with c :: _ => is_word c | [] => false end.

Definition last_is_word (l : list ascii) : bool :=
  match after None l with Some c => is_word c | None => false end.

(** [v] stands in [s] on its own: no letter, digit or underscore touches
    it on either side. *)
Definition stands_alone (s : string) (v : list ascii) : Prop :=
  exists pre post,
    chars s = (pre ++ v ++ post)%list
    /\ last_is_word pre = false /\ first_is_word post = false.

(** The phrase [w] stands in [s] as whole words, in any letter case. *)
Definition whole_word (w s : string) : Prop :=
  exists v, same_letters flag_i v (chars w) /\ stands_alone s v.

(** [only N left], with [N] one digit or more, as whole words. *)
Definition only_n_left (s : string) : Prop :=
  exists a d b,
    same_letters flag_i a (chars "only ")
    /\ d <> [] /\ Forall (fun c => is_digit c = true) d
    /\ same_letters flag_i b (chars " left")
    /\ stands_alone s (a ++ d ++ b).

Definition outOfStockPhrases : list string :=
  [ "out of stock"; "sold out"; "currently unavailable"; "not available";
    "unavailable" ].

Definition lowStockPhrases : list string :=
  [ "low stock"; "few left"; "limited stock" ].

Definition says_out_of_stock (html : string) : Prop :=
  exists w, In w outOfStockPhrases /\ whole_word w html.

Definition says_low_stock (html : string) : Prop :=
  (exists w, In w lowStockPhrases /\ whole_word w html) \/ only_n_left html.

(** The alternatives of a group of phrases. *)
Fixpoint alternatives (rs : list regex) : regex :=
  match rs with
  | [] => Empty
  | [r] => r
  | r :: rs' => Alt r (alternatives rs')
  end.

(** [only \d+ left]. *)
Definition only_n_left_regex : regex :=
  lit_then (chars "only ")
    (Seq (Repeat QPlus true (Class false [CEsc Digit])) (word_regex (chars " left"))).

(** [\b(...)\b]. *)
Definition bounded (r : regex) : regex :=
  Seq WordBoundary (Seq (Group 1 r) WordBoundary).

Definition boundary (prev : option ascii) (rt : list ascii) : bool :=
  xorb (word_before (around prev rt)) (word_after (around prev rt)).

End PageText.

(** ** The marks of a size

  What the two patterns built from a size look for, said on the text of
  the page, and the patterns themselves as [new RegExp] reads them when
  the size holds no syntax character. *)

Module VariantText.
Import Str Regex RegexSpec RegexSem PageText.

(** The units that are syntax in a pattern, a closing bracket or brace
    apart (on their own these stand for themselves). *)
Definition syntax_characters : list ascii := chars "\^$.*+?()[{|".

Definition plain (c : ascii) : bool :=
  negb (existsb (Ascii.eqb c) syntax_characters).

(** A text that holds no syntax character. *)
Definition plain_text (s : string) : bool := forallb plain (chars s).

Definition sizeMarkers : list string :=
  [ "out of stock"; "sold out"; "unavailable"; "disabled" ].

Definition is_quote (c : ascii) : bool := Ascii.eqb c dqc || Ascii.eqb c "'".

Definition none_is (c : ascii) (l : list ascii) : Prop :=
  Forall (fun a => a <> c) l.

(** The page holds the size and then, with no [<] in between, one of
    the markers; letter case aside. *)
Definition size_marked (size html : string) : Prop :=
  exists pre v mid p post w,
    chars html = (pre ++ v ++ mid ++ p ++ post)%list
    /\ same_letters flag_i v (chars size)
    /\ none_is "<" mid
    /\ In w sizeMarkers /\ same_letters flag_i p (chars w).

(** [class="... disabled ..."]. *)
Definition class_disabled (p : list ascii) : Prop :=
  exists c x d y,
    p = (c ++ x ++ d ++ y ++ [dqc])%list
    /\ same_letters flag_i c (chars "class=" ++ [dqc])
    /\ none_is dqc x
    /\ same_letters flag_i d (chars "disabled")
    /\ none_is dqc y.

(** The page holds [data-size=] and the size in quotes and then, with
    no [>] in between, [disabled] or a class that holds it. *)
Definition size_button_disabled (size html : string) : Prop :=
  exists pre a q1 v q2 mid p post,
    chars html = (pre ++ a ++ [q1] ++ v ++ [q2] ++ mid ++ p ++ post)%list
    /\ same_letters flag_i a (chars "data-size=")
    /\ is_quote q1 = true
    /\ same_letters flag_i v (chars size)
    /\ is_quote q2 = true
    /\ none_is ">" mid
    /\ (same_letters flag_i p (chars "disabled") \/ class_disabled p).

Definition quotes : regex := Class false [CChar dqc; CChar "'"].

Definition none_of (c : ascii) : regex := Repeat QStar true (Class true [CChar c]).

(** The two patterns built from a size that holds no syntax character. *)
Definition sizeUnavailablePattern (size : string) : regex :=
  lit_then (chars size)
    (Seq (Repeat QStar false (Class true [CChar "<"]))
       (Group 1 (alternatives (map (fun w => word_regex (chars w)) sizeMarkers)))).

Definition sizeButtonPattern (size : string) : regex :=
  lit_then (chars "data-size=")
    (Seq quotes
       (lit_then (chars size)
          (Seq quotes
             (Seq (none_of ">")
                (Group 1
                   (Alt (word_regex (chars "disabled"))
                      (lit_then (chars "class=" ++ [dqc])
                         (Seq (none_of dqc)
                            (lit_then (chars "disabled")
                               (Seq (none_of dqc) (Char dqc))))))))))).

(** One step of the folding of the terms of a sequence by [compile]. *)
Definition seq_step (acc t : regex) : regex :=
  match acc with Empty => t | _ => Seq t acc end.

End VariantText.

(** ** Positions of the matcher *)

Module Run.
Import Str Regex RegexSpec RegexSem.

(** The state of the matcher once it has read [u] from [x], with [rt]
    left to read. *)
Definition moved (x : mstate) (u rt : list ascii) : mstate :=
  {| m_prev := after (m_prev x) u; m_pos := List.length u + m_pos x;
     m_rest := rt; m_caps := m_caps x |}.

(** The state in which a match is tried after [pre]. *)
Definition start_at (prev : option ascii) (pos : nat) (pre rt : list ascii) : mstate :=
  {| m_prev := after prev pre; m_pos := pos + List.length pre; m_rest := rt;
     m_caps := [] |}.

(** The units a class reads. *)
Definition accepts (fl : flags) (neg : bool) (items : list class_item) (a : ascii)
    : bool :=
  xorb neg (class_mem fl items a).

(** A run of units that [p] accepts ends before [rt]. *)
Definition stops (p : ascii -> bool) (rt : list ascii) : Prop :=
  match rt with [] => True | c :: _ => p c = false end.

End Run.

(** ** The braces of an answer *)

Module AnswerText.
Import Str Regex RegexSpec.

(** The text holds an opening brace and, further on, a closing one. *)
Definition has_braces (text : string) : Prop :=
  exists pre mid post, chars text = (pre ++ "{"%char :: mid ++ "}"%char :: post)%list.

End AnswerText.

(** ** The keys of the cache and what stands under them *)

Module ServiceSpec.
Import Str AIVision Cache Service.

(** The keys of the two operations. *)
Definition stock_key (key : string) : Prop :=
  exists variant screenshot, key = getCacheKey ("stock-" ++ variant) screenshot.

Definition variants_key (key : string) : Prop :=
  exists screenshot, key = getCacheKey "variants" screenshot.

(** Every entry holds the kind of result of the operation its key is
    of. *)
Definition sorted (cache : gmap string (entry Cached)) : Prop :=
  forall key e, cache !! key = Some e ->
    match result e with
    | StockResult _ => stock_key key
    | VariantsResult _ => variants_key key
    end.

(** Two screenshots that differ after their first 100 units. *)
Definition screenshot_a : string := spaces 100 ++ "a".
Definition screenshot_b : string := spaces 100 ++ "b".

(** A well-formed answer that says [few_left]. *)
Definition answer_few_left : Message := [TextBlock ("{" ++ Answers.answer_body ++ "}")].

Definition clock_at (t : Z) : Clock := {| atGet := t; atSet := t; atSweep := t |}.

End ServiceSpec.

(** * Properties *)

(** ** The pattern literals are well formed

  Each pattern written as a literal in the source is the reading, by
  [compile], of its text. *)

Module Literals.
Import Str Regex Syntax RegexSpec.

Lemma compile_sizePattern :
  compile "Size:\s*([^,]+)" = Pattern StockChecker.sizePattern.
Proof. vm_compute. reflexivity. Qed.

Lemma compile_colorPattern :
  compile "Color:\s*([^,]+)" = Pattern StockChecker.colorPattern.
Proof. vm_compute. reflexivity. Qed.

Lemma compile_disabledPattern :
  compile StockChecker.disabledPattern_src = Pattern StockChecker.disabledPattern.
Proof. vm_compute. reflexivity. Qed.

Lemma compile_outOfStockPattern :
  compile "\b(out of stock|sold out|currently unavailable|not available|unavailable)\b"
  = Pattern StockChecker.outOfStockPattern.
Proof. vm_compute. reflexivity. Qed.

Lemma compile_lowStockPattern :
  compile "\b(low stock|few left|limited stock|only \d+ left)\b"
  = Pattern StockChecker.lowStockPattern.
Proof. vm_compute. reflexivity. Qed.

Lemma compile_jsonLdPattern :
  compile StockChecker.jsonLdPattern_src = Pattern StockChecker.jsonLdPattern.
Proof. vm_compute. reflexivity. Qed.

Lemma compile_jsonPattern :
  compile "\{[\s\S]*\}" = Pattern AIVision.jsonPattern.
Proof. vm_compute. reflexivity. Qed.

Lemma compile_legacy_disabled :
  compile Legacy.hasDisabledAttr_src = Pattern Legacy.hasDisabledAttr
  /\ compile (Legacy.classWith_src "disabled") = Pattern Legacy.hasDisabledClass
  /\ compile (Legacy.classWith_src "inactive") = Pattern Legacy.hasInactiveClass.
Proof. vm_compute. repeat split. Qed.

Lemma compile_legacy_phrases :
  forallb (fun src => is_pattern (compile src))
    [ "\bout of stock\b"; "\bsold out\b"; "\bcurrently unavailable\b";
      "\bno longer available\b"; "\btemporarily out of stock\b";
      "\bnot available\b"; "\bitem is no longer available\b";
      "\bthis item is unavailable\b"; "only \d+ left"; "\blow stock\b";
      "\bfew left\b"; "\blimited stock\b"; "\balmost gone\b";
      "button--disabled|z-button--disabled|is-disabled" ] = true.
Proof. vm_compute. reflexivity. Qed.

End Literals.

(** ** The built-ins on known inputs

    The matcher, the reader of patterns and the JSON parser, run on
    inputs whose results the language standard or common use make known. *)

Module Checks.
Import Str Regex Syntax Probes.

(** The choice points are tried from the left, and a group of a round
    that did not take part in the match is undefined. *)
Lemma alternatives_in_order :
  groups_of no_flags "((a)|(ab))((c)|(bc))" "abc" 6
  = Some [Some "abc"; Some "a"; Some "a"; None; Some "bc"; None; Some "bc"].
Proof. vm_compute. reflexivity. Qed.

Lemma captures_reset_each_round :
  groups_of no_flags "(z)((a+)?(b+)?(c))*" "zaacbbbcac" 5
  = Some [Some "zaacbbbcac"; Some "z"; Some "ac"; Some "a"; None; Some "c"].
Proof. vm_compute. reflexivity. Qed.

Lemma empty_round_refused :
  groups_of no_flags "(a*)*" "b" 1 = Some [Some ""; None].
Proof. vm_compute. reflexivity. Qed.

Lemma greedy_and_lazy :
  groups_of no_flags "<(.+)>" "<a><b>" 1 = Some [Some "<a><b>"; Some "a><b"]
  /\ groups_of no_flags "<(.+?)>" "<a><b>" 1 = Some [Some "<a>"; Some "a"]
  /\ groups_of no_flags "a??b" "ab" 0 = Some [Some "ab"].
Proof. vm_compute. repeat split. Qed.

Lemma case_and_boundaries :
  groups_of flag_i "\bsold out\b" "Resold out" 0 = None
  /\ groups_of flag_i "\bsold out\b" "It is SOLD OUT." 0 = Some [Some "SOLD OUT"]
  /\ groups_of no_flags "sold out" "SOLD OUT" 0 = None
  /\ groups_of flag_i "[^a-c]x" "Bx-x" 0 = Some [Some "-x"]
  /\ groups_of flag_m "disabled$" ("a disabled" ++ String (ascii_of_N 10) "b") 0
     = Some [Some "disabled"]
  /\ groups_of no_flags "disabled$" ("a disabled" ++ String (ascii_of_N 10) "b") 0
     = None.
Proof. vm_compute. repeat split. Qed.

Lemma pattern_texts :
  compile "a**" = SyntaxError
  /\ compile "a|*" = SyntaxError
  /\ compile "^*" = SyntaxError
  /\ compile "(a" = SyntaxError
  /\ compile "a)" = SyntaxError
  /\ compile "[b-a]" = SyntaxError
  /\ compile "[a" = SyntaxError
  /\ compile "a\" = SyntaxError
  /\ compile "a]b}" = Pattern (Seq (Char "a") (Seq (Char "]") (Seq (Char "b") (Char "}"))))
  /\ compile "[]-a]" = Pattern (Seq (Class false []) (Seq (Char "-") (Seq (Char "a") (Char "]"))))
  /\ compile "[+--]" = Pattern (Class false [CRange "+" "-"])
  /\ compile "[a-\d]" = Pattern (Class false [CChar "a"; CChar "-"; CEsc Digit])
  /\ compile "a{2}" = Unsupported
  /\ compile "(a)\1" = Unsupported
  /\ compile "a(?=b)" = Unsupported.
Proof. vm_compute. repeat split. Qed.

Lemma string_built_ins :
  indexOf "Add to cart, add to cart" "add to cart" = 13
  /\ indexOf "buy now" "add to cart" = -1
  /\ substring "abcdef" (-3) 2 = "ab"
  /\ substring "abcdef" 4 2 = "cd"
  /\ substring "abcdef" 2 100 = "cdef"
  /\ trim ("  M " ++ String (ascii_of_N 9) "") = "M"
  /\ toLowerCase "Add To CART" = "add to cart".
Proof. vm_compute. repeat split. Qed.

Lemma json_texts :
  Json.parse "" = None
  /\ Json.parse "{" = None
  /\ Json.parse "[1,]" = None
  /\ Json.parse "{'a':1}" = None
  /\ Json.parse "01" = None
  /\ Json.parse "1." = None
  /\ Json.parse "tru" = None
  /\ Json.parse "null x" = None
  /\ Json.parse " [ ] " = Some (Json.JArray [])
  /\ Json.parse "[true,false,null]"
     = Some (Json.JArray [Json.JBool true; Json.JBool false; Json.JNull])
  /\ Json.parse "-12.50e+1"
     = Some (Json.JNumber {| Json.negative := true; Json.mantissa := 1250;
                             Json.exponent := -1 |})
  /\ text_of (Json.parse (dq ++ "aA\n\/" ++ dq))
     = Some ("aA" ++ String (ascii_of_N 10) "/")
  /\ Json.truthy (Json.parse "0.0") = false
  /\ Json.truthy (Json.parse "1e-400") = false
  /\ Json.truthy (Json.parse "5e-324") = true
  /\ Json.truthy (Json.parse (dq ++ dq)) = false
  /\ Json.truthy (Json.parse "[]") = true.
Proof. vm_compute. repeat split. Qed.

End Checks.

(** ** What a match of a pattern reads

  Every success of the matcher reads a text of the pattern and then
  succeeds in its continuation. *)

Module RegexFacts.
Import Str Regex RegexSpec.

Lemma or_else_Some a b z :
  or_else a b = Some z -> a = Some z \/ (a = None /\ b tt = Some z).
Proof. destruct a; simpl; intros H; [left | right]; auto. Qed.

Lemma step_reads p k x z :
  step p k x = Some z ->
  reads (fun u => exists a, u = [a] /\ p a = true) k x z.
Proof.
  unfold step. destruct (m_rest x) as [|c rest] eqn:Hrest; [discriminate|].
  destruct (p c) eqn:Hp; [|discriminate]. intros Hk.
  exists [c]. eexists. repeat split; [| | | exact Hk]; simpl.
  - exact Hrest.
  - lia.
  - exists c. auto.
Qed.

Section LoopSound.
Variable body : cont -> mstate -> option mstate.
Variable L : list ascii -> Prop.
Variable gs : list nat.
Variable greedy : bool.
Variable k : cont.
Hypothesis body_reads : forall k x z, body k x = Some z -> reads L k x z.

Lemma round_reads next x z :
    round body gs next x = Some z -> reads L next x z.
  Proof.
    unfold round. intros H. apply body_reads in H.
    destruct H as (u & y & Hrest & Hpos & Hu & Hk).
    simpl in Hk, Hrest, Hpos.
    destruct (Nat.eqb (m_pos y) (m_pos x)); [discriminate|].
    exists u, y. auto.
  Qed.

Lemma loop_reads fuel :
    forall x z, loop body gs greedy k fuel x = Some z ->
    reads (fun u => exists us, u = concat us /\ Forall L us) k x z.
  Proof.
    assert (Hstop : forall x z, k x = Some z ->
              reads (fun u => exists us, u = concat us /\ Forall L us) k x z).
    { intros x z Hk. exists [], x. repeat split; auto.
      exists []. split; [reflexivity | constructor]. }
    assert (Hmore : forall next x z,
              (forall y, next y = Some z ->
                 reads (fun u => exists us, u = concat us /\ Forall L us) k y z) ->
              round body gs next x = Some z ->
              reads (fun u => exists us, u = concat us /\ Forall L us) k x z).
    { intros next x z Hnext H. apply round_reads in H.
      destruct H as (u & y & Hrest & Hpos & Hu & Hk).
      apply Hnext in Hk. destruct Hk as (u' & y' & Hrest' & Hpos' & (us & -> & Hus) & Hk').
      exists (u ++ concat us)%list, y'. repeat split; auto.
      - rewrite Hrest, Hrest'. rewrite <- app_assoc. reflexivity.
      - rewrite Hpos', Hpos. rewrite length_app. lia.
      - exists (u :: us). split; [reflexivity | constructor; auto]. }
    induction fuel as [|fuel IH]; intros x z; simpl.
    - apply Hstop.
    - destruct greedy; intros H; apply or_else_Some in H;
        destruct H as [H | [_ H]]; eauto.
  Qed.
End LoopSound.

Lemma m_reads fl r : forall k x z, m fl r k x = Some z -> reads (lang fl r) k x z.
Proof.
  induction r as [ |c| |neg items|r1 IH1 r2 IH2|r1 IH1 r2 IH2|q g r1 IH1|i r1 IH1| | | | ];
    intros k x z H; simpl in H.
  - exists [], x. repeat split; auto.
  - apply step_reads in H. destruct H as (u & y & ? & ? & (a & -> & Ha) & ?).
    exists [a], y. repeat split; auto. exists a. split; auto.
    apply Ascii.eqb_eq. exact Ha.
  - apply step_reads in H. destruct H as (u & y & ? & ? & (a & -> & Ha) & ?).
    exists [a], y. repeat split; auto. exists a. split; auto.
    apply negb_true_iff. exact Ha.
  - apply step_reads in H. destruct H as (u & y & ? & ? & (a & -> & Ha) & ?).
    exists [a], y. repeat split; auto. exists a. auto.
  - apply IH1 in H. destruct H as (u1 & y1 & Hr1 & Hp1 & Hu1 & H).
    apply IH2 in H. destruct H as (u2 & y2 & Hr2 & Hp2 & Hu2 & H).
    exists (u1 ++ u2)%list, y2. repeat split; auto.
    + rewrite Hr1, Hr2, <- app_assoc. reflexivity.
    + rewrite Hp2, Hp1, length_app. lia.
    + simpl. exists u1, u2. auto.
  - apply or_else_Some in H. destruct H as [H | [_ H]].
    + apply IH1 in H. destruct H as (u & y & ? & ? & ? & ?).
      exists u, y. repeat split; auto. simpl. auto.
    + apply IH2 in H. destruct H as (u & y & ? & ? & ? & ?).
      exists u, y. repeat split; auto. simpl. auto.
  - assert (Hloop : forall fuel x z,
              loop (m fl r1) (groups r1) g k fuel x = Some z ->
              reads (lang fl (Repeat q g r1)) k x z).
    { intros fuel x' z' H'. apply (loop_reads _ _ _ _ _ IH1) in H'. exact H'. }
    destruct q.
    + eapply Hloop; eauto.
    + apply IH1 in H. destruct H as (u & y & Hr & Hp & Hu & H).
      apply Hloop in H. destruct H as (u' & y' & Hr' & Hp' & (us & -> & Hus) & H).
      exists (u ++ concat us)%list, y'. repeat split; auto.
      * simpl in Hr. rewrite Hr, Hr', <- app_assoc. reflexivity.
      * simpl in Hp. rewrite Hp', Hp, length_app. lia.
      * simpl. exists (u :: us). split; [reflexivity | constructor; auto].
    + eapply Hloop; eauto.
  - apply IH1 in H. destruct H as (u & y & ? & ? & ? & ?).
    exists u. eexists. repeat split; [ | | | eassumption]; auto.
  - destruct (at_bol fl x); [|discriminate]. exists [], x. repeat split; auto.
  - destruct (at_eol fl x); [|discriminate]. exists [], x. repeat split; auto.
  - destruct (xorb _ _); [|discriminate]. exists [], x. repeat split; auto.
  - destruct (xorb _ _); [discriminate|]. exists [], x. repeat split; auto.
Qed.

Lemma m_from_continuation fl r k x z :
  m fl r k x = Some z -> exists y, k y = Some z.
Proof.
  intros H. apply m_reads in H. destruct H as (u & y & _ & _ & _ & H). eauto.
Qed.

(** A match found by [scan] starts somewhere in the text and reads a
    text of the pattern from there. *)
Lemma scan_Some fl r : forall rest prev pos f,
  scan fl r prev pos rest = Some f ->
  exists pre x z,
    rest = (pre ++ m_rest x)%list
    /\ m_pos x = (pos + List.length pre)%nat
    /\ m fl r Some x = Some z
    /\ f_start f = m_pos x /\ f_end f = m_pos z /\ f_caps f = m_caps z.
Proof.
  induction rest as [|c rest IH]; intros prev pos f; simpl;
    destruct (m fl r Some _) as [y|] eqn:Hm.
  - intros [= <-]. exists []. eexists. exists y. simpl.
    repeat split; [ | | exact Hm | ..]; simpl; auto.
  - discriminate.
  - intros [= <-]. exists []. eexists. exists y. simpl.
    repeat split; [ | | exact Hm | ..]; simpl; auto.
  - intros H. apply IH in H.
    destruct H as (pre & x & z & Hrest & Hpos & H & Hs & He & Hc).
    exists (c :: pre), x, z. simpl. repeat split; auto.
    + rewrite Hrest. reflexivity.
    + lia.
Qed.

Lemma exec_reads fl r s f :
  exec fl r s = Some f ->
  exists pre u post,
    chars s = (pre ++ u ++ post)%list /\ lang fl r u
    /\ f_start f = List.length pre
    /\ f_end f = (List.length pre + List.length u)%nat.
Proof.
  unfold exec. intros H. apply scan_Some in H.
  destruct H as (pre & x & z & Hrest & Hpos & H & Hs & He & _).
  apply m_reads in H. destruct H as (u & y & Hr & Hp & Hu & [= <-]).
  exists pre, u, (m_rest y). repeat split; auto.
  - rewrite Hrest, Hr. reflexivity.
  - lia.
  - lia.
Qed.

Lemma test_reads fl r s :
  test fl r s = true ->
  exists pre u post, chars s = (pre ++ u ++ post)%list /\ lang fl r u.
Proof.
  unfold test. destruct (exec fl r s) as [f|] eqn:H; [|discriminate].
  intros _. apply exec_reads in H. destruct H as (pre & u & post & ? & ? & _).
  eauto.
Qed.

Lemma spells_holds fl : forall w r u,
  spells w r = true -> lang fl r u ->
  exists v post, u = (v ++ post)%list /\ same_letters fl v w.
Proof.
  induction w as [|c w IH]; intros r u Hs Hl.
  - exists [], u. split; [reflexivity | constructor].
  - simpl in Hs. destruct r; try discriminate.
    + apply andb_prop in Hs. destruct Hs as [Hc Hw].
      apply Ascii.eqb_eq in Hc. subst c0. destruct w; [|discriminate].
      destruct Hl as (a & -> & Ha). exists [a], []. split; [reflexivity|].
      constructor; [exact Ha | constructor].
    + destruct r1; try discriminate.
      apply andb_prop in Hs. destruct Hs as [Hc Hw].
      apply Ascii.eqb_eq in Hc. subst c0.
      destruct Hl as (u1 & u2 & -> & (a & -> & Ha) & Hl2).
      destruct (IH _ _ Hw Hl2) as (v & post & -> & Hv).
      exists (a :: v), post. split; [reflexivity|]. constructor; auto.
Qed.

Lemma mentions_holds fl w : forall r u,
  mentions w r = true -> lang fl r u -> holds fl w u.
Proof.
  assert (Hsp : forall r u, spells w r = true -> lang fl r u -> holds fl w u).
  { intros r u Hs Hl. destruct (spells_holds fl w r u Hs Hl) as (v & post & -> & Hv).
    exists [], v, post. auto. }
  induction r as [ |c| |neg items|r1 IH1 r2 IH2|r1 IH1 r2 IH2|q g r1 IH1|i r1 IH1| | | | ];
    intros u Hm Hl; simpl in Hm; apply orb_prop in Hm;
    destruct Hm as [Hm | Hm]; eauto; try discriminate.
  - destruct Hl as (u1 & u2 & -> & Hl1 & Hl2).
    destruct (IH2 _ Hm Hl2) as (pre & v & post & -> & Hv).
    exists (u1 ++ pre)%list, v, post. rewrite <- app_assoc. auto.
  - apply andb_prop in Hm. destruct Hm as [Hm1 Hm2].
    destruct Hl as [Hl | Hl]; eauto.
Qed.

Lemma test_holds fl r w s :
  mentions w r = true -> test fl r s = true -> holds fl w (chars s).
Proof.
  intros Hm Ht. apply test_reads in Ht. destruct Ht as (pre & u & post & Hs & Hl).
  destruct (mentions_holds fl w r u Hm Hl) as (p1 & v & p2 & -> & Hv).
  exists (pre ++ p1)%list, v, (p2 ++ post)%list. split; [|exact Hv].
  rewrite Hs. repeat rewrite <- app_assoc. reflexivity.
Qed.

Lemma ends_with_group_captured fl i : forall r x z,
  ends_with_group i r = true -> m fl r Some x = Some z ->
  exists p, lookup_cap i (m_caps z) = Some p.
Proof.
  induction r; intros x z He Hm; simpl in He; try discriminate.
  - simpl in Hm. apply m_from_continuation in Hm. destruct Hm as (y & Hm). eauto.
  - simpl in Hm. apply m_from_continuation in Hm. destruct Hm as (y & [= <-]).
    simpl. rewrite He. eauto.
Qed.

Lemma capture_defined fl i r s f :
  ends_with_group i r = true -> exec fl r s = Some f ->
  exists v, capture s f i = Some v.
Proof.
  intros He H. unfold exec in H. apply scan_Some in H.
  destruct H as (pre & x & z & _ & _ & H & _ & _ & Hc).
  destruct (ends_with_group_captured fl i r x z He H) as ((from, to) & Hl).
  unfold capture. rewrite Hc, Hl. eauto.
Qed.

(** *** The bound on the rounds of a quantifier is never met

    The matcher calls its continuation only on states further in the
    text; a round of a quantifier must read something; so the rounds left
    to a quantifier never outnumber the units left, and [loop] gives the
    same answer with any bound that is at least the number of units left. *)

Lemma reach_refl x : reach x x.
Proof. exists []. simpl. split; [reflexivity | lia]. Qed.

Lemma reach_trans x y z : reach x y -> reach y z -> reach x z.
Proof.
  intros (u & Hr & Hp) (v & Hr' & Hp'). exists (u ++ v)%list.
  rewrite Hr, Hr', Hp', Hp, length_app, <- app_assoc. split; [reflexivity | lia].
Qed.

Lemma reach_same_pos x y :
  reach x y -> m_pos y = m_pos x -> m_rest y = m_rest x.
Proof.
  intros (u & Hr & Hp) He. destruct u; [symmetry; exact Hr | simpl in Hp; lia].
Qed.

Lemma reach_shorter x y :
  reach x y -> m_pos y <> m_pos x ->
  (List.length (m_rest y) < List.length (m_rest x))%nat.
Proof.
  intros (u & Hr & Hp) Hne. rewrite Hr, length_app.
  destruct u; simpl in *; lia.
Qed.

Lemma step_extensional p : extensional (step p).
Proof.
  intros k k' x H. unfold step. destruct (m_rest x) as [|c rest] eqn:E; [reflexivity|].
  destruct (p c); [|reflexivity]. apply H. exists [c]. simpl. rewrite E.
  split; [reflexivity | lia].
Qed.

Lemma or_else_ext a a' b b' :
  a = a' -> b tt = b' tt -> or_else a b = or_else a' b'.
Proof. intros -> H. destruct a'; simpl; auto. Qed.

Lemma reach_clear gs x y : reach (clear_caps gs x) y <-> reach x y.
Proof. unfold reach. simpl. tauto. Qed.

Section Rounds.
Variable body : cont -> mstate -> option mstate.
Variable gs : list nat.
Variable greedy : bool.
Hypothesis body_ext : extensional body.
Hypothesis body_from_k : forall k x z, body k x = Some z -> exists y, k y = Some z.

Lemma round_extensional next next' x :
  (forall y, reach x y -> m_pos y <> m_pos x -> next y = next' y) ->
  round body gs next x = round body gs next' x.
Proof.
  intros H. unfold round. apply body_ext. intros y Hy.
  destruct (Nat.eqb (m_pos y) (m_pos x)) eqn:E; [reflexivity|].
  apply Nat.eqb_neq in E. apply H; [apply reach_clear in Hy; exact Hy | exact E].
Qed.

Lemma loop_extensional fuel : forall k k' x,
  (forall y, reach x y -> k y = k' y) ->
  loop body gs greedy k fuel x = loop body gs greedy k' fuel x.
Proof.
  induction fuel as [|fuel IH]; intros k k' x H; simpl.
  - apply H, reach_refl.
  - assert (Hr : round body gs (loop body gs greedy k fuel) x
                 = round body gs (loop body gs greedy k' fuel) x).
    { apply round_extensional. intros y Hy _. apply IH.
      intros z Hz. apply H. eapply reach_trans; eauto. }
    destruct greedy; apply or_else_ext; auto; apply H, reach_refl.
Qed.

(** At the end of the text no round can read anything. *)
Lemma round_at_end next x : m_rest x = [] -> round body gs next x = None.
Proof.
  intros He. unfold round.
  destruct (body _ (clear_caps gs x)) as [z|] eqn:E; [|reflexivity].
  rewrite (body_ext _ (fun _ => None)) in E.
  - apply body_from_k in E. destruct E as (y & E). discriminate E.
  - intros y Hy. apply reach_clear in Hy.
    destruct (Nat.eqb (m_pos y) (m_pos x)) eqn:Hp; [reflexivity|].
    apply Nat.eqb_neq in Hp. apply reach_shorter in Hy; [|exact Hp].
    rewrite He in Hy. simpl in Hy. lia.
Qed.

Lemma loop_at_end k fuel x : m_rest x = [] -> loop body gs greedy k fuel x = k x.
Proof.
  intros He. destruct fuel as [|fuel]; simpl; [reflexivity|].
  rewrite (round_at_end _ x He). destruct greedy; simpl; [reflexivity|].
  destruct (k x); reflexivity.
Qed.

Lemma loop_fuel_enough k : forall bound x fuel fuel',
  (List.length (m_rest x) <= bound)%nat ->
  (List.length (m_rest x) <= fuel)%nat ->
  (List.length (m_rest x) <= fuel')%nat ->
  loop body gs greedy k fuel x = loop body gs greedy k fuel' x.
Proof.
  induction bound as [|bound IH]; intros x fuel fuel' Hb Hf Hf'.
  - assert (He : m_rest x = []) by (destruct (m_rest x); [reflexivity | simpl in Hb; lia]).
    rewrite !loop_at_end by exact He. reflexivity.
  - destruct (m_rest x) as [|c rest] eqn:He.
    + rewrite !loop_at_end by exact He. reflexivity.
    + simpl in Hb, Hf, Hf'.
      destruct fuel as [|fuel]; [lia|]. destruct fuel' as [|fuel']; [lia|]. simpl.
      assert (Hr : round body gs (loop body gs greedy k fuel) x
                   = round body gs (loop body gs greedy k fuel') x).
      { apply round_extensional. intros y Hy Hp.
        apply reach_shorter in Hy; [|exact Hp]. rewrite He in Hy. simpl in Hy.
        apply IH; lia. }
      rewrite Hr. reflexivity.
Qed.
End Rounds.

Lemma m_extensional fl r : extensional (m fl r).
Proof.
  induction r as [ |c| |neg items|r1 IH1 r2 IH2|r1 IH1 r2 IH2|q g r1 IH1|i r1 IH1| | | | ];
    intros k k' x H; simpl;
    try (apply step_extensional; exact H);
    try (rewrite (H x (reach_refl x)); reflexivity).
  - apply IH1. intros y Hy. apply IH2. intros z Hz. apply H.
    eapply reach_trans; eauto.
  - apply or_else_ext; [apply IH1 | apply IH2]; exact H.
  - destruct q.
    + apply loop_extensional; assumption.
    + apply IH1. intros y Hy. apply loop_extensional; [assumption|].
      intros z Hz. apply H. apply reach_clear in Hy. eapply reach_trans; eauto.
    + apply loop_extensional; assumption.
  - apply IH1. intros y Hy. apply H.
    destruct Hy as (u & Hr & Hp). exists u. simpl. auto.
Qed.

(** [*]: any bound at least the number of units left gives what the
    matcher gives. *)
Lemma star_fuel_enough fl g r k x fuel :
  (List.length (m_rest x) <= fuel)%nat ->
  loop (m fl r) (groups r) g k fuel x = m fl (Repeat QStar g r) k x.
Proof.
  intros H. simpl.
  apply (loop_fuel_enough _ _ _ (m_extensional fl r)
           (fun k x z => m_from_continuation fl r k x z) k
           (List.length (m_rest x))); auto.
Qed.

End RegexFacts.

(** ** Facts on the string primitives *)

Module StrFacts.
Import Str StrSpec.

Lemma chars_str l : chars (str l) = l.
Proof. apply list_ascii_of_string_of_list_ascii. Qed.

Lemma str_chars s : str (chars s) = s.
Proof. apply string_of_list_ascii_of_string. Qed.

Lemma starts_with_app w : forall post, starts_with w (w ++ post)%list = true.
Proof.
  induction w as [|c w IH]; intros post; simpl; [reflexivity|].
  rewrite Ascii.eqb_refl. apply IH.
Qed.

Lemma starts_with_split w : forall s,
  starts_with w s = true -> exists post, s = (w ++ post)%list.
Proof.
  induction w as [|c w IH]; intros s H; simpl in *.
  - exists s. reflexivity.
  - destruct s as [|b s]; [discriminate|].
    apply andb_prop in H. destruct H as [Hc H].
    apply Ascii.eqb_eq in Hc. subst b.
    destruct (IH _ H) as (post & ->). exists post. reflexivity.
Qed.

Lemma occurrences_from_complete w : forall pre post i,
  In (i + Z.of_nat (List.length pre))
     (occurrences_from w (pre ++ w ++ post)%list i).
Proof.
  induction pre as [|c pre IH]; intros post i.
  - simpl List.length. rewrite Z.add_0_r. simpl app.
    destruct (w ++ post)%list eqn:E; simpl; rewrite <- ?E;
      rewrite starts_with_app; simpl; auto.
  - simpl app. simpl occurrences_from. apply in_or_app. right.
    replace (i + Z.of_nat (List.length (c :: pre)))
      with ((i + 1) + Z.of_nat (List.length pre)).
    + apply IH.
    + simpl List.length. lia.
Qed.

Lemma occurs_at_listed w s p : occurs_at w s p -> In p (occurrences w s).
Proof.
  intros (pre & post & Hs & <-). unfold occurrences. rewrite Hs.
  apply (occurrences_from_complete (chars w) pre post 0).
Qed.

(** [indexOf] finds an occurrence, and [includes] says there is one. *)
Lemma index_from_found w : forall s i,
  index_from w s i <> -1 -> 0 <= i ->
  exists pre post,
    s = (pre ++ w ++ post)%list
    /\ index_from w s i = i + Z.of_nat (List.length pre).
Proof.
  induction s as [|c s IH]; intros i H Hi; simpl in *.
  - destruct (starts_with w []) eqn:E; [|congruence].
    apply starts_with_split in E. destruct E as (post & E).
    exists [], post. simpl. split; [exact E | lia].
  - destruct (starts_with w (c :: s)) eqn:E.
    + apply starts_with_split in E. destruct E as (post & E).
      exists [], post. simpl. split; [exact E | lia].
    + destruct (IH (i + 1) H ltac:(lia)) as (pre & post & -> & Hidx).
      exists (c :: pre), post. split; [reflexivity|].
      rewrite Hidx. simpl List.length. lia.
Qed.

Lemma index_from_range w : forall s i,
  0 <= i -> index_from w s i = -1 \/
            (i <= index_from w s i
             /\ index_from w s i <= i + Z.of_nat (List.length s)).
Proof.
  induction s as [|c s IH]; intros i Hi; simpl.
  - destruct (starts_with w []); [right; lia | left; reflexivity].
  - destruct (starts_with w (c :: s)); [right; lia|].
    destruct (IH (i + 1) ltac:(lia)) as [H | H]; [left; exact H | right; lia].
Qed.

Lemma includes_indexOf s w :
  includes s w = true ->
  0 <= indexOf s w <= length s /\ occurs_at w s (indexOf s w).
Proof.
  unfold includes, indexOf, length. intros H.
  apply negb_true_iff, Z.eqb_neq in H. split.
  - destruct (index_from_range (chars w) (chars s) 0 ltac:(lia)) as [E | E];
      [congruence | lia].
  - destruct (index_from_found (chars w) (chars s) 0 H ltac:(lia))
      as (pre & post & Hs & Hidx).
    exists pre, post. split; [exact Hs | lia].
Qed.

(** An occurrence inside a substring is an occurrence in the string, and
    lies between the two ends. *)
Lemma substring_occurs w s a b j :
  0 <= a -> a <= b -> b <= length s ->
  occurs_at w (substring s a b) j ->
  occurs_at w s (a + j) /\ a + j + length w <= b.
Proof.
  intros Ha Hab Hb (pre & post & Hs & <-).
  unfold substring, clamp in Hs. rewrite chars_str in Hs.
  replace (Z.max 0 (Z.min a (length s))) with a in Hs by lia.
  replace (Z.max 0 (Z.min b (length s))) with b in Hs by lia.
  replace (Z.min a b) with a in Hs by lia.
  replace (Z.max a b) with b in Hs by lia.
  unfold slice in Hs. unfold length in *.
  set (l := chars s) in *.
  assert (Hl : l = (firstn (Z.to_nat a) l ++ pre ++ chars w ++ post
                    ++ skipn (Z.to_nat (b - a)) (skipn (Z.to_nat a) l))%list).
  { rewrite <- (firstn_skipn (Z.to_nat a) l) at 1. f_equal.
    rewrite <- (firstn_skipn (Z.to_nat (b - a)) (skipn (Z.to_nat a) l)) at 1.
    rewrite Hs. repeat rewrite <- app_assoc. reflexivity. }
  assert (Hlen : List.length (firstn (Z.to_nat a) l) = Z.to_nat a).
  { apply firstn_length_le. lia. }
  split.
  - exists (firstn (Z.to_nat a) l ++ pre)%list. eexists. split.
    + rewrite <- app_assoc. exact Hl.
    + rewrite length_app, Hlen. lia.
  - assert (Hn : (List.length (pre ++ chars w ++ post)%list <= Z.to_nat (b - a))%nat).
    { rewrite <- Hs. apply firstn_le_length. }
    repeat rewrite length_app in Hn. lia.
Qed.

Lemma lower_char_no_capital c : between 65 90 (lower_char c) = false.
Proof. destruct c as [[] [] [] [] [] [] [] []]; vm_compute; reflexivity. Qed.

Lemma toLowerCase_no_capital s : no_capital (chars (toLowerCase s)).
Proof.
  unfold toLowerCase, no_capital. rewrite chars_str.
  apply List.Forall_map, List.Forall_forall. intros c _. apply lower_char_no_capital.
Qed.

Lemma no_capital_app l1 l2 : no_capital (l1 ++ l2)%list -> no_capital l1 /\ no_capital l2.
Proof. unfold no_capital. apply List.Forall_app. Qed.

Lemma substring_no_capital s a b :
  no_capital (chars s) -> no_capital (chars (substring s a b)).
Proof.
  unfold substring, slice, no_capital. rewrite chars_str. intros H.
  rewrite List.Forall_forall in *. intros c Hc. apply H.
  match type of Hc with In _ (firstn ?n (skipn ?k ?l)) =>
    rewrite <- (firstn_skipn k l); apply in_or_app; right;
    rewrite <- (firstn_skipn n (skipn k l)); apply in_or_app; left; exact Hc
  end.
Qed.

Lemma all_ascii_complete a : In a all_ascii.
Proof.
  unfold all_ascii. rewrite <- (ascii_nat_embedding a).
  apply in_map, in_seq. pose proof (nat_ascii_bounded a). lia.
Qed.

Lemma for_all_pairs_spec P :
  for_all_pairs P = true -> forall a c, P a c = true.
Proof.
  unfold for_all_pairs. intros H a c.
  rewrite forallb_forall in H. specialize (H a (all_ascii_complete a)).
  rewrite forallb_forall in H. apply H, all_ascii_complete.
Qed.

(** With the flag [i], a unit that is no capital matches a small letter
    only when it is that letter. *)
Lemma upper_char_small a c :
  upper_char a = upper_char c -> between 65 90 a = false ->
  between 97 122 c = true -> a = c.
Proof.
  intros Hu Ha Hc.
  pose proof (for_all_pairs_spec
    (fun a c => implb (Ascii.eqb (upper_char a) (upper_char c)
                       && negb (between 65 90 a) && between 97 122 c)
                      (Ascii.eqb a c))
    ltac:(vm_compute; reflexivity) a c) as H.
  simpl in H. rewrite Hu, Ascii.eqb_refl, Ha, Hc in H. simpl in H.
  apply Ascii.eqb_eq. exact H.
Qed.

Lemma index_from_unfold w s i :
  index_from w s i =
  if starts_with w s then i
  else match s with [] => -1 | _ :: s' => index_from w s' (i + 1) end.
Proof. destruct s; reflexivity. Qed.

Lemma index_from_complete w : forall pre post i,
  0 <= i -> index_from w (pre ++ w ++ post)%list i <> -1.
Proof.
  induction pre as [|c pre IH]; intros post i Hi; rewrite index_from_unfold.
  - simpl app. rewrite starts_with_app. lia.
  - destruct (starts_with w _); [lia|]. simpl app. apply IH. lia.
Qed.

(** A string that holds [w] includes it. *)
Lemma includes_complete s w pre post :
  chars s = (pre ++ chars w ++ post)%list -> includes s w = true.
Proof.
  intros H. unfold includes, indexOf. rewrite H.
  apply negb_true_iff, Z.eqb_neq, index_from_complete. lia.
Qed.

(** Units that match with the flag [i] have the same lower case. *)
Lemma upper_char_lower a c :
  upper_char a = upper_char c -> lower_char a = lower_char c.
Proof.
  intros Hu.
  pose proof (for_all_pairs_spec
    (fun a c => implb (Ascii.eqb (upper_char a) (upper_char c))
                      (Ascii.eqb (lower_char a) (lower_char c)))
    ltac:(vm_compute; reflexivity) a c) as H.
  simpl in H. rewrite Hu, Ascii.eqb_refl in H. simpl in H.
  apply Ascii.eqb_eq. exact H.
Qed.

End StrFacts.

(** ** The matcher reads what the pattern means *)

Module RegexSemFacts.
Import Str Regex RegexSpec RegexFacts RegexSem.

Lemma after_app prev u v : after prev (u ++ v) = after (after prev u) v.
Proof. revert prev. induction u as [|c u IH]; intros prev; simpl; auto. Qed.

Lemma around_bol fl x : at_bol fl (around (m_prev x) (m_rest x)) = at_bol fl x.
Proof. reflexivity. Qed.

Lemma ok_or_else a b : ok (or_else a b) = ok a || ok (b tt).
Proof. destruct a; reflexivity. Qed.

Lemma step_reads_at p k x z :
  step p k x = Some z ->
  exists a y, m_rest x = a :: m_rest y /\ m_pos y = S (m_pos x)
              /\ m_prev y = Some a /\ p a = true /\ k y = Some z.
Proof.
  unfold step. destruct (m_rest x) as [|c rest] eqn:Hrest; [discriminate|].
  destruct (p c) eqn:Hp; [|discriminate]. intros Hk.
  exists c. eexists. repeat split; [| | | | exact Hk]; simpl; auto.
Qed.

Lemma loop_reads_at fl g r k :
  (forall k x z, m fl r k x = Some z -> reads_at fl r k x z) ->
  forall fuel x z,
    loop (m fl r) (groups r) g k fuel x = Some z ->
    reads_at fl (Repeat QStar g r) k x z.
Proof.
  intros IH.
  assert (Hstop : forall x z, k x = Some z -> reads_at fl (Repeat QStar g r) k x z).
  { intros x z Hk. exists [], x. repeat split; auto. constructor. }
  assert (Hmore : forall next x z,
            (forall y, next y = Some z -> reads_at fl (Repeat QStar g r) k y z) ->
            round (m fl r) (groups r) next x = Some z ->
            reads_at fl (Repeat QStar g r) k x z).
  { intros next x z Hnext H. unfold round in H. apply IH in H.
    destruct H as (u & y & Hrest & Hpos & Hprev & Hu & Hk).
    simpl in Hk, Hrest, Hpos, Hprev, Hu.
    destruct (Nat.eqb (m_pos y) (m_pos x)); [discriminate|].
    apply Hnext in Hk.
    destruct Hk as (u' & y' & Hrest' & Hpos' & Hprev' & Hu' & Hk').
    exists (u ++ u')%list, y'. repeat split; auto.
    - rewrite Hrest, Hrest', <- app_assoc. reflexivity.
    - rewrite Hpos', Hpos, length_app. lia.
    - rewrite Hprev', Hprev, after_app. reflexivity.
    - apply sem_star_more.
      + rewrite <- Hrest'. exact Hu.
      + rewrite <- Hprev. exact Hu'. }
  induction fuel as [|fuel IHf]; intros x z; simpl.
  - apply Hstop.
  - destruct g; intros H; apply or_else_Some in H;
      destruct H as [H | [_ H]]; eauto.
Qed.

(** Soundness: a success of the matcher reads a text of the pattern. *)
Lemma m_reads_at fl r : forall k x z, m fl r k x = Some z -> reads_at fl r k x z.
Proof.
  induction r as [ |c| |neg items|r1 IH1 r2 IH2|r1 IH1 r2 IH2|q g r1 IH1|i r1 IH1| | | | ];
    intros k x z H; simpl in H.
  - exists [], x. repeat split; auto. constructor.
  - apply step_reads_at in H. destruct H as (a & y & ? & ? & ? & Ha & ?).
    exists [a], y. repeat split; auto; [simpl; lia|].
    constructor. apply Ascii.eqb_eq. exact Ha.
  - apply step_reads_at in H. destruct H as (a & y & ? & ? & ? & Ha & ?).
    exists [a], y. repeat split; auto; [simpl; lia|].
    constructor. apply negb_true_iff. exact Ha.
  - apply step_reads_at in H. destruct H as (a & y & ? & ? & ? & Ha & ?).
    exists [a], y. repeat split; auto; [simpl; lia|].
    constructor. exact Ha.
  - apply IH1 in H. destruct H as (u1 & y1 & Hr1 & Hp1 & Hv1 & Hu1 & H).
    apply IH2 in H. destruct H as (u2 & y2 & Hr2 & Hp2 & Hv2 & Hu2 & H).
    exists (u1 ++ u2)%list, y2. repeat split; auto.
    + rewrite Hr1, Hr2, <- app_assoc. reflexivity.
    + rewrite Hp2, Hp1, length_app. lia.
    + rewrite Hv2, Hv1, after_app. reflexivity.
    + constructor; [rewrite <- Hr2; exact Hu1 | rewrite <- Hv1; exact Hu2].
  - apply or_else_Some in H. destruct H as [H | [_ H]].
    + apply IH1 in H. destruct H as (u & y & ? & ? & ? & ? & ?).
      exists u, y. repeat split; auto. apply sem_alt_left. auto.
    + apply IH2 in H. destruct H as (u & y & ? & ? & ? & ? & ?).
      exists u, y. repeat split; auto. apply sem_alt_right. auto.
  - destruct q.
    + eapply loop_reads_at; eauto.
    + apply IH1 in H. destruct H as (u & y & Hr & Hp & Hv & Hu & H).
      apply (loop_reads_at fl g r1 k IH1) in H.
      destruct H as (u' & y' & Hr' & Hp' & Hv' & Hu' & H).
      simpl in Hr, Hp, Hv, Hu.
      exists (u ++ u')%list, y'. repeat split; auto.
      * rewrite Hr, Hr', <- app_assoc. reflexivity.
      * rewrite Hp', Hp, length_app. lia.
      * rewrite Hv', Hv, after_app. reflexivity.
      * apply sem_plus; [rewrite <- Hr'; exact Hu | rewrite <- Hv; exact Hu'].
    + assert (Hnone : k x = Some z -> reads_at fl (Repeat QOpt g r1) k x z).
      { intros Hk. exists [], x. repeat split; auto. constructor. }
      destruct (m_rest x) as [|c rest] eqn:Hx; simpl in H; [auto|].
      assert (Hround : round (m fl r1) (groups r1) k x = Some z ->
                       reads_at fl (Repeat QOpt g r1) k x z).
      { intros Hz. unfold round in Hz. apply IH1 in Hz.
        destruct Hz as (u & y & Hr & Hp & Hv & Hu & Hk).
        simpl in Hr, Hp, Hv, Hu, Hk.
        destruct (Nat.eqb (m_pos y) (m_pos x)); [discriminate|].
        exists u, y. repeat split; auto.
        apply sem_opt_some. exact Hu. }
      destruct g; apply or_else_Some in H; destruct H as [H | [_ H]]; auto.
  - apply IH1 in H. destruct H as (u & y & ? & ? & ? & ? & ?).
    exists u. eexists. repeat split; [ | | | | eassumption]; auto.
    constructor. auto.
  - destruct (at_bol fl x) eqn:E; [|discriminate]. exists [], x. repeat split; auto.
    constructor. exact E.
  - destruct (at_eol fl x) eqn:E; [|discriminate]. exists [], x. repeat split; auto.
    constructor. exact E.
  - destruct (xorb _ _) eqn:E; [|discriminate]. exists [], x. repeat split; auto.
    constructor. exact E.
  - destruct (xorb _ _) eqn:E; [discriminate|]. exists [], x. repeat split; auto.
    constructor. exact E.
Qed.

Lemma loop_ok_stop body gs g k fuel x :
  ok (k x) = true -> ok (loop body gs g k fuel x) = true.
Proof.
  intros H. destruct fuel; simpl; [exact H|].
  destruct g; rewrite ok_or_else, H; [apply orb_true_r | reflexivity].
Qed.

(** Completeness: where the pattern can read [u] and the continuation
    succeeds after it, the matcher succeeds. *)
Lemma m_complete fl r prev u rt :
  sem fl r prev u rt ->
  forall k x,
    m_prev x = prev -> m_rest x = (u ++ rt)%list ->
    (forall y, stands x u rt y -> ok (k y) = true) ->
    ok (m fl r k x) = true.
Proof.
  induction 1 as
    [ prev rt | c a prev rt Ha | a prev rt Ha | neg items a prev rt Ha
    | r1 r2 prev u1 u2 rt H1 IH1 H2 IH2
    | r1 r2 prev u rt H1 IH1 | r1 r2 prev u rt H1 IH1
    | i r prev u rt H1 IH1
    | g r prev rt
    | g r prev u1 u2 rt H1 IH1 H2 IH2
    | g r prev u1 u2 rt H1 IH1 H2 IH2
    | g r prev rt
    | g r prev u rt H1 IH1
    | prev rt Ha | prev rt Ha | prev rt Ha | prev rt Ha ];
    intros k x Hprev Hrest Hk; subst prev.
  - simpl. apply Hk. repeat split; simpl; auto.
  - simpl. unfold step. rewrite Hrest. simpl.
    rewrite (proj2 (Ascii.eqb_eq _ _) Ha). apply Hk. repeat split; simpl; auto. lia.
  - simpl. unfold step. rewrite Hrest. simpl. rewrite Ha. simpl.
    apply Hk. repeat split; simpl; auto. lia.
  - simpl. unfold step. rewrite Hrest. simpl. rewrite Ha.
    apply Hk. repeat split; simpl; auto. lia.
  - simpl. apply IH1; [reflexivity | rewrite Hrest, <- app_assoc; reflexivity |].
    intros y (Hy1 & Hy2 & Hy3). apply IH2; [exact Hy1 | exact Hy3 |].
    intros y' (Hz1 & Hz2 & Hz3). apply Hk. repeat split.
    + rewrite Hz1, Hy1, after_app. reflexivity.
    + rewrite Hz2, Hy2, length_app. simpl. lia.
    + exact Hz3.
  - simpl. rewrite ok_or_else. rewrite (IH1 k x eq_refl Hrest Hk). reflexivity.
  - simpl. rewrite ok_or_else. rewrite (IH1 k x eq_refl Hrest Hk). apply orb_true_r.
  - simpl. apply IH1; [reflexivity | exact Hrest |].
    intros y (Hy1 & Hy2 & Hy3). apply Hk. repeat split; simpl; auto.
  - simpl. apply loop_ok_stop. apply Hk. repeat split; simpl; auto.
  - destruct u1 as [|a u1].
    + simpl in *. apply IH2; auto.
    + assert (Hround : forall n, (List.length (u2 ++ rt) <= n)%nat ->
                ok (round (m fl r) (groups r)
                      (loop (m fl r) (groups r) g k n) x) = true).
      { intros n Hn. unfold round. apply IH1; [reflexivity | |].
        - simpl. rewrite Hrest, <- app_assoc. reflexivity.
        - intros y (Hy1 & Hy2 & Hy3). simpl in Hy1, Hy2.
          replace (Nat.eqb (m_pos y) (m_pos x)) with false
            by (symmetry; apply Nat.eqb_neq; simpl in Hy2; lia).
          rewrite star_fuel_enough by (rewrite Hy3; exact Hn).
          apply IH2; [exact Hy1 | exact Hy3 |].
          intros y' (Hz1 & Hz2 & Hz3). apply Hk. repeat split.
          + rewrite Hz1, Hy1, after_app. reflexivity.
          + rewrite Hz2, Hy2, length_app. simpl. lia.
          + exact Hz3. }
      simpl. rewrite Hrest. simpl.
      rewrite <- app_assoc, length_app.
      specialize (Hround (List.length u1 + List.length (u2 ++ rt))%nat ltac:(lia)).
      destruct g; rewrite ok_or_else, Hround; [reflexivity | apply orb_true_r].
  - simpl. apply IH1; [reflexivity | simpl; rewrite Hrest, <- app_assoc; reflexivity |].
    intros y (Hy1 & Hy2 & Hy3). simpl in Hy1, Hy2.
    change (ok (m fl (Repeat QStar g r) k y) = true).
    apply IH2; [exact Hy1 | exact Hy3 |].
    intros y' (Hz1 & Hz2 & Hz3). apply Hk. repeat split.
    + rewrite Hz1, Hy1, after_app. reflexivity.
    + rewrite Hz2, Hy2, length_app. simpl. lia.
    + exact Hz3.
  - simpl. apply loop_ok_stop. apply Hk. repeat split; simpl; auto.
  - destruct u as [|a u].
    + simpl. apply loop_ok_stop. apply Hk. repeat split; simpl; auto.
    + assert (Hround : ok (round (m fl r) (groups r) k x) = true).
      { unfold round. apply IH1; [reflexivity | exact Hrest |].
        intros y (Hy1 & Hy2 & Hy3). simpl in Hy1, Hy2.
        replace (Nat.eqb (m_pos y) (m_pos x)) with false
          by (symmetry; apply Nat.eqb_neq; simpl in Hy2; lia).
        apply Hk. repeat split; auto. }
      simpl. rewrite Hrest. simpl.
      change (ok (if g
                  then or_else (round (m fl r) (groups r) k x) (fun _ => k x)
                  else or_else (k x) (fun _ => round (m fl r) (groups r) k x))
              = true).
      destruct g; rewrite ok_or_else, Hround; [reflexivity | apply orb_true_r].
  - simpl. unfold at_bol in *. simpl in Ha. rewrite Ha.
    apply Hk. repeat split; simpl; auto.
  - simpl. unfold at_eol in *. simpl in Ha. rewrite Hrest. simpl. rewrite Ha.
    apply Hk. repeat split; simpl; auto.
  - simpl. unfold word_before, word_after in *. simpl in Ha.
    rewrite Hrest. simpl. rewrite Ha.
    apply Hk. repeat split; simpl; auto.
  - simpl. unfold word_before, word_after in *. simpl in Ha.
    rewrite Hrest. simpl. rewrite Ha.
    apply Hk. repeat split; simpl; auto.
Qed.

Lemma scan_sound fl r : forall rest prev pos f,
  scan fl r prev pos rest = Some f ->
  exists pre u post,
    rest = (pre ++ u ++ post)%list
    /\ sem fl r (after prev pre) u post
    /\ f_start f = (pos + List.length pre)%nat
    /\ f_end f = (pos + List.length pre + List.length u)%nat.
Proof.
  assert (Hhere : forall rest prev pos y,
            m fl r Some {| m_prev := prev; m_pos := pos; m_rest := rest; m_caps := [] |}
            = Some y ->
            exists u post, rest = (u ++ post)%list /\ sem fl r prev u post
                           /\ m_pos y = (pos + List.length u)%nat).
  { intros rest prev pos y H. apply m_reads_at in H.
    destruct H as (u & y' & Hr & Hp & _ & Hu & [= <-]). simpl in *.
    exists u, (m_rest y'). auto. }
  induction rest as [|c rest IH]; intros prev pos f; simpl;
    destruct (m fl r Some _) as [y|] eqn:Hm.
  - intros [= <-]. destruct (Hhere _ _ _ _ Hm) as (u & post & -> & Hu & Hp).
    exists [], u, post. simpl. repeat split; auto; lia.
  - discriminate.
  - intros [= <-]. destruct (Hhere _ _ _ _ Hm) as (u & post & Hr & Hu & Hp).
    exists [], u, post. simpl. repeat split; auto; lia.
  - intros H. apply IH in H. destruct H as (pre & u & post & -> & Hu & Hs & He).
    exists (c :: pre), u, post. simpl. repeat split; auto; lia.
Qed.

Lemma scan_complete fl r : forall pre prev pos u post,
  sem fl r (after prev pre) u post ->
  exists f, scan fl r prev pos (pre ++ u ++ post)%list = Some f.
Proof.
  assert (Hhere : forall rest prev pos,
            ok (m fl r Some {| m_prev := prev; m_pos := pos; m_rest := rest;
                              m_caps := [] |}) = true ->
            exists f, scan fl r prev pos rest = Some f).
  { intros rest prev pos H. destruct rest; simpl;
      destruct (m fl r Some _); try discriminate; eauto. }
  induction pre as [|c pre IH]; intros prev pos u post Hu; simpl in *.
  - apply Hhere. apply (m_complete fl r prev u post Hu); auto.
  - destruct (m fl r Some _); eauto.
Qed.

(** The matcher finds a match exactly where the pattern can read one. *)
Lemma test_sem fl r s :
  test fl r s = true <->
  exists pre u post,
    chars s = (pre ++ u ++ post)%list /\ sem fl r (after None pre) u post.
Proof.
  unfold test, exec. split.
  - destruct (scan fl r None 0 (chars s)) as [f|] eqn:H; [|discriminate].
    intros _. apply scan_sound in H. destruct H as (pre & u & post & ? & ? & _).
    eauto.
  - intros (pre & u & post & -> & Hu).
    destruct (scan_complete fl r pre None 0%nat u post Hu) as (f & ->). reflexivity.
Qed.

End RegexSemFacts.

(** ** The phrase patterns, in plain words *)

Module PageTextFacts.
Import Str Regex Syntax RegexSpec RegexFacts StrSpec StrFacts RegexSem RegexSemFacts PageText.

Lemma sem_seq_inv fl r1 r2 prev u rt :
  sem fl (Seq r1 r2) prev u rt ->
  exists u1 u2, u = (u1 ++ u2)%list /\ sem fl r1 prev u1 (u2 ++ rt)
                /\ sem fl r2 (after prev u1) u2 rt.
Proof. inversion 1; subst. eauto. Qed.

Lemma sem_alt_inv fl r1 r2 prev u rt :
  sem fl (Alt r1 r2) prev u rt -> sem fl r1 prev u rt \/ sem fl r2 prev u rt.
Proof. inversion 1; subst; auto. Qed.

Lemma sem_group_inv fl i r prev u rt :
  sem fl (Group i r) prev u rt -> sem fl r prev u rt.
Proof. inversion 1; subst; auto. Qed.

Lemma sem_char_inv fl c prev u rt :
  sem fl (Char c) prev u rt -> exists a, u = [a] /\ canon fl a = canon fl c.
Proof. inversion 1; subst; eauto. Qed.

Lemma sem_class_inv fl neg items prev u rt :
  sem fl (Class neg items) prev u rt ->
  exists a, u = [a] /\ xorb neg (class_mem fl items a) = true.
Proof. inversion 1; subst; eauto. Qed.

Lemma sem_boundary_inv fl prev u rt :
  sem fl WordBoundary prev u rt -> u = [] /\ boundary prev rt = true.
Proof. inversion 1; subst; auto. Qed.

Lemma sem_empty_inv fl prev u rt : sem fl Empty prev u rt -> u = [].
Proof. inversion 1; subst; auto. Qed.

(** What a literal prefix reads. *)
Lemma sem_lit_then fl tail : forall w prev u rt,
  sem fl (lit_then w tail) prev u rt <->
  exists v u', u = (v ++ u')%list /\ same_letters fl v w
               /\ sem fl tail (after prev v) u' rt.
Proof.
  induction w as [|c w IH]; intros prev u rt; simpl.
  - split.
    + intros H. exists [], u. repeat split; auto. constructor.
    + intros (v & u' & -> & Hv & H). inversion Hv; subst. exact H.
  - split.
    + intros H. apply sem_seq_inv in H. destruct H as (u1 & u2 & -> & H1 & H2).
      apply sem_char_inv in H1. destruct H1 as (a & -> & Ha).
      apply IH in H2. destruct H2 as (v & u' & -> & Hv & H2).
      exists (a :: v), u'. repeat split; auto. constructor; auto.
    + intros (v & u' & -> & Hv & H). inversion Hv as [|a c' v' w' Ha Hv']; subst.
      change ((a :: v') ++ u')%list with ([a] ++ (v' ++ u'))%list.
      constructor; [constructor; exact Ha|]. apply IH. exists v', u'. auto.
Qed.

Lemma sem_word fl : forall w prev u rt,
  sem fl (word_regex w) prev u rt <-> same_letters fl u w.
Proof.
  induction w as [|c w IH]; intros prev u rt.
  - simpl. split.
    + intros H. apply sem_empty_inv in H. subst. constructor.
    + intros H. inversion H; subst. constructor.
  - destruct w as [|c' w].
    + simpl. split.
      * intros H. apply sem_char_inv in H. destruct H as (a & -> & Ha).
        constructor; [exact Ha | constructor].
      * intros H. inversion H as [|a ? v ? Ha Hv]; subst. inversion Hv; subst.
        constructor. exact Ha.
    + change (word_regex (c :: c' :: w)) with (Seq (Char c) (word_regex (c' :: w))).
      split.
      * intros H. apply sem_seq_inv in H. destruct H as (u1 & u2 & -> & H1 & H2).
        apply sem_char_inv in H1. destruct H1 as (a & -> & Ha).
        apply IH in H2. constructor; auto.
      * intros H. inversion H as [|a ? v ? Ha Hv]; subst.
        change (a :: v) with ([a] ++ v)%list.
        constructor; [constructor; exact Ha | apply IH; exact Hv].
Qed.

Lemma sem_bounded fl r prev u rt :
  sem fl (bounded r) prev u rt <->
  sem fl r prev u rt /\ boundary prev (u ++ rt) = true
  /\ boundary (after prev u) rt = true.
Proof.
  unfold bounded. split.
  - intros H. apply sem_seq_inv in H. destruct H as (u1 & u2 & -> & H1 & H2).
    apply sem_boundary_inv in H1. destruct H1 as (-> & Hb1).
    apply sem_seq_inv in H2. destruct H2 as (u3 & u4 & -> & H3 & H4).
    apply sem_boundary_inv in H4. destruct H4 as (-> & Hb2).
    apply sem_group_inv in H3. simpl in *. rewrite app_nil_r in *. auto.
  - intros (H & Hb1 & Hb2).
    change u with ([] ++ u)%list. constructor; [constructor; exact Hb1|].
    rewrite <- (app_nil_r u). constructor.
    + constructor. simpl. exact H.
    + constructor. exact Hb2.
Qed.

Lemma sem_alternatives fl : forall rs prev u rt,
  rs <> [] ->
  (sem fl (alternatives rs) prev u rt <-> exists r, In r rs /\ sem fl r prev u rt).
Proof.
  induction rs as [|r rs IH]; intros prev u rt Hne; [congruence|].
  destruct rs as [|r' rs].
  - simpl. split; [eauto | intros (r0 & [<- | []] & H); exact H].
  - change (alternatives (r :: r' :: rs)) with (Alt r (alternatives (r' :: rs))).
    split.
    + intros H. apply sem_alt_inv in H. destruct H as [H | H].
      * exists r. split; [left; reflexivity | exact H].
      * apply IH in H; [|discriminate]. destruct H as (r0 & Hin & H).
        exists r0. split; [right; exact Hin | exact H].
    + intros (r0 & [<- | Hin] & H).
      * apply sem_alt_left. exact H.
      * apply sem_alt_right. apply IH; [discriminate|]. eauto.
Qed.

(** Letters that match without regard to case are word units together. *)
Lemma canon_is_word a c :
  canon flag_i a = canon flag_i c -> is_word a = is_word c.
Proof.
  assert (H : for_all_pairs (fun a c =>
              if Ascii.eqb (upper_char a) (upper_char c)
              then Bool.eqb (is_word a) (is_word c) else true) = true)
    by (vm_compute; reflexivity).
  intros E. pose proof (for_all_pairs_spec _ H a c) as Hp. simpl in Hp.
  unfold canon in E. simpl in E. rewrite E, Ascii.eqb_refl in Hp.
  apply Bool.eqb_prop. exact Hp.
Qed.

Lemma same_letters_first v w :
  same_letters flag_i v w -> first_is_word v = first_is_word w.
Proof. intros H. inversion H; subst; simpl; auto using canon_is_word. Qed.

Lemma after_last prev v c : after prev (v ++ [c]) = Some c.
Proof. rewrite after_app. reflexivity. Qed.

Lemma same_letters_after v w :
  same_letters flag_i v w -> v <> [] ->
  forall p q, exists a c,
    after p v = Some a /\ after q w = Some c /\ canon flag_i a = canon flag_i c.
Proof.
  induction 1 as [|a c v w Ha H IH]; intros Hne p q; [congruence|].
  destruct H as [|a' c' v w Ha' H].
  - exists a, c. auto.
  - exact (IH ltac:(discriminate) (Some a) (Some c)).
Qed.

Lemma same_letters_last v w :
  same_letters flag_i v w -> last_is_word v = last_is_word w.
Proof.
  intros H. destruct v as [|a v].
  - inversion H; subst. reflexivity.
  - destruct (same_letters_after _ _ H ltac:(discriminate) None None)
      as (x & y & Hx & Hy & Hxy).
    unfold last_is_word. rewrite Hx, Hy. apply canon_is_word. exact Hxy.
Qed.

Lemma after_nonempty u : u <> [] -> forall p q, after p u = after q u.
Proof. destruct u; [congruence | reflexivity]. Qed.

Lemma first_is_word_app u post : u <> [] -> first_is_word (u ++ post) = first_is_word u.
Proof. destruct u; [congruence | reflexivity]. Qed.

Lemma boundary_split pre rt :
  boundary (after None pre) rt = xorb (last_is_word pre) (first_is_word rt).
Proof. reflexivity. Qed.

(** For a text that starts and ends with a word unit, the two
    assertions say that no word unit touches it. *)
Lemma boundaries_alone pre u post :
  first_is_word u = true -> last_is_word u = true ->
  (boundary (after None pre) (u ++ post) = true
   /\ boundary (after (after None pre) u) post = true
   <-> last_is_word pre = false /\ first_is_word post = false).
Proof.
  intros Hf Hl.
  assert (Hne : u <> []) by (destruct u; [discriminate | discriminate]).
  rewrite <- after_app, !boundary_split.
  rewrite first_is_word_app by exact Hne. rewrite Hf.
  assert (Hlast : last_is_word (pre ++ u) = true).
  { unfold last_is_word in *. rewrite after_app.
    rewrite (after_nonempty u Hne _ None). exact Hl. }
  rewrite Hlast.
  destruct (last_is_word pre), (first_is_word post); simpl; intuition congruence.
Qed.

Lemma test_bounded rs s :
  rs <> [] ->
  (test flag_i (bounded (alternatives rs)) s = true <->
   exists pre u post r,
     chars s = (pre ++ u ++ post)%list
     /\ In r rs /\ sem flag_i r (after None pre) u post
     /\ boundary (after None pre) (u ++ post) = true
     /\ boundary (after (after None pre) u) post = true).
Proof.
  intros Hne. rewrite test_sem. split.
  - intros (pre & u & post & Hs & H). apply sem_bounded in H.
    destruct H as (H & Hb1 & Hb2). apply sem_alternatives in H; [|exact Hne].
    destruct H as (r & Hin & H). exists pre, u, post, r. auto.
  - intros (pre & u & post & r & Hs & Hin & H & Hb1 & Hb2).
    exists pre, u, post. split; [exact Hs|]. apply sem_bounded.
    repeat split; auto. apply sem_alternatives; eauto.
Qed.

Lemma word_alone w s pre u post :
  first_is_word (chars w) && last_is_word (chars w) = true ->
  chars s = (pre ++ u ++ post)%list ->
  same_letters flag_i u (chars w) ->
  boundary (after None pre) (u ++ post) = true ->
  boundary (after (after None pre) u) post = true ->
  whole_word w s.
Proof.
  intros Hw Hs Hu Hb1 Hb2. apply andb_prop in Hw. destruct Hw as [Hf Hl].
  rewrite <- (same_letters_first _ _ Hu) in Hf.
  rewrite <- (same_letters_last _ _ Hu) in Hl.
  destruct (proj1 (boundaries_alone pre u post Hf Hl) (conj Hb1 Hb2)) as [H1 H2].
  exists u. split; [exact Hu|]. exists pre, post. auto.
Qed.

Lemma alone_boundaries w s v :
  first_is_word (chars w) && last_is_word (chars w) = true ->
  same_letters flag_i v (chars w) -> stands_alone s v ->
  exists pre post,
    chars s = (pre ++ v ++ post)%list
    /\ boundary (after None pre) (v ++ post) = true
    /\ boundary (after (after None pre) v) post = true.
Proof.
  intros Hw Hv (pre & post & Hs & H1 & H2).
  apply andb_prop in Hw. destruct Hw as [Hf Hl].
  rewrite <- (same_letters_first _ _ Hv) in Hf.
  rewrite <- (same_letters_last _ _ Hv) in Hl.
  destruct (proj2 (boundaries_alone pre v post Hf Hl) (conj H1 H2)) as [Hb1 Hb2].
  exists pre, post. auto.
Qed.

(** The pattern of the phrases that tell the product is out of stock
    finds a match exactly in the texts that hold one of them as whole
    words, in any letter case. *)
Lemma outOfStockPattern_says s :
  test flag_i StockChecker.outOfStockPattern s = true <-> says_out_of_stock s.
Proof.
  change StockChecker.outOfStockPattern
    with (bounded (alternatives (map (fun w => word_regex (chars w)) outOfStockPhrases))).
  rewrite test_bounded by discriminate. split.
  - intros (pre & u & post & r & Hs & Hin & H & Hb1 & Hb2).
    apply in_map_iff in Hin. destruct Hin as (w & <- & Hin).
    apply sem_word in H. exists w. split; [exact Hin|].
    apply (word_alone w s pre u post); auto.
    simpl in Hin. repeat destruct Hin as [<- | Hin]; try reflexivity. destruct Hin.
  - intros (w & Hin & v & Hv & Ha).
    destruct (alone_boundaries w s v) as (pre & post & Hs & Hb1 & Hb2); auto.
    { simpl in Hin. repeat destruct Hin as [<- | Hin]; try reflexivity. destruct Hin. }
    exists pre, v, post, (word_regex (chars w)). repeat split; auto.
    + apply (in_map (fun w => word_regex (chars w))). exact Hin.
    + apply sem_word. exact Hv.
Qed.

Lemma sem_star_class fl g neg items prev u rt :
  sem fl (Repeat QStar g (Class neg items)) prev u rt <->
  Forall (fun a => xorb neg (class_mem fl items a) = true) u.
Proof.
  split.
  - remember (Repeat QStar g (Class neg items)) as r eqn:E.
    induction 1 as
      [ | | | | | | | | | g' r' prev u1 u2 rt H1 _ H2 IH2 | | | | | | | ];
      try discriminate E.
    + constructor.
    + injection E as -> ->. apply sem_class_inv in H1. destruct H1 as (a & -> & Ha).
      constructor; [exact Ha | apply IH2; reflexivity].
  - revert prev. induction u as [|a u IH]; intros prev H.
    + constructor.
    + inversion H as [|? ? Ha Hu]; subst.
      change (a :: u) with ([a] ++ u)%list.
      apply sem_star_more; [constructor; exact Ha | apply IH; exact Hu].
Qed.

Lemma sem_plus_class fl g neg items prev u rt :
  sem fl (Repeat QPlus g (Class neg items)) prev u rt <->
  u <> [] /\ Forall (fun a => xorb neg (class_mem fl items a) = true) u.
Proof.
  split.
  - inversion 1 as [ | | | | | | | | | | g' r' prev' u1 u2 rt' H1 H2 | | | | | | ]; subst.
    apply sem_class_inv in H1. destruct H1 as (a & -> & Ha).
    apply sem_star_class in H2. split; [discriminate | constructor; auto].
  - intros [Hne H]. destruct u as [|a u]; [congruence|].
    inversion H as [|? ? Ha Hu]; subst.
    change (a :: u) with ([a] ++ u)%list.
    apply sem_plus; [constructor; exact Ha | apply sem_star_class; exact Hu].
Qed.

(** With or without the flag [i], [\d] reads the digits. *)
Lemma class_digit a : class_mem flag_i [CEsc Digit] a = is_digit a.
Proof.
  assert (H : forallb (fun a => Bool.eqb (class_mem flag_i [CEsc Digit] a) (is_digit a))
                all_ascii = true) by (vm_compute; reflexivity).
  rewrite forallb_forall in H. apply Bool.eqb_prop, H, all_ascii_complete.
Qed.

Lemma sem_only_n_left prev u rt :
  sem flag_i only_n_left_regex prev u rt <->
  exists a d b,
    u = (a ++ d ++ b)%list
    /\ same_letters flag_i a (chars "only ")
    /\ d <> [] /\ Forall (fun c => is_digit c = true) d
    /\ same_letters flag_i b (chars " left").
Proof.
  unfold only_n_left_regex. rewrite sem_lit_then. split.
  - intros (a & u' & -> & Ha & H). apply sem_seq_inv in H.
    destruct H as (d & b & -> & Hd & Hb).
    apply sem_plus_class in Hd. destruct Hd as [Hne Hd].
    apply sem_word in Hb. exists a, d, b. repeat split; auto.
    eapply List.Forall_impl; [|exact Hd]. intros c Hc. simpl in Hc.
    rewrite class_digit in Hc. exact Hc.
  - intros (a & d & b & -> & Ha & Hne & Hd & Hb).
    exists a, (d ++ b)%list. repeat split; auto.
    constructor; [|apply sem_word; exact Hb].
    apply sem_plus_class. split; [exact Hne|].
    eapply List.Forall_impl; [|exact Hd]. intros c Hc. simpl.
    rewrite class_digit. exact Hc.
Qed.

Lemma last_is_word_app u b : b <> [] -> last_is_word (u ++ b) = last_is_word b.
Proof.
  intros Hne. unfold last_is_word. rewrite after_app.
  rewrite (after_nonempty b Hne _ None). reflexivity.
Qed.

Lemma only_n_left_ends a d b :
  same_letters flag_i a (chars "only ") -> same_letters flag_i b (chars " left") ->
  first_is_word (a ++ d ++ b) = true /\ last_is_word (a ++ d ++ b) = true.
Proof.
  intros Ha Hb. split.
  - rewrite first_is_word_app by (inversion Ha; discriminate).
    rewrite (same_letters_first _ _ Ha). reflexivity.
  - rewrite app_assoc, last_is_word_app by (inversion Hb; discriminate).
    rewrite (same_letters_last _ _ Hb). reflexivity.
Qed.

(** The pattern of the phrases that tell the stock is low. *)
Lemma lowStockPattern_says s :
  test flag_i StockChecker.lowStockPattern s = true <-> says_low_stock s.
Proof.
  change StockChecker.lowStockPattern
    with (bounded (alternatives
            (map (fun w => word_regex (chars w)) lowStockPhrases
             ++ [only_n_left_regex]))).
  rewrite test_bounded by discriminate. split.
  - intros (pre & u & post & r & Hs & Hin & H & Hb1 & Hb2).
    apply in_app_or in Hin. destruct Hin as [Hin | [<- | []]].
    + apply in_map_iff in Hin. destruct Hin as (w & <- & Hin).
      apply sem_word in H. left. exists w. split; [exact Hin|].
      apply (word_alone w s pre u post); auto.
      simpl in Hin. repeat destruct Hin as [<- | Hin]; try reflexivity. destruct Hin.
    + apply sem_only_n_left in H. destruct H as (a & d & b & -> & Ha & Hne & Hd & Hb).
      right. exists a, d, b. repeat split; auto.
      destruct (only_n_left_ends a d b Ha Hb) as [Hf Hl].
      destruct (proj1 (boundaries_alone pre _ post Hf Hl) (conj Hb1 Hb2)) as [H1 H2].
      exists pre, post. auto.
  - intros [(w & Hin & v & Hv & Ha) | (a & d & b & Ha & Hne & Hd & Hb & Hal)].
    + destruct (alone_boundaries w s v) as (pre & post & Hs & Hb1 & Hb2); auto.
      { simpl in Hin. repeat destruct Hin as [<- | Hin]; try reflexivity. destruct Hin. }
      exists pre, v, post, (word_regex (chars w)). repeat split; auto.
      * apply in_or_app. left.
        apply (in_map (fun w => word_regex (chars w))). exact Hin.
      * apply sem_word. exact Hv.
    + destruct Hal as (pre & post & Hs & H1 & H2).
      destruct (only_n_left_ends a d b Ha Hb) as [Hf Hl].
      destruct (proj2 (boundaries_alone pre _ post Hf Hl) (conj H1 H2)) as [Hb1 Hb2].
      exists pre, (a ++ d ++ b)%list, post, only_n_left_regex. repeat split; auto.
      * apply in_or_app. right. left. reflexivity.
      * apply sem_only_n_left. exists a, d, b. auto.
Qed.

(** *** Letter case: the two ways the code sets it aside *)

Lemma lower_char_upper a c :
  lower_char a = lower_char c -> upper_char a = upper_char c.
Proof.
  assert (H : for_all_pairs (fun a c =>
              if Ascii.eqb (lower_char a) (lower_char c)
              then Ascii.eqb (upper_char a) (upper_char c) else true) = true)
    by (vm_compute; reflexivity).
  intros E. pose proof (for_all_pairs_spec _ H a c) as Hp. simpl in Hp.
  rewrite E, Ascii.eqb_refl in Hp. apply Ascii.eqb_eq. exact Hp.
Qed.

Lemma same_letters_lower v w :
  same_letters flag_i v w <-> map lower_char v = map lower_char w.
Proof.
  split.
  - induction 1 as [|a c v w Ha H IH]; simpl; [reflexivity|].
    rewrite IH. f_equal. apply upper_char_lower. exact Ha.
  - revert w. induction v as [|a v IH]; intros [|c w] H; simpl in H; try discriminate.
    + constructor.
    + injection H as Ha H. constructor; [|apply IH; exact H].
      apply lower_char_upper. exact Ha.
Qed.

Lemma chars_toLowerCase s : chars (toLowerCase s) = map lower_char (chars s).
Proof. unfold toLowerCase. apply chars_str. Qed.

Lemma map_split {A B} (f : A -> B) : forall l a b c,
  map f l = (a ++ b ++ c)%list ->
  exists l1 l2 l3, l = (l1 ++ l2 ++ l3)%list
                   /\ map f l1 = a /\ map f l2 = b /\ map f l3 = c.
Proof.
  intros l a b c H. apply map_eq_app in H. destruct H as (l1 & l23 & -> & H1 & H).
  apply map_eq_app in H. destruct H as (l2 & l3 & -> & H2 & H3).
  exists l1, l2, l3. auto.
Qed.

(** [toLowerCase] then [includes], for a word with no capital: the word
    is in the text in some letter case. *)
Lemma includes_lower_holds s w :
  map lower_char (chars w) = chars w ->
  (includes (toLowerCase s) w = true <-> holds flag_i (chars w) (chars s)).
Proof.
  intros Hw. split.
  - intros H. apply includes_indexOf in H. destruct H as [_ (pre & post & H & _)].
    rewrite chars_toLowerCase in H. apply map_split in H.
    destruct H as (l1 & l2 & l3 & Hs & _ & H2 & _).
    exists l1, l2, l3. split; [exact Hs|]. apply same_letters_lower.
    rewrite H2, Hw. reflexivity.
  - intros (pre & v & post & Hs & Hv). apply same_letters_lower in Hv.
    apply (includes_complete _ _ (map lower_char pre) (map lower_char post)).
    rewrite chars_toLowerCase, Hs, !map_app, Hv, Hw. reflexivity.
Qed.

Lemma test_word_holds w r s :
  holds flag_i w (chars s) -> test flag_i (Alt (word_regex w) r) s = true.
Proof.
  intros (pre & v & post & Hs & Hv). apply test_sem.
  exists pre, v, post. split; [exact Hs|]. apply sem_alt_left, sem_word. exact Hv.
Qed.

(** The pattern of the disabled marks finds a match exactly in the texts
    that hold [disabled] in some letter case. *)
Lemma disabledPattern_holds s :
  test flag_i StockChecker.disabledPattern s = includes (toLowerCase s) "disabled".
Proof.
  apply eq_true_iff_eq. rewrite (includes_lower_holds s "disabled") by reflexivity.
  split.
  - apply test_holds. vm_compute. reflexivity.
  - apply (test_word_holds (chars "disabled")).
Qed.

Lemma toLowerCase_idem s : toLowerCase (toLowerCase s) = toLowerCase s.
Proof.
  unfold toLowerCase. rewrite chars_str, map_map. f_equal.
  apply map_ext. intros a.
  assert (H : forallb (fun a => Ascii.eqb (lower_char (lower_char a)) (lower_char a))
                all_ascii = true) by (vm_compute; reflexivity).
  rewrite forallb_forall in H. apply Ascii.eqb_eq, H, all_ascii_complete.
Qed.

Lemma length_toLowerCase s : length (toLowerCase s) = length s.
Proof. unfold length. rewrite chars_toLowerCase, length_map. reflexivity. Qed.

Lemma toLowerCase_substring s a b :
  toLowerCase (substring s a b) = substring (toLowerCase s) a b.
Proof.
  unfold substring. rewrite length_toLowerCase.
  unfold toLowerCase at 1. rewrite chars_str. f_equal.
  rewrite chars_toLowerCase. unfold slice.
  rewrite <- firstn_map, <- skipn_map. reflexivity.
Qed.

(** The disabled flag, in plain terms. *)
Lemma hasDisabledButton_plain html :
  StockChecker.hasDisabledButton (toLowerCase html)
  = StockChecker.hasAddToCart (toLowerCase html)
    && includes (StockChecker.buttonSection (toLowerCase html)) "disabled".
Proof.
  unfold StockChecker.hasDisabledButton. rewrite disabledPattern_holds.
  unfold StockChecker.buttonSection. rewrite toLowerCase_substring, toLowerCase_idem.
  destruct (StockChecker.hasAddToCart (toLowerCase html)); reflexivity.
Qed.

End PageTextFacts.

(** ** The size patterns, in plain words *)

Module VariantTextFacts.
Import Str Regex Syntax RegexSpec RegexFacts StrSpec StrFacts.
Import RegexSem RegexSemFacts PageText PageTextFacts VariantText StockChecker.

Lemma chars_app s t : chars (s ++ t) = (chars s ++ chars t)%list.
Proof. induction s as [|c s IH]; simpl; [reflexivity | unfold chars in *; simpl; rewrite IH; reflexivity]. Qed.

(** Reading a unit that is no syntax character adds it to the open
    alternative. *)
Lemma parse_plain_char c rest st :
  p_class st = None -> plain c = true ->
  parse (c :: rest) st = parse rest (add_term (Char c) Atom st).
Proof.
  intros Hc Hp. simpl. rewrite Hc.
  unfold plain, syntax_characters in Hp. simpl in Hp.
  apply negb_true_iff in Hp. repeat (apply orb_false_elim in Hp; destruct Hp as [? Hp]).
  repeat match goal with H : Ascii.eqb c _ = false |- _ => rewrite H; clear H end.
  reflexivity.
Qed.

Lemma parse_plain : forall w rest stack cap alts terms q n,
  forallb plain w = true ->
  parse (w ++ rest)
    {| p_stack := stack; p_cur := {| f_cap := cap; f_alts := alts; f_seq := terms |};
       p_q := q; p_groups := n; p_class := None |}
  = parse rest
      {| p_stack := stack;
         p_cur := {| f_cap := cap; f_alts := alts;
                     f_seq := (rev (map Char w) ++ terms)%list |};
         p_q := match w with [] => q | _ => Atom end;
         p_groups := n; p_class := None |}.
Proof.
  induction w as [|c w IH]; intros rest stack cap alts terms q n Hw.
  - reflexivity.
  - simpl in Hw. apply andb_prop in Hw. destruct Hw as [Hc Hw].
    change ((c :: w) ++ rest)%list with (c :: (w ++ rest))%list.
    rewrite parse_plain_char by (auto; reflexivity).
    unfold add_term, with_cur. simpl p_cur. simpl f_cap. simpl f_alts. simpl f_seq.
    simpl p_stack. simpl p_groups.
    rewrite IH by exact Hw. simpl rev. rewrite <- app_assoc. simpl.
    destruct w; reflexivity.
Qed.

Lemma lit_then_not_empty w acc : acc <> Empty -> lit_then w acc <> Empty.
Proof. destruct w; simpl; [auto | discriminate]. Qed.

Lemma seq_step_more acc t : acc <> Empty -> seq_step acc t = Seq t acc.
Proof. destruct acc; simpl; congruence. Qed.

Lemma fold_left_step t l acc :
  fold_left seq_step (t :: l) acc = fold_left seq_step l (seq_step acc t).
Proof. reflexivity. Qed.

Lemma seq_of_lit w : forall acc,
  acc <> Empty ->
  fold_left seq_step (rev (map Char w)) acc = lit_then w acc.
Proof.
  induction w as [|c w IH]; intros acc Hacc; simpl; [reflexivity|].
  rewrite fold_left_app. simpl. rewrite IH by exact Hacc.
  apply seq_step_more, lit_then_not_empty, Hacc.
Qed.

(** The text that follows the size in the first pattern, read after any
    terms [ts]. *)
Lemma parse_sizeUnavailable_tail ts q :
  parse (chars "[^<]*?(out of stock|sold out|unavailable|disabled)")
    {| p_stack := []; p_cur := {| f_cap := None; f_alts := []; f_seq := ts |};
       p_q := q; p_groups := 0; p_class := None |}
  = Pattern
      (fold_left seq_step ts
         (Seq (Repeat QStar false (Class true [CChar "<"]))
            (Group 1 (alternatives (map (fun w => word_regex (chars w)) sizeMarkers))))).
Proof. vm_compute. reflexivity. Qed.

Lemma compile_sizeUnavailable size :
  plain_text size = true ->
  compile (sizeUnavailable_src size) = Pattern (sizeUnavailablePattern size).
Proof.
  intros Hp. unfold compile, sizeUnavailable_src, initial.
  rewrite chars_app, parse_plain by exact Hp.
  rewrite parse_sizeUnavailable_tail, app_nil_r.
  rewrite seq_of_lit by discriminate. reflexivity.
Qed.

Lemma chars_sizeButton_src size :
  chars (sizeButton_src size)
  = (chars ("data-size=[" ++ dq ++ "']") ++ chars size
     ++ chars ("[" ++ dq ++ "'][^>]*(disabled|class=" ++ dq ++ "[^" ++ dq
               ++ "]*disabled[^" ++ dq ++ "]*" ++ dq ++ ")"))%list.
Proof.
  unfold sizeButton_src. rewrite !chars_app, <- !app_assoc. reflexivity.
Qed.

Lemma parse_sizeButton_head rest :
  parse (chars ("data-size=[" ++ dq ++ "']") ++ rest) initial
  = parse rest
      {| p_stack := [];
         p_cur := {| f_cap := None; f_alts := [];
                     f_seq := quotes :: rev (map Char (chars "data-size=")) |};
         p_q := Atom; p_groups := 0; p_class := None |}.
Proof. vm_compute. reflexivity. Qed.

Lemma parse_sizeButton_tail ts q :
  parse (chars ("[" ++ dq ++ "'][^>]*(disabled|class=" ++ dq ++ "[^" ++ dq
                ++ "]*disabled[^" ++ dq ++ "]*" ++ dq ++ ")"))
    {| p_stack := []; p_cur := {| f_cap := None; f_alts := []; f_seq := ts |};
       p_q := q; p_groups := 0; p_class := None |}
  = Pattern
      (fold_left seq_step ts
         (Seq quotes
            (Seq (none_of ">")
               (Group 1
                  (Alt (word_regex (chars "disabled"))
                     (lit_then (chars "class=" ++ [dqc])
                        (Seq (none_of dqc)
                           (lit_then (chars "disabled")
                              (Seq (none_of dqc) (Char dqc)))))))))).
Proof. vm_compute. reflexivity. Qed.

Lemma compile_sizeButton size :
  plain_text size = true ->
  compile (sizeButton_src size) = Pattern (sizeButtonPattern size).
Proof.
  intros Hp. unfold compile. rewrite chars_sizeButton_src, parse_sizeButton_head.
  rewrite parse_plain by exact Hp. rewrite parse_sizeButton_tail.
  rewrite fold_left_app, seq_of_lit by discriminate.
  rewrite fold_left_step.
  rewrite seq_step_more by (apply lit_then_not_empty; discriminate).
  rewrite seq_of_lit by discriminate. reflexivity.
Qed.

(** With the flag [i], a negated class of one unit that is no letter
    reads every other unit, and the class of the two quotes reads them. *)
Lemma class_other c a :
  In c ["<"; ">"; dqc]%char ->
  xorb true (class_mem flag_i [CChar c] a) = negb (Ascii.eqb a c).
Proof.
  assert (H : forallb (fun c => forallb (fun a =>
                Bool.eqb (xorb true (class_mem flag_i [CChar c] a))
                         (negb (Ascii.eqb a c))) all_ascii)
                ["<"; ">"; dqc]%char = true) by (vm_compute; reflexivity).
  intros Hc. rewrite forallb_forall in H. specialize (H c Hc).
  rewrite forallb_forall in H. apply Bool.eqb_prop, H, all_ascii_complete.
Qed.

Lemma class_quotes a : class_mem flag_i [CChar dqc; CChar "'"] a = is_quote a.
Proof.
  assert (H : forallb (fun a =>
                Bool.eqb (class_mem flag_i [CChar dqc; CChar "'"] a) (is_quote a))
                all_ascii = true) by (vm_compute; reflexivity).
  rewrite forallb_forall in H. apply Bool.eqb_prop, H, all_ascii_complete.
Qed.

Lemma sem_none_of g c prev u rt :
  In c ["<"; ">"; dqc]%char ->
  (sem flag_i (Repeat QStar g (Class true [CChar c])) prev u rt <-> none_is c u).
Proof.
  intros Hc. rewrite sem_star_class. unfold none_is. split; intros H;
    (eapply List.Forall_impl; [|exact H]); intros a Ha; cbv beta in *.
  - rewrite class_other in Ha by exact Hc. apply negb_true_iff in Ha.
    intros ->. rewrite Ascii.eqb_refl in Ha. discriminate.
  - rewrite class_other by exact Hc. apply negb_true_iff, Ascii.eqb_neq. exact Ha.
Qed.

Lemma sem_quotes prev u rt :
  sem flag_i quotes prev u rt <-> exists q, u = [q] /\ is_quote q = true.
Proof.
  unfold quotes. split.
  - intros H. apply sem_class_inv in H. destruct H as (a & -> & Ha).
    simpl in Ha. rewrite class_quotes in Ha. eauto.
  - intros (q & -> & Hq). constructor. simpl. rewrite class_quotes. exact Hq.
Qed.

Lemma sem_markers prev u rt :
  sem flag_i (Group 1 (alternatives (map (fun w => word_regex (chars w)) sizeMarkers)))
    prev u rt
  <-> exists w, In w sizeMarkers /\ same_letters flag_i u (chars w).
Proof.
  split.
  - intros H. apply sem_group_inv in H. apply sem_alternatives in H; [|discriminate].
    destruct H as (r & Hin & H). apply in_map_iff in Hin.
    destruct Hin as (w & <- & Hin). apply sem_word in H. eauto.
  - intros (w & Hin & H). constructor. apply sem_alternatives; [discriminate|].
    exists (word_regex (chars w)). split.
    + apply (in_map (fun w => word_regex (chars w))). exact Hin.
    + apply sem_word. exact H.
Qed.

Lemma sem_sizeUnavailable size prev u rt :
  sem flag_i (sizeUnavailablePattern size) prev u rt <->
  exists v mid p w,
    u = (v ++ mid ++ p)%list
    /\ same_letters flag_i v (chars size)
    /\ none_is "<" mid
    /\ In w sizeMarkers /\ same_letters flag_i p (chars w).
Proof.
  unfold sizeUnavailablePattern. rewrite sem_lit_then. split.
  - intros (v & u' & -> & Hv & H). apply sem_seq_inv in H.
    destruct H as (mid & p & -> & Hmid & Hp).
    apply sem_none_of in Hmid; [|simpl; auto].
    apply sem_markers in Hp. destruct Hp as (w & Hin & Hp).
    exists v, mid, p, w. auto.
  - intros (v & mid & p & w & -> & Hv & Hmid & Hin & Hp).
    exists v, (mid ++ p)%list. repeat split; auto. constructor.
    + apply sem_none_of; [simpl; auto | exact Hmid].
    + apply sem_markers. eauto.
Qed.

Lemma test_sizeUnavailable size html :
  test flag_i (sizeUnavailablePattern size) html = true <-> size_marked size html.
Proof.
  rewrite test_sem. unfold size_marked. split.
  - intros (pre & u & post & Hs & H). apply sem_sizeUnavailable in H.
    destruct H as (v & mid & p & w & -> & Hv & Hmid & Hin & Hp).
    exists pre, v, mid, p, post, w. repeat split; auto.
    rewrite Hs, <- !app_assoc. reflexivity.
  - intros (pre & v & mid & p & post & w & Hs & Hv & Hmid & Hin & Hp).
    exists pre, (v ++ mid ++ p)%list, post. split.
    + rewrite Hs, <- !app_assoc. reflexivity.
    + apply sem_sizeUnavailable. exists v, mid, p, w. auto.
Qed.

Lemma sem_class_disabled prev u rt :
  sem flag_i
    (lit_then (chars "class=" ++ [dqc])
       (Seq (none_of dqc) (lit_then (chars "disabled") (Seq (none_of dqc) (Char dqc)))))
    prev u rt
  <-> class_disabled u.
Proof.
  rewrite sem_lit_then. unfold class_disabled. split.
  - intros (c & u1 & -> & Hc & H). apply sem_seq_inv in H.
    destruct H as (x & u2 & -> & Hx & H).
    apply sem_none_of in Hx; [|simpl; auto].
    apply sem_lit_then in H. destruct H as (d & u3 & -> & Hd & H).
    apply sem_seq_inv in H. destruct H as (y & u4 & -> & Hy & H).
    apply sem_none_of in Hy; [|simpl; auto].
    apply sem_char_inv in H. destruct H as (a & -> & Ha).
    assert (a = dqc) as ->.
    { assert (Hq : forallb (fun a => if Ascii.eqb (upper_char a) (upper_char dqc)
                                     then Ascii.eqb a dqc else true) all_ascii = true)
        by (vm_compute; reflexivity).
      rewrite forallb_forall in Hq. specialize (Hq a (all_ascii_complete a)).
      simpl in Ha. unfold canon in Ha. simpl in Ha. rewrite Ha, Ascii.eqb_refl in Hq.
      apply Ascii.eqb_eq. exact Hq. }
    exists c, x, d, y. auto.
  - intros (c & x & d & y & -> & Hc & Hx & Hd & Hy).
    exists c, (x ++ d ++ y ++ [dqc])%list. repeat split; auto.
    constructor; [apply sem_none_of; [simpl; auto | exact Hx]|].
    apply sem_lit_then. exists d, (y ++ [dqc])%list. repeat split; auto.
    constructor; [apply sem_none_of; [simpl; auto | exact Hy]|].
    constructor. reflexivity.
Qed.

Lemma sem_sizeButton size prev u rt :
  sem flag_i (sizeButtonPattern size) prev u rt <->
  exists a q1 v q2 mid p,
    u = (a ++ [q1] ++ v ++ [q2] ++ mid ++ p)%list
    /\ same_letters flag_i a (chars "data-size=")
    /\ is_quote q1 = true
    /\ same_letters flag_i v (chars size)
    /\ is_quote q2 = true
    /\ none_is ">" mid
    /\ (same_letters flag_i p (chars "disabled") \/ class_disabled p).
Proof.
  unfold sizeButtonPattern. rewrite sem_lit_then. split.
  - intros (a & u1 & -> & Ha & H). apply sem_seq_inv in H.
    destruct H as (q1s & u2 & -> & Hq1 & H).
    apply sem_quotes in Hq1. destruct Hq1 as (q1 & -> & Hq1).
    apply sem_lit_then in H. destruct H as (v & u3 & -> & Hv & H).
    apply sem_seq_inv in H. destruct H as (q2s & u4 & -> & Hq2 & H).
    apply sem_quotes in Hq2. destruct Hq2 as (q2 & -> & Hq2).
    apply sem_seq_inv in H. destruct H as (mid & p & -> & Hmid & H).
    apply sem_none_of in Hmid; [|simpl; auto].
    apply sem_group_inv in H. apply sem_alt_inv in H.
    exists a, q1, v, q2, mid, p. repeat split; auto.
    destruct H as [H | H]; [left; apply sem_word in H; exact H|].
    right. apply sem_class_disabled in H. exact H.
  - intros (a & q1 & v & q2 & mid & p & -> & Ha & Hq1 & Hv & Hq2 & Hmid & Hp).
    exists a, ([q1] ++ v ++ [q2] ++ mid ++ p)%list. repeat split; auto.
    constructor; [apply sem_quotes; eauto|].
    apply sem_lit_then. exists v, ([q2] ++ mid ++ p)%list. repeat split; auto.
    constructor; [apply sem_quotes; eauto|].
    constructor; [apply sem_none_of; [simpl; auto | exact Hmid]|].
    constructor. destruct Hp as [Hp | Hp].
    + apply sem_alt_left, sem_word. exact Hp.
    + apply sem_alt_right, sem_class_disabled. exact Hp.
Qed.

Lemma test_sizeButton size html :
  test flag_i (sizeButtonPattern size) html = true <-> size_button_disabled size html.
Proof.
  rewrite test_sem. unfold size_button_disabled. split.
  - intros (pre & u & post & Hs & H). apply sem_sizeButton in H.
    destruct H as (a & q1 & v & q2 & mid & p & -> & H).
    exists pre, a, q1, v, q2, mid, p, post. split; [|exact H].
    rewrite Hs, <- !app_assoc. reflexivity.
  - intros (pre & a & q1 & v & q2 & mid & p & post & Hs & H).
    exists pre, (a ++ [q1] ++ v ++ [q2] ++ mid ++ p)%list, post. split.
    + rewrite Hs, <- !app_assoc. reflexivity.
    + apply sem_sizeButton. exists a, q1, v, q2, mid, p. split; [reflexivity | exact H].
Qed.

End VariantTextFacts.

(** ** The first match and the greedy star *)

Module RunFacts.
Import Str Regex Syntax RegexSpec RegexFacts StrSpec StrFacts.
Import RegexSem RegexSemFacts PageText PageTextFacts Run.

Lemma moved_moved x u1 rt1 u2 rt2 :
  moved (moved x u1 rt1) u2 rt2 = moved x (u1 ++ u2) rt2.
Proof.
  unfold moved. simpl. rewrite after_app, length_app. f_equal. lia.
Qed.

Lemma moved_nil x : moved x [] (m_rest x) = x.
Proof. destruct x. reflexivity. Qed.

Lemma filter_all {A} (l : list A) : List.filter (fun _ => true) l = l.
Proof. induction l as [|a l IH]; simpl; [reflexivity | rewrite IH; reflexivity]. Qed.

Lemma clear_no_caps x : clear_caps [] x = x.
Proof.
  destruct x. unfold clear_caps. simpl. f_equal. apply filter_all.
Qed.

Lemma or_else_none a : or_else a (fun _ => None) = a.
Proof. destruct a; reflexivity. Qed.

(** The scan goes on past the positions where no match starts. *)
Lemma scan_skip fl r : forall pre prev pos rt,
  (forall p1 p2, pre = (p1 ++ p2)%list -> p2 <> [] ->
     m fl r Some (start_at prev pos p1 (p2 ++ rt)) = None) ->
  scan fl r prev pos (pre ++ rt)%list
  = scan fl r (after prev pre) (pos + List.length pre) rt.
Proof.
  induction pre as [|c pre IH]; intros prev pos rt H.
  - simpl. rewrite Nat.add_0_r. reflexivity.
  - simpl. pose proof (H [] (c :: pre) eq_refl ltac:(discriminate)) as H0.
    unfold start_at in H0. simpl in H0. rewrite Nat.add_0_r in H0. rewrite H0.
    rewrite IH.
    + f_equal. lia.
    + intros p1 p2 -> Hne. specialize (H (c :: p1) p2 eq_refl Hne).
      unfold start_at in *. simpl in H.
      replace (S pos + List.length p1)%nat with (pos + S (List.length p1))%nat by lia.
      exact H.
Qed.

(** A literal prefix is read unit by unit. *)
Lemma m_lit_then fl tail k : forall w v x rt,
  same_letters fl v w -> m_rest x = (v ++ rt)%list ->
  m fl (lit_then w tail) k x = m fl tail k (moved x v rt).
Proof.
  induction w as [|c w IH]; intros v x rt Hv Hrest; inversion Hv as [|a ? v' ? Ha Hv']; subst.
  - simpl in *. rewrite <- Hrest, moved_nil. reflexivity.
  - simpl. unfold step. rewrite Hrest. simpl.
    rewrite (proj2 (Ascii.eqb_eq _ _) Ha).
    rewrite (IH v' {| m_prev := Some a; m_pos := S (m_pos x); m_rest := (v' ++ rt)%list;
                      m_caps := m_caps x |} rt Hv' eq_refl). f_equal.
    unfold moved. simpl. f_equal. lia.
Qed.

Lemma m_lit_then_fails fl tail k w x :
  (forall v rt, m_rest x = (v ++ rt)%list -> ~ same_letters fl v w) ->
  m fl (lit_then w tail) k x = None.
Proof.
  intros H. destruct (m fl (lit_then w tail) k x) as [z|] eqn:E; [|reflexivity].
  exfalso. apply m_reads_at in E. destruct E as (u & y & Hr & _ & _ & Hu & _).
  apply sem_lit_then in Hu. destruct Hu as (v & u' & -> & Hv & _).
  apply (H v (u' ++ m_rest y)%list); [|exact Hv].
  rewrite Hr, <- app_assoc. reflexivity.
Qed.

Section ClassStar.
Variable fl : flags.
Variable neg : bool.
Variable items : list class_item.
Variable k : cont.

Lemma star_at_end g x : m_rest x = [] -> m fl (Repeat QStar g (Class neg items)) k x = k x.
Proof. simpl. intros ->. reflexivity. Qed.

Lemma star_stop g x c rt :
  m_rest x = c :: rt -> (accepts fl neg items) c = false -> m fl (Repeat QStar g (Class neg items)) k x = k x.
Proof.
  unfold accepts. simpl. intros Hr Hp. rewrite Hr. simpl.
  unfold round, step. simpl. rewrite Hr, Hp.
  destruct g; simpl; [reflexivity | apply or_else_none].
Qed.

Lemma round_more g x c rt :
  m_rest x = c :: rt -> (accepts fl neg items) c = true ->
  round (m fl (Class neg items)) []
    (loop (m fl (Class neg items)) [] g k (List.length rt)) x
  = m fl (Repeat QStar g (Class neg items)) k (moved x [c] rt).
Proof.
  intros Hr Hp. unfold round.
  change (m fl (Class neg items)) with (step (accepts fl neg items)).
  unfold accepts in *.
  rewrite clear_no_caps. unfold step at 1. rewrite Hr, Hp.
  cbn [m_pos m_rest m_prev m_caps].
  replace (Nat.eqb (Datatypes.S (m_pos x)) (m_pos x)) with false
    by (symmetry; apply Nat.eqb_neq; lia).
  reflexivity.
Qed.

Lemma star_greedy_more x c rt :
  m_rest x = c :: rt -> (accepts fl neg items) c = true ->
  m fl (Repeat QStar true (Class neg items)) k x = or_else (m fl (Repeat QStar true (Class neg items)) k (moved x [c] rt)) (fun _ => k x).
Proof.
  intros Hr Hp. rewrite <- (round_more true x c rt Hr Hp).
  simpl. rewrite Hr. reflexivity.
Qed.

Lemma star_lazy_more x c rt :
  m_rest x = c :: rt -> (accepts fl neg items) c = true ->
  m fl (Repeat QStar false (Class neg items)) k x = or_else (k x) (fun _ => m fl (Repeat QStar false (Class neg items)) k (moved x [c] rt)).
Proof.
  intros Hr Hp. rewrite <- (round_more false x c rt Hr Hp).
  simpl. rewrite Hr. reflexivity.
Qed.

(** The greedy star hands over the first success met from the end of
    the run of units it can read. *)
Lemma star_greedy_run : forall w x rt z,
  Forall (fun a => (accepts fl neg items) a = true) w -> m_rest x = (w ++ rt)%list ->
  m fl (Repeat QStar true (Class neg items)) k (moved x w rt) = Some z -> m fl (Repeat QStar true (Class neg items)) k x = Some z.
Proof.
  induction w as [|c w IH]; intros x rt z Hw Hr Hz.
  - simpl in Hr. rewrite <- Hr, moved_nil in Hz. exact Hz.
  - inversion Hw as [|? ? Hc Hw']; subst.
    rewrite (star_greedy_more x c (w ++ rt) Hr Hc).
    rewrite (IH (moved x [c] (w ++ rt)) rt z Hw' eq_refl); [reflexivity|].
    rewrite moved_moved. exact Hz.
Qed.

Lemma star_stops g x : stops (accepts fl neg items) (m_rest x) -> m fl (Repeat QStar g (Class neg items)) k x = k x.
Proof.
  destruct (m_rest x) as [|c rt] eqn:Hr; intros H.
  - apply star_at_end. exact Hr.
  - eapply star_stop; eauto.
Qed.

Lemma star_greedy_all w x rt z :
  Forall (fun a => (accepts fl neg items) a = true) w -> m_rest x = (w ++ rt)%list -> stops (accepts fl neg items) rt ->
  k (moved x w rt) = Some z -> m fl (Repeat QStar true (Class neg items)) k x = Some z.
Proof.
  intros Hw Hr Hs Hz. apply (star_greedy_run w x rt z Hw Hr).
  rewrite star_stops by exact Hs. exact Hz.
Qed.

Lemma star_greedy_back_one w c x rt z :
  Forall (fun a => (accepts fl neg items) a = true) w -> (accepts fl neg items) c = true ->
  m_rest x = (w ++ c :: rt)%list -> stops (accepts fl neg items) rt ->
  k (moved x (w ++ [c]) rt) = None ->
  k (moved x w (c :: rt)) = Some z -> m fl (Repeat QStar true (Class neg items)) k x = Some z.
Proof.
  intros Hw Hc Hr Hs Hnone Hz. apply (star_greedy_run w x (c :: rt) z Hw Hr).
  rewrite (star_greedy_more (moved x w (c :: rt)) c rt eq_refl Hc).
  rewrite moved_moved, star_stops by exact Hs. rewrite Hnone. exact Hz.
Qed.

End ClassStar.

Lemma scan_here fl r prev pos rt y :
  m fl r Some {| m_prev := prev; m_pos := pos; m_rest := rt; m_caps := [] |} = Some y ->
  scan fl r prev pos rt
  = Some {| f_start := pos; f_end := m_pos y; f_caps := m_caps y |}.
Proof. intros H. destruct rt; simpl; rewrite H; reflexivity. Qed.

(** The first match: no match starts in [pre], and one starts after it. *)
Lemma exec_first fl r s pre rt y :
  chars s = (pre ++ rt)%list ->
  (forall p1 p2, pre = (p1 ++ p2)%list -> p2 <> [] ->
     m fl r Some (start_at None 0 p1 (p2 ++ rt)) = None) ->
  m fl r Some (start_at None 0 pre rt) = Some y ->
  exec fl r s
  = Some {| f_start := List.length pre; f_end := m_pos y; f_caps := m_caps y |}.
Proof.
  intros Hs Hskip Hm. unfold exec. rewrite Hs, scan_skip by exact Hskip.
  apply scan_here. exact Hm.
Qed.

Lemma skipn_prefix {A} (pre rt : list A) : skipn (List.length pre) (pre ++ rt) = rt.
Proof. induction pre as [|a pre IH]; simpl; auto. Qed.

Lemma firstn_prefix {A} (u rt : list A) : firstn (List.length u) (u ++ rt) = u.
Proof. induction u as [|a u IH]; simpl; [reflexivity | rewrite IH; reflexivity]. Qed.

Lemma between_pos_middle s pre u post :
  chars s = (pre ++ u ++ post)%list ->
  between_pos s (List.length pre) (List.length u + List.length pre) = str u.
Proof.
  intros Hs. unfold between_pos. rewrite Hs. f_equal.
  rewrite skipn_prefix.
  replace (List.length u + List.length pre - List.length pre)%nat
    with (List.length u) by lia.
  apply firstn_prefix.
Qed.

End RunFacts.

(** ** Where the JSON of an answer is found *)

Module AnswerTextFacts.
Import Str Regex Syntax RegexSpec RegexFacts StrSpec StrFacts.
Import RegexSem RegexSemFacts PageText PageTextFacts VariantText VariantTextFacts.
Import Run RunFacts AIVision AnswerText.

Lemma any_unit a : accepts no_flags false [CEsc Space; CEsc NotSpace] a = true.
Proof. unfold accepts, class_mem, set_mem. simpl. destruct (is_space a); reflexivity. Qed.

Lemma closing_none : forall rt x,
  m_rest x = rt -> none_is "}" rt ->
  m no_flags (Repeat QStar true (Class false [CEsc Space; CEsc NotSpace]))
    (m no_flags (Char "}") Some) x = None.
Proof.
  induction rt as [|c rt IH]; intros x Hr Hn.
  - rewrite star_at_end by exact Hr. simpl. unfold step. rewrite Hr. reflexivity.
  - inversion Hn as [|? ? Hc Hn']; subst.
    rewrite (star_greedy_more _ _ _ _ x c rt Hr (any_unit c)).
    rewrite (IH (moved x [c] rt) eq_refl Hn'). simpl. unfold step. rewrite Hr.
    simpl. change (canon no_flags c) with c. change (canon no_flags "}") with "}"%char.
    rewrite (proj2 (Ascii.eqb_neq _ _) Hc). reflexivity.
Qed.

Lemma closing_last : forall mid x post,
  m_rest x = (mid ++ "}"%char :: post)%list -> none_is "}" post ->
  m no_flags (Repeat QStar true (Class false [CEsc Space; CEsc NotSpace]))
    (m no_flags (Char "}") Some) x
  = Some (moved x (mid ++ ["}"%char]) post).
Proof.
  induction mid as [|c mid IH]; intros x post Hr Hn.
  - simpl in Hr. rewrite (star_greedy_more _ _ _ _ x _ post Hr (any_unit _)).
    rewrite (closing_none post (moved x ["}"%char] post) eq_refl Hn).
    simpl. unfold step. rewrite Hr. reflexivity.
  - simpl in Hr. rewrite (star_greedy_more _ _ _ _ x c _ Hr (any_unit c)).
    rewrite (IH (moved x [c] (mid ++ "}"%char :: post)) post eq_refl Hn).
    simpl. rewrite moved_moved. reflexivity.
Qed.

Lemma jsonMatch_found text pre mid post :
  chars text = (pre ++ "{"%char :: mid ++ "}"%char :: post)%list ->
  none_is "{" pre -> none_is "}" post ->
  jsonMatch text = Some (str ("{"%char :: mid ++ ["}"%char])).
Proof.
  intros Hs Hpre Hpost. unfold jsonMatch.
  rewrite (exec_first no_flags jsonPattern text pre ("{"%char :: mid ++ "}"%char :: post)
             (moved (start_at None 0 pre ("{"%char :: mid ++ "}"%char :: post))
                ("{"%char :: mid ++ ["}"%char]) post)); [| exact Hs | |].
  - unfold matched. cbn [f_start f_end moved m_pos start_at]. f_equal.
    replace (0 + List.length pre)%nat with (List.length pre) by lia.
    apply (between_pos_middle text pre ("{"%char :: mid ++ ["}"%char]) post). rewrite Hs. simpl. rewrite <- app_assoc. reflexivity.
  - intros p1 p2 -> Hne. destruct p2 as [|c p2]; [congruence|].
    apply Forall_app in Hpre. destruct Hpre as [_ Hp2].
    inversion Hp2 as [|? ? Hc _]; subst.
    unfold jsonPattern. simpl. unfold step. simpl.
    change (canon no_flags c) with c. change (canon no_flags "{") with "{"%char.
    rewrite (proj2 (Ascii.eqb_neq _ _) Hc). reflexivity.
  - unfold jsonPattern.
    change (m no_flags (Seq (Char "{") ?r) Some ?x)
      with (step (fun a => Ascii.eqb a "{") (m no_flags r Some) x).
    unfold step, start_at. cbn [m_rest m_pos m_prev m_caps]. rewrite Ascii.eqb_refl.
    change (m no_flags (Seq ?r (Char "}")) Some ?x)
      with (m no_flags r (m no_flags (Char "}") Some) x).
    erewrite (closing_last mid _ post); [| reflexivity | exact Hpost].
    unfold moved. cbn [m_rest m_pos m_prev m_caps]. f_equal. f_equal.
    simpl. rewrite !length_app. simpl. lia.
Qed.

Lemma jsonMatch_none text : jsonMatch text = None <-> ~ has_braces text.
Proof.
  unfold jsonMatch, has_braces. split.
  - intros H (pre & mid & post & Hs).
    assert (Ht : test no_flags jsonPattern text = true).
    { apply test_sem. exists pre, ("{"%char :: mid ++ ["}"%char]), post. split.
      - rewrite Hs. simpl. rewrite <- app_assoc. reflexivity.
      - unfold jsonPattern. change ("{"%char :: mid ++ ["}"%char])
          with (["{"%char] ++ (mid ++ ["}"%char]))%list.
        constructor; [constructor; reflexivity|].
        constructor; [|constructor; reflexivity].
        apply sem_star_class. clear. induction mid; constructor; auto.
        apply any_unit. }
    unfold test in Ht. destruct (exec no_flags jsonPattern text); discriminate.
  - intros H. destruct (exec no_flags jsonPattern text) as [f|] eqn:E; [|reflexivity].
    exfalso. apply H. apply exec_reads in E.
    destruct E as (pre & u & post & Hs & Hl & _).
    simpl in Hl. destruct Hl as (u1 & u2 & -> & (a & -> & Ha) & u3 & u4 & -> & _ & (b & -> & Hb)).
    unfold canon in Ha, Hb. simpl in Ha, Hb. subst a b.
    exists pre, u3, post. rewrite Hs. simpl. rewrite <- app_assoc. reflexivity.
Qed.

End AnswerTextFacts.

(** ** Properties of the markup classifier *)

Module StockCheckerFacts.
Import Str Regex Syntax StockChecker RegexSpec StrSpec Samples RegexFacts StrFacts.
Import RegexSem RegexSemFacts PageText PageTextFacts VariantText VariantTextFacts.

(** *** The whole-product classifier returns, with a status *)

Lemma parseStockStatus_total engine html :
  classify engine html None = Returns in_stock
  \/ classify engine html None = Returns few_left
  \/ classify engine html None = Returns unavailable.
Proof. simpl. destruct (parseStockStatus html); auto. Qed.

(** The two fields read in the variant descriptor never throw: when the
    pattern matches, its group took part in the match. *)
Lemma variantField_returns pattern variant :
  ends_with_group 1 pattern = true ->
  exists v, variantField pattern variant = Returns v.
Proof.
  intros He. unfold variantField.
  destruct (exec flag_i pattern variant) as [f|] eqn:Hx; [|eauto].
  destruct (capture_defined _ _ _ _ _ He Hx) as (v & ->). eauto.
Qed.

Lemma sizeField_returns variant :
  exists v, variantField sizePattern variant = Returns v.
Proof. apply variantField_returns. reflexivity. Qed.

Lemma colorField_returns variant :
  exists v, variantField colorPattern variant = Returns v.
Proof. apply variantField_returns. reflexivity. Qed.

(** C1 (the classifier can throw).  The claim is that classification
    never throws, for every page and every variant descriptor.  The
    size read in the descriptor is pasted as it is into the text of a
    pattern: for the descriptor [Size: *] that text starts with a
    quantifier, [new RegExp] throws its [SyntaxError], nothing catches
    it inside the classifier, and no status is returned, whatever the
    page. *)
Theorem variant_size_star_throws (engine : Engine) (html : string) :
  parseVariantStock engine html "Size: *" = Throws RegExpSyntaxError
  /\ classify engine html (Some "Size: *") = Throws RegExpSyntaxError.
Proof. split; vm_compute; reflexivity. Qed.

(** Other sizes whose pattern is no pattern: an open or a stray
    parenthesis, a doubled quantifier. *)
Lemma other_sizes_throw (engine : Engine) (html : string) :
  parseVariantStock engine html "Size: (" = Throws RegExpSyntaxError
  /\ parseVariantStock engine html "Size: M)" = Throws RegExpSyntaxError
  /\ parseVariantStock engine html "Size: C++, Color: Black" = Throws RegExpSyntaxError
  /\ parseVariantStock engine html "Size: ?" = Throws RegExpSyntaxError.
Proof. repeat split; vm_compute; reflexivity. Qed.




(** In the older copy the phrases are looked for before the structured
    data is read: the same page is [unavailable] there. *)
Lemma legacy_phrase_first :
  Legacy.parseStockStatus page_in_stock_and_sold_out = unavailable.
Proof. vm_compute. reflexivity. Qed.

(** *** Variants *)

(** What [parseVariantStock] can return. *)
Lemma parseVariantStock_returns engine html variant s :
  parseVariantStock engine html variant = Returns s ->
  s = unavailable \/ s = parseStockStatus html.
Proof.
  unfold parseVariantStock. intros H.
  split_bind H. split_bind H.
  destruct a as [size|]; [|injection H as <-; auto].
  destruct (is_empty size); [injection H as <-; auto|].
  split_bind H.
  destruct (testRegExp _ html); [injection H as <-; auto|].
  split_bind H.
  destruct (testRegExp _ html); injection H as <-; auto.
Qed.

(** The outcomes of [parseVariantStock]: a status, or the [SyntaxError]
    of a pattern built from the size.  No member is ever read on
    [undefined]. *)
Lemma parseVariantStock_outcomes engine html variant :
  (exists s, parseVariantStock engine html variant = Returns s)
  \/ parseVariantStock engine html variant = Throws RegExpSyntaxError.
Proof.
  unfold parseVariantStock.
  destruct (sizeField_returns variant) as (size & ->).
  destruct (colorField_returns variant) as (color & ->). simpl.
  destruct size as [size|]; [|eauto].
  destruct (is_empty size); [eauto|].
  assert (Hnew : forall src,
            (exists p, newRegExp engine src = Returns p)
            \/ newRegExp engine src = Throws RegExpSyntaxError).
  { intros src. unfold newRegExp.
    destruct (compile src); eauto. destruct (engine src); eauto. }
  destruct (Hnew (sizeUnavailable_src size)) as [(p & ->) | ->]; simpl; auto.
  destruct (testRegExp p html); [eauto|].
  destruct (Hnew (sizeButton_src size)) as [(p' & ->) | ->]; simpl; auto.
  destruct (testRegExp p' html); eauto.
Qed.

(** What [parseVariantStock] does once the size is read and holds no
    syntax character of patterns. *)
Lemma parseVariantStock_plain engine html variant size :
  variantField sizePattern variant = Returns (Some size) ->
  plain_text size = true ->
  parseVariantStock engine html variant =
  Returns (if is_empty size then parseStockStatus html
           else if test flag_i (sizeUnavailablePattern size) html then unavailable
           else if test flag_i (sizeButtonPattern size) html then unavailable
           else parseStockStatus html).
Proof.
  intros Hsize Hp. unfold parseVariantStock. rewrite Hsize. simpl.
  destruct (colorField_returns variant) as (c & ->). simpl.
  destruct (is_empty size); [reflexivity|].
  unfold newRegExp. rewrite compile_sizeUnavailable by exact Hp. simpl.
  destruct (test flag_i (sizeUnavailablePattern size) html); [reflexivity|].
  rewrite compile_sizeButton by exact Hp. simpl.
  destruct (test flag_i (sizeButtonPattern size) html); reflexivity.
Qed.

(** C5.  The claim is that, for every page and every variant descriptor,
    classification with the variant returns [unavailable] through a mark
    of that variant, or else equals the whole-product classification of
    the page.  The code breaks it on the descriptor [Size: *], by the
    defect of C1: no status is returned there, so neither alternative
    holds, whatever the page.  Where the size read in the descriptor
    holds no syntax character of patterns, the code does what the claim
    says, and [unavailable] is tied to the variant: it is returned exactly
    when the page holds the size followed, before any [<], by one of
    [out of stock], [sold out], [unavailable], [disabled], or holds
    [data-size=] with the size in quotes followed, before any [>], by
    [disabled] or by a [class] attribute with [disabled] in it;
    otherwise the whole-product status is returned, so a whole-product
    [unavailable] or [few_left] is never turned into something milder.
    For every descriptor the outcome is one of three: [unavailable], the
    whole-product status, or the [SyntaxError] of C1. *)
Theorem variant_narrowing_breaks (engine : Engine) (html : string) :
  (parseVariantStock engine html "Size: *" <> Returns unavailable
   /\ parseVariantStock engine html "Size: *" <> Returns (parseStockStatus html))
  /\ (forall variant size : string,
        variantField sizePattern variant = Returns (Some size) ->
        plain_text size = true ->
        is_empty size = false ->
        (parseVariantStock engine html variant = Returns unavailable
         /\ (size_marked size html \/ size_button_disabled size html))
        \/ (parseVariantStock engine html variant = Returns (parseStockStatus html)
            /\ ~ size_marked size html /\ ~ size_button_disabled size html))
  /\ (forall variant : string,
        parseVariantStock engine html variant = Returns unavailable
        \/ parseVariantStock engine html variant = Returns (parseStockStatus html)
        \/ parseVariantStock engine html variant = Throws RegExpSyntaxError).
Proof.
  split; [|split].
  - assert (H : parseVariantStock engine html "Size: *" = Throws RegExpSyntaxError)
      by (vm_compute; reflexivity).
    rewrite H. split; discriminate.
  - intros variant size Hsize Hp He.
    rewrite (parseVariantStock_plain _ _ _ _ Hsize Hp), He.
    rewrite <- test_sizeUnavailable, <- test_sizeButton.
    destruct (test flag_i (sizeUnavailablePattern size) html); [left; auto|].
    destruct (test flag_i (sizeButtonPattern size) html); [left; auto|].
    right. repeat split; discriminate.
  - intros variant.
    destruct (parseVariantStock_outcomes engine html variant) as [(s & Hs) | Ht];
      [|auto].
    destruct (parseVariantStock_returns _ _ _ _ Hs) as [-> | ->]; auto.
Qed.

(** The example of the specification: the size selector of L carries a
    disabled mark on a page that is in stock as a whole; the size M, which
    no element of the page carries, falls back to the whole-product
    status. *)
Lemma variant_narrowing_breaks_witness :
  parseStockStatus page_size_L_disabled = in_stock
  /\ parseVariantStock no_engine page_size_L_disabled "Size: L" = Returns unavailable
  /\ parseVariantStock no_engine page_size_L_disabled "Size: M"
     = Returns (parseStockStatus page_size_L_disabled).
Proof.
  split; [vm_compute; reflexivity|]. split.
  - destruct (proj1 (proj2 (variant_narrowing_breaks no_engine page_size_L_disabled))
                "Size: L" "L" ltac:(vm_compute; reflexivity)
                ltac:(vm_compute; reflexivity) ltac:(vm_compute; reflexivity))
      as [[H _] | [H _]]; [exact H|].
    vm_compute in H. discriminate H.
  - destruct (proj1 (proj2 (variant_narrowing_breaks no_engine page_size_L_disabled))
                "Size: M" "M" ltac:(vm_compute; reflexivity)
                ltac:(vm_compute; reflexivity) ltac:(vm_compute; reflexivity))
      as [[H _] | [H _]]; [|exact H].
    vm_compute in H. discriminate H.
Defined.

(** A descriptor in which [size:] is not written, in any letter case,
    has no size. *)
Lemma variant_without_size_label variant :
  includes (toLowerCase variant) "size:" = false ->
  variantField sizePattern variant = Returns None.
Proof.
  intros Hno. unfold variantField.
  destruct (exec flag_i sizePattern variant) as [f|] eqn:E; [exfalso|reflexivity].
  assert (Ht : test flag_i sizePattern variant = true) by (unfold test; rewrite E; reflexivity).
  apply (test_holds flag_i sizePattern (chars "Size:")) in Ht; [|vm_compute; reflexivity].
  destruct Ht as (pre & v & post & Hs & Hv).
  assert (Hl : map lower_char v = chars "size:").
  { change (chars "size:") with (map lower_char (chars "Size:")).
    clear Hs. induction Hv as [|a c v w Hac Hvw IH]; [reflexivity|].
    simpl. f_equal; [apply upper_char_lower; exact Hac | exact IH]. }
  rewrite (includes_complete (toLowerCase variant) "size:"
             (map lower_char pre) (map lower_char post)) in Hno; [discriminate|].
  unfold toLowerCase. rewrite chars_str, Hs, !map_app, Hl. reflexivity.
Qed.

(** C10.  When no size is read in the variant descriptor (the size
    pattern does not match, or what it captures is blank), classification
    with the descriptor is whole-product classification: the colour, read
    by [variantField colorPattern], is used by nothing. *)
Theorem variant_without_size (engine : Engine) (html variant : string) :
  variantField sizePattern variant = Returns None
  \/ variantField sizePattern variant = Returns (Some "") ->
  parseVariantStock engine html variant = Returns (parseStockStatus html).
Proof.
  intros H. unfold parseVariantStock.
  destruct (colorField_returns variant) as (color & Hc). rewrite Hc.
  destruct H as [-> | ->]; reflexivity.
Qed.

Lemma variant_without_size_witness :
  parseVariantStock no_engine page_size_L_disabled "Color: Black"
  = Returns (parseStockStatus page_size_L_disabled).
Proof.
  apply (variant_without_size no_engine page_size_L_disabled "Color: Black").
  left. vm_compute. reflexivity.
Defined.

(** Two descriptors with the same size are classified alike, whatever
    their colours. *)
Lemma colour_not_consulted engine html variant variant' :
  variantField sizePattern variant = variantField sizePattern variant' ->
  parseVariantStock engine html variant = parseVariantStock engine html variant'.
Proof.
  intros H. unfold parseVariantStock. rewrite H.
  destruct (colorField_returns variant) as (c & ->).
  destruct (colorField_returns variant') as (c' & ->).
  reflexivity.
Qed.

(** *** The unavailability phrases *)








(** *** The marketplace phrases *)

(** C4 as stated fails: [page_buying_options] advertises other sellers
    next to a disabled [Add to Cart], and is [unavailable]. *)
Lemma marketplace_not_checked : ~ Stated.marketplace_override.
Proof.
  intros H. specialize (H page_buying_options ltac:(vm_compute; reflexivity)).
  vm_compute in H. discriminate H.
Qed.

(** C4 (as the code has it).  The marketplace check is the first step of
    the older copy of the classifier: a page that holds one of the two
    phrases, in any letter case, is [in_stock] there, whatever else it
    holds.  The classifier of today has no such step. *)
Theorem legacy_marketplace_override (html : string) :
  includes (toLowerCase html) "see all buying options" = true
  \/ includes (toLowerCase html) "other sellers on amazon" = true ->
  Legacy.parseStockStatus html = in_stock.
Proof.
  intros H. unfold Legacy.parseStockStatus.
  destruct H as [-> | ->]; [reflexivity|].
  rewrite orb_true_r. reflexivity.
Qed.

Lemma legacy_marketplace_override_witness :
  Legacy.hasDisabledButton (toLowerCase page_buying_options) = true
  /\ Legacy.parseStockStatus page_buying_options = in_stock.
Proof.
  split; [vm_compute; reflexivity|].
  apply (legacy_marketplace_override page_buying_options).
  left. vm_compute. reflexivity.
Defined.

(** *** The disabled marks *)

Lemma same_letters_small v w :
  same_letters flag_i v w -> no_capital v -> small_letters w -> v = w.
Proof.
  unfold same_letters, no_capital, small_letters.
  induction 1 as [|a c v w Hac Hvw IH]; intros Hv Hw; [reflexivity|].
  apply List.Forall_cons_iff in Hv. apply List.Forall_cons_iff in Hw.
  destruct Hv as [Ha Hv]. destruct Hw as [Hc Hw].
  f_equal; [|apply IH; assumption].
  apply upper_char_small; assumption.
Qed.

(** Every mark the pattern of [hasDisabledButton] looks for holds the word
    [disabled]: a text without capitals in which the pattern is found
    holds that word. *)
Lemma disabledPattern_found section :
  no_capital (chars section) ->
  test flag_i disabledPattern section = true ->
  exists j, occurs_at "disabled" section j.
Proof.
  intros Hcap Ht.
  apply (test_holds flag_i disabledPattern (chars "disabled")) in Ht;
    [|vm_compute; reflexivity].
  destruct Ht as (pre & v & post & Hs & Hv).
  assert (v = chars "disabled") as ->.
  { apply same_letters_small; [exact Hv | |].
    - rewrite Hs in Hcap. apply no_capital_app in Hcap. destruct Hcap as [_ Hcap].
      apply no_capital_app in Hcap. tauto.
    - repeat constructor. }
  exists (Z.of_nat (List.length pre)), pre, post. auto.
Qed.

(** The window and the flag, when [add to cart] is on the page. *)
Lemma no_disabled_in_window lowerHtml :
  no_capital (chars lowerHtml) ->
  includes lowerHtml "add to cart" = true ->
  (forall p, occurs_at "disabled" lowerHtml p ->
             ~ Stated.in_window lowerHtml (indexOf lowerHtml "add to cart") p) ->
  hasDisabledButton lowerHtml = false.
Proof.
  intros Hcap Hinc Hout. unfold hasDisabledButton.
  destruct (hasAddToCart lowerHtml); [|reflexivity].
  destruct (test flag_i disabledPattern (buttonSection lowerHtml)) eqn:Ht;
    [exfalso|reflexivity].
  apply includes_indexOf in Hinc. destruct Hinc as [Hi _].
  unfold buttonSection in Ht.
  apply disabledPattern_found in Ht; [|apply substring_no_capital; exact Hcap].
  destruct Ht as (j & Hj).
  assert (Hj0 : 0 <= j) by (destruct Hj as (pre & _ & _ & <-); lia).
  apply substring_occurs in Hj; [|lia..].
  destruct Hj as [Hocc Hend].
  apply (Hout _ Hocc). unfold Stated.in_window.
  change (length "disabled") with 8 in Hend. lia.
Qed.

(** On [page_far_disabled "Buy Now"] the purchase phrase is [buy now],
    the one [disabled] of the page is more than 1500 units before it, and
    the flag is set: the window is laid around the index of [add to
    cart], which is -1 on this page, so it is the first 1499 units of the
    page. *)
Lemma disabled_window_not_around_affordance :
  ~ Stated.disabled_windowed_around_affordance.
Proof.
  intros H.
  specialize (H (page_far_disabled "Buy Now") "buy now").
  assert (Hflag : hasDisabledButton (toLowerCase (page_far_disabled "Buy Now")) = true)
    by (vm_compute; reflexivity).
  rewrite H in Hflag; [discriminate Hflag | | |].
  - simpl. tauto.
  - vm_compute. reflexivity.
  - intros p Hp. apply occurs_at_listed in Hp.
    vm_compute in Hp. destruct Hp as [<- | []].
    vm_compute. intros [Hle _]. apply Hle. reflexivity.
Qed.

Lemma substring_head s n : substring s 0 (Z.min (length s) n) = substring s 0 n.
Proof.
  unfold substring, clamp.
  assert (H : 0 <= length s) by (unfold length; lia).
  replace (Z.max 0 (Z.min (Z.min (length s) n) (length s)))
    with (Z.max 0 (Z.min n (length s))) by lia.
  reflexivity.
Qed.

(** C8.  The claim is that the disabled marks count only within 1500
    units before and after the first occurrence of the purchase phrase.
    The code does so on a page that holds [add to cart], in any letter
    case: when no [disabled] of the page lies inside that window the flag
    is not set, and the page is [unavailable] only if the structured data
    or an unavailability phrase says so.  It breaks the claim on a page
    whose purchase phrase is another one ([add to bag], [add to basket],
    [buy now], [purchase]): the window is laid around the index of [add
    to cart], which is -1 there, so the text searched is the first 1499
    units of the page, wherever the purchase phrase stands, and the flag
    is set exactly when [disabled] occurs in those units. *)
Theorem disabled_detection_windowed (html : string) :
  (includes (toLowerCase html) "add to cart" = true ->
   (forall p, occurs_at "disabled" (toLowerCase html) p ->
              ~ Stated.in_window (toLowerCase html)
                  (indexOf (toLowerCase html) "add to cart") p) ->
   hasDisabledButton (toLowerCase html) = false
   /\ (parseStockStatus html = unavailable ->
       checkStructuredData html = Some unavailable
       \/ test flag_i outOfStockPattern html = true))
  /\ (includes (toLowerCase html) "add to cart" = false ->
      hasAddToCart (toLowerCase html) = true ->
      buttonSection (toLowerCase html) = substring (toLowerCase html) 0 1499
      /\ hasDisabledButton (toLowerCase html)
         = includes (substring (toLowerCase html) 0 1499) "disabled").
Proof.
  split.
  - intros Hinc Hout.
    assert (Hflag : hasDisabledButton (toLowerCase html) = false).
    { apply no_disabled_in_window; auto. apply toLowerCase_no_capital. }
    split; [exact Hflag|].
    unfold parseStockStatus. cbv zeta. rewrite Hflag.
    destruct (checkStructuredData html) as [st|]; [intros ->; auto|].
    destruct (test flag_i outOfStockPattern html); [auto|].
    destruct (test flag_i lowStockPattern html); [discriminate|].
    destruct (hasAddToCart (toLowerCase html)); discriminate.
  - intros Hno Hbuy.
    assert (Hi : indexOf (toLowerCase html) "add to cart" = -1).
    { unfold includes in Hno. apply negb_false_iff in Hno. apply Z.eqb_eq in Hno.
      exact Hno. }
    assert (Hsec : buttonSection (toLowerCase html) = substring (toLowerCase html) 0 1499).
    { unfold buttonSection. rewrite Hi. cbv zeta.
      change (Z.max 0 (-1 - 1500)) with 0. change (-1 + 1500) with 1499.
      apply substring_head. }
    split; [exact Hsec|].
    rewrite hasDisabledButton_plain, Hbuy, Hsec. reflexivity.
Qed.

(** The same page with the two purchase phrases: the one [disabled]
    stands 2027 units before the phrase.  With [Add to Cart] the flag is
    not set and the page is [in_stock]; with [Buy Now] the flag is set
    and the page is [unavailable]. *)
Lemma disabled_detection_windowed_witness :
  (occurrences "disabled" (toLowerCase (page_far_disabled "Add to Cart")) = [8]
   /\ indexOf (toLowerCase (page_far_disabled "Add to Cart")) "add to cart" = 2035
   /\ parseStockStatus (page_far_disabled "Add to Cart") = in_stock
   /\ hasDisabledButton (toLowerCase (page_far_disabled "Add to Cart")) = false)
  /\ (occurrences "disabled" (toLowerCase (page_far_disabled "Buy Now")) = [8]
      /\ indexOf (toLowerCase (page_far_disabled "Buy Now")) "buy now" = 2035
      /\ parseStockStatus (page_far_disabled "Buy Now") = unavailable
      /\ hasDisabledButton (toLowerCase (page_far_disabled "Buy Now")) = true).
Proof.
  split.
  - split; [vm_compute; reflexivity|]. split; [vm_compute; reflexivity|].
    split; [vm_compute; reflexivity|].
    apply (proj1 (disabled_detection_windowed (page_far_disabled "Add to Cart"))).
    + vm_compute. reflexivity.
    + intros p Hp. apply occurs_at_listed in Hp.
      vm_compute in Hp. destruct Hp as [<- | []].
      vm_compute. intros [Hle _]. apply Hle. reflexivity.
  - split; [vm_compute; reflexivity|]. split; [vm_compute; reflexivity|].
    split; [vm_compute; reflexivity|].
    rewrite (proj2 (proj2 (disabled_detection_windowed (page_far_disabled "Buy Now"))
                      ltac:(vm_compute; reflexivity) ltac:(vm_compute; reflexivity))).
    vm_compute. reflexivity.
Defined.

End StockCheckerFacts.

(** ** Properties of the parsing of the model's answer *)

Module AIVisionFacts.
Import Str Regex AIVision Answers RegexSpec RegexFacts StrFacts.

(** What [jsonMatch] takes out of a text is a part of that text. *)
Lemma jsonMatch_part text json :
  jsonMatch text = Some json ->
  exists pre post, chars text = (pre ++ chars json ++ post)%list.
Proof.
  unfold jsonMatch. destruct (exec no_flags jsonPattern text) as [f|]; [|discriminate].
  intros [= <-]. unfold matched, between_pos. rewrite chars_str.
  exists (firstn (f_start f) (chars text)),
         (skipn (f_end f - f_start f) (skipn (f_start f) (chars text))).
  rewrite firstn_skipn, firstn_skipn. reflexivity.
Qed.

Lemma tryParseStock_cases response :
  (exists e, tryParseStock response = inl e)
  \/ (exists text rest json parsed s,
        response = TextBlock text :: rest
        /\ jsonMatch text = Some json
        /\ Json.parse json = Some parsed
        /\ validStatus (Json.member parsed "status") = Some s
        /\ tryParseStock response =
           inr {| status := s;
                  confidence := or_default (Json.member parsed "confidence") "medium";
                  reasoning := Given (Some (or_default (Json.member parsed "reasoning")
                                              "No reasoning provided")) |}).
Proof.
  unfold tryParseStock, parsedAnswer.
  destruct response as [|[text|] rest]; [left; eauto | | left; eauto].
  destruct (jsonMatch text) as [json|] eqn:Hm; [|left; eauto].
  destruct (Json.parse json) as [parsed|] eqn:Hp; [|left; eauto].
  destruct parsed; simpl; try (left; eauto; fail).
  destruct (validStatus (Json.field (Json.units "status") fields)) as [s|] eqn:Hv.
  - right. exists text, rest, json, (Json.JObject fields), s. repeat split; auto.
  - left. eauto.
Qed.

Lemma tryParseVariants_cases response :
  (exists e, tryParseVariants response = inl e)
  \/ (exists text rest json parsed items,
        response = TextBlock text :: rest
        /\ jsonMatch text = Some json
        /\ Json.parse json = Some parsed
        /\ Json.member parsed "variants" = Some (Json.JArray items)
        /\ tryParseVariants response =
           inr {| variants := items;
                  v_confidence := or_default (Json.member parsed "confidence") "medium";
                  v_reasoning := Given (Json.member parsed "reasoning") |}).
Proof.
  unfold tryParseVariants, parsedAnswer.
  destruct response as [|[text|] rest]; [left; eauto | | left; eauto].
  destruct (jsonMatch text) as [json|] eqn:Hm; [|left; eauto].
  destruct (Json.parse json) as [parsed|] eqn:Hp; [|left; eauto].
  destruct parsed; simpl; try (left; eauto; fail).
  destruct (Json.field (Json.units "variants") fields) as [[ | | | |items| ]|] eqn:Hv;
    try (left; eauto; fail).
  right. exists text, rest, json, (Json.JObject fields), items. repeat split; auto.
Qed.

Lemma stock_degrades response :
  (forall text rest json parsed,
     response = TextBlock text :: rest ->
     jsonMatch text = Some json -> Json.parse json = Some parsed ->
     validStatus (Json.member parsed "status") = None) ->
  exists e, parseStockResponse response = degradedStock e.
Proof.
  intros H. unfold parseStockResponse.
  destruct (tryParseStock_cases response)
    as [(e & ->) | (text & rest & json & parsed & s & Hr & Hm & Hp & Hv & _)].
  - exists e. reflexivity.
  - rewrite (H _ _ _ _ Hr Hm Hp) in Hv. discriminate Hv.
Qed.

Lemma variants_degrades response :
  (forall text rest json parsed,
     response = TextBlock text :: rest ->
     jsonMatch text = Some json -> Json.parse json = Some parsed ->
     is_array (Json.member parsed "variants") = false) ->
  exists e, parseVariantResponse response = degradedVariants e.
Proof.
  intros H. unfold parseVariantResponse.
  destruct (tryParseVariants_cases response)
    as [(e & ->) | (text & rest & json & parsed & items & Hr & Hm & Hp & Hv & _)].
  - exists e. reflexivity.
  - specialize (H _ _ _ _ Hr Hm Hp). rewrite Hv in H. discriminate H.
Qed.



(** The same on a text no part of which is JSON. *)
Lemma no_json_degrades text rest :
  (forall pre part post,
     chars text = (pre ++ chars part ++ post)%list -> Json.parse part = None) ->
  (exists e, parseStockResponse (TextBlock text :: rest) = degradedStock e)
  /\ (exists e, parseVariantResponse (TextBlock text :: rest) = degradedVariants e).
Proof.
  intros H.
  assert (Hno : forall text' rest' json parsed,
            TextBlock text :: rest = TextBlock text' :: rest' ->
            jsonMatch text' = Some json -> Json.parse json = Some parsed -> False).
  { intros text' rest' json parsed [= <- _] Hm Hp.
    destruct (jsonMatch_part _ _ Hm) as (pre & post & Hpart).
    rewrite (H _ _ _ Hpart) in Hp. discriminate Hp. }
  split.
  - apply stock_degrades. intros. exfalso. eauto.
  - apply variants_degrades. intros. exfalso. eauto.
Qed.

Lemma degraded_examples :
  parseStockResponse answer_prose = degradedStock NoJsonFound
  /\ parseStockResponse answer_unquoted = degradedStock JsonSyntaxError
  /\ parseStockResponse answer_bad_status
     = degradedStock (InvalidStatus (Some (text_value "sold_out")))
  /\ parseStockResponse [] = degradedStock NoContent
  /\ parseStockResponse [OtherBlock] = degradedStock UnexpectedResponseType
  /\ parseVariantResponse answer_prose = degradedVariants NoJsonFound
  /\ parseVariantResponse answer_bad_variants = degradedVariants VariantsNotArray.
Proof. vm_compute. repeat split. Qed.

(** On the answer [answer_certain], which is well formed, the confidence
    is the string [certain], and that is the confidence of both results:
    none of the three labels. *)
Lemma confidence_not_validated : ~ confidence_validated.
Proof.
  intros H. destruct (H answer_certain) as [Hs _].
  vm_compute in Hs. destruct Hs as [Hs | [Hs | Hs]]; discriminate Hs.
Qed.

(** C9.  The claim is that the confidence of a result is one of [high],
    [medium], [low], the parser checking what the model supplied; the
    result types of the code declare the field so.  The code does not
    check it.  The confidence of a result is [low] when the answer is
    malformed; otherwise it is the [confidence] of the parsed answer as it
    stands, whatever value that is, and [medium] when the answer has none,
    or one that counts as false (null, false, zero, the empty string).
    Nothing compares it with the three labels, while the status next to
    it is compared with its three values. *)
Theorem confidence_transported (response : Message) :
  (forall e, tryParseStock response = inl e ->
             confidence (parseStockResponse response) = text_value "low")
  /\ (forall r parsed, tryParseStock response = inr r ->
        parsedAnswer response = inr parsed ->
        confidence (parseStockResponse response)
        = or_default (Json.member parsed "confidence") "medium")
  /\ (forall e, tryParseVariants response = inl e ->
                v_confidence (parseVariantResponse response) = text_value "low")
  /\ (forall r parsed, tryParseVariants response = inr r ->
        parsedAnswer response = inr parsed ->
        v_confidence (parseVariantResponse response)
        = or_default (Json.member parsed "confidence") "medium").
Proof.
  unfold parseStockResponse, parseVariantResponse, tryParseStock, tryParseVariants.
  repeat split.
  - intros e ->. reflexivity.
  - intros r parsed Hr Hp. rewrite Hp in *.
    destruct (read parsed "status") as [e|st]; [discriminate|].
    destruct (validStatus st); [|discriminate]. reflexivity.
  - intros e ->. reflexivity.
  - intros r parsed Hr Hp. rewrite Hp in *.
    destruct (read parsed "variants") as [e|[[ | | | |items| ]|]];
      try discriminate. reflexivity.
Qed.

Lemma confidence_transported_witness :
  confidence (parseStockResponse answer_certain) = text_value "certain"
  /\ v_confidence (parseVariantResponse answer_certain) = text_value "certain".
Proof.
  destruct (confidence_transported answer_certain) as (_ & Hs & _ & Hv).
  split.
  - rewrite (Hs (match tryParseStock answer_certain with
                 | inr r => r | inl e => degradedStock e end)
                (match parsedAnswer answer_certain with
                 | inr v => v | inl _ => Json.JNull end));
      vm_compute; reflexivity.
  - rewrite (Hv (match tryParseVariants answer_certain with
                 | inr r => r | inl e => degradedVariants e end)
                (match parsedAnswer answer_certain with
                 | inr v => v | inl _ => Json.JNull end));
      vm_compute; reflexivity.
Defined.

End AIVisionFacts.

(** ** Properties of the response cache *)

Module CacheFacts.
Import Cache.

Section WithResult.
Context {Result : Type}.
Implicit Types (cache : gmap string (entry Result)) (e : entry Result).

Lemma getFromCache_hit now key cache v cache' :
  getFromCache now key cache = (Some v, cache') ->
  exists e, cache !! key = Some e /\ result e = v
            /\ now - timestamp e <= CACHE_TTL /\ cache' = cache.
Proof.
  unfold getFromCache. destruct (cache !! key) as [e|]; [|discriminate].
  cbv zeta. case_bool_decide as Hx; [discriminate|]. intros [= <- <-].
  exists e. repeat split; auto; lia.
Qed.

Lemma getFromCache_expired now key cache e :
  cache !! key = Some e -> expired now e ->
  getFromCache now key cache = (None, delete key cache).
Proof.
  intros H He. unfold getFromCache. rewrite H. cbv zeta.
  rewrite bool_decide_eq_true_2; [reflexivity | exact He].
Qed.

Lemma getFromCache_keeps now key cache k e :
  cache !! k = Some e -> ~ expired now e ->
  (getFromCache now key cache).2 !! k = Some e.
Proof.
  intros H He. unfold getFromCache.
  destruct (cache !! key) as [e'|] eqn:E; [|exact H].
  cbv zeta. case_bool_decide as Hx; [|exact H]. simpl.
  destruct (decide (key = k)) as [-> | Hne].
  - rewrite H in E. injection E as <-. contradiction.
  - rewrite lookup_delete_ne; auto.
Qed.

(** The sweep removes the expired entries, and nothing else. *)
Lemma sweep_lookup now cache k :
  sweep now cache !! k =
  match cache !! k with
  | Some e => if bool_decide (expired now e) then None else Some e
  | None => None
  end.
Proof.
  unfold sweep. destruct (cache !! k) as [e|] eqn:E.
  - case_bool_decide as Hx.
    + apply map_lookup_filter_None. right. intros e' He'.
      rewrite E in He'. injection He' as <-. simpl. auto.
    + apply map_lookup_filter_Some. split; [exact E | exact Hx].
  - apply map_lookup_filter_None. left. exact E.
Qed.

Lemma setCache_lookup now sweepNow key r cache k :
  setCache now sweepNow key r cache !! k =
  let stored := <[key := {| result := r; timestamp := now |}]> cache in
  if bool_decide (100 < size stored)%nat
  then match stored !! k with
       | Some e => if bool_decide (expired sweepNow e) then None else Some e
       | None => None
       end
  else stored !! k.
Proof.
  unfold setCache. cbv zeta.
  case_bool_decide as Hsize; [apply sweep_lookup | reflexivity].
Qed.

Lemma setCache_stores now sweepNow key r cache :
  sweepNow - now <= CACHE_TTL ->
  setCache now sweepNow key r cache !! key = Some {| result := r; timestamp := now |}.
Proof.
  intros H. rewrite setCache_lookup. cbv zeta. rewrite lookup_insert_eq.
  case_bool_decide as Hsize; [|reflexivity].
  rewrite bool_decide_eq_false_2; [reflexivity|].
  unfold expired. simpl. lia.
Qed.

Lemma setCache_keeps now sweepNow key r cache k e :
  k <> key -> cache !! k = Some e -> ~ expired sweepNow e ->
  setCache now sweepNow key r cache !! k = Some e.
Proof.
  intros Hne H He. rewrite setCache_lookup. cbv zeta.
  rewrite lookup_insert_ne by auto. rewrite H.
  case_bool_decide as Hsize; [|reflexivity].
  rewrite bool_decide_eq_false_2; auto.
Qed.

(** What is in the cache was put there, at the time it is stamped with. *)
Lemma step_entries cache o k e :
  step cache o !! k = Some e ->
  cache !! k = Some e
  \/ exists sweepNow, o = Put (timestamp e) sweepNow k (result e).
Proof.
  destruct o as [now key | now sweepNow key r]; simpl.
  - unfold getFromCache. destruct (cache !! key) as [e'|]; [|auto].
    cbv zeta. case_bool_decide as Hx; simpl; [|auto].
    intros H. apply lookup_delete_Some in H. tauto.
  - rewrite setCache_lookup. cbv zeta. intros H.
    assert (H' : <[key := {| result := r; timestamp := now |}]> cache !! k = Some e).
    { case_bool_decide as Hsize; [|exact H].
      destruct (<[key := _]> cache !! k) as [e'|]; [|discriminate].
      case_bool_decide as Hx; [discriminate | exact H]. }
    destruct (decide (key = k)) as [-> | Hne].
    + rewrite lookup_insert_eq in H'. injection H' as <-. right. eauto.
    + rewrite lookup_insert_ne in H' by auto. auto.
Qed.

Lemma run_entries (ops : list (op Result)) k e :
  run ops !! k = Some e ->
  exists sweepNow, In (Put (timestamp e) sweepNow k (result e)) ops.
Proof.
  revert k e. induction ops as [|o ops IH] using rev_ind; intros k e.
  - unfold run. simpl. rewrite lookup_empty. discriminate.
  - unfold run. rewrite fold_left_app. simpl. intros H.
    apply step_entries in H. destruct H as [H | (s & ->)].
    + destruct (IH _ _ H) as (s & Hs). exists s. apply in_or_app. auto.
    + exists s. apply in_or_app. right. simpl. auto.
Qed.

(** C7.  After any run of reads and writes: a read returns a value only
    if that value was written under that key no more than the five
    minutes of the time to live before, and it leaves the cache as it is;
    a read of an expired entry returns nothing and deletes the entry; a
    write stores the value with the time of the write; when more than 100
    entries are then in the cache, exactly the entries expired at the time
    of the sweep are removed; and neither a read nor a write removes an
    entry that is not expired. *)
Theorem cache_ttl_discipline
    (ops : list (op Result)) (now sweepNow : Z) (key : string) (r : Result) :
  let cache := run ops in
  let stored := <[key := {| result := r; timestamp := now |}]> cache in
  (forall v cache', getFromCache now key cache = (Some v, cache') ->
     cache' = cache
     /\ exists written sweptAt,
          In (Put written sweptAt key v) ops /\ now - written <= CACHE_TTL)
  /\ (forall e, cache !! key = Some e -> expired now e ->
        getFromCache now key cache = (None, delete key cache))
  /\ (forall k e, cache !! k = Some e -> ~ expired now e ->
        (getFromCache now key cache).2 !! k = Some e)
  /\ (sweepNow - now <= CACHE_TTL ->
        setCache now sweepNow key r cache !! key
        = Some {| result := r; timestamp := now |})
  /\ ((size stored <= 100)%nat -> setCache now sweepNow key r cache = stored)
  /\ ((100 < size stored)%nat ->
        forall k, setCache now sweepNow key r cache !! k =
                  match stored !! k with
                  | Some e => if bool_decide (expired sweepNow e) then None else Some e
                  | None => None
                  end)
  /\ (forall k e, k <> key -> cache !! k = Some e -> ~ expired sweepNow e ->
        setCache now sweepNow key r cache !! k = Some e).
Proof.
  cbv zeta. repeat split.
  - apply getFromCache_hit in H. destruct H as (e & _ & _ & _ & ->). reflexivity.
  - apply getFromCache_hit in H. destruct H as (e & He & <- & Hage & _).
    destruct (run_entries _ _ _ He) as (s & Hin). eauto.
  - apply getFromCache_expired.
  - apply getFromCache_keeps.
  - apply setCache_stores.
  - intros H. unfold setCache. cbv zeta.
    rewrite bool_decide_eq_false_2; [reflexivity | lia].
  - intros H k. rewrite setCache_lookup. cbv zeta.
    rewrite bool_decide_eq_true_2; [reflexivity | exact H].
  - intros k e. apply setCache_keeps.
Qed.

End WithResult.

(** A write, then a read of the same key a second later. *)
Lemma cache_ttl_discipline_witness :
  let ops := [Put 1000 1000 "stock-M-abc" 7%nat] in
  getFromCache 2000 "stock-M-abc" (run ops) = (Some 7%nat, run ops)
  /\ exists written sweptAt,
       In (Put written sweptAt "stock-M-abc" 7%nat) ops
       /\ 2000 - written <= CACHE_TTL.
Proof.
  cbv zeta.
  assert (H : getFromCache 2000 "stock-M-abc" (run [Put 1000 1000 "stock-M-abc" 7%nat])
              = (Some 7%nat, run [Put 1000 1000 "stock-M-abc" 7%nat]))
    by (vm_compute; reflexivity).
  split; [exact H|].
  exact (proj2 (proj1 (cache_ttl_discipline
                         [Put 1000 1000 "stock-M-abc" 7%nat] 2000 0 "stock-M-abc" 0%nat)
                  _ _ H)).
Defined.

(** A sweep: a hundred entries written at time 0, one written 200 seconds
    later, and a write 350 seconds after the first ones.  The hundred
    expired entries go; the two others stay. *)
Lemma sweep_example :
  let old := map (fun i => Put 0 0 (String (ascii_of_nat i) "") i) (seq 0 100) in
  let before := run (old ++ [Put 200000 200000 "recent" 100%nat]) in
  let after := run (old ++ [Put 200000 200000 "recent" 100%nat;
                            Put 350000 350000 "new" 101%nat]) in
  size before = 101%nat
  /\ size after = 2%nat
  /\ (getFromCache 350000 "recent" after).1 = Some 100%nat
  /\ (getFromCache 350000 "new" after).1 = Some 101%nat.
Proof. vm_compute. repeat split. Qed.

End CacheFacts.

(** The cache at work.  A call that asked the model and got an answer is
    followed, within the time to live, by a call for the same screenshot
    and variant: the second call returns the result of the first and does
    not ask the model, whatever the model would answer then.  After the
    time to live it asks again. *)

Module ServiceFacts.
Import Cache Service CacheFacts.

Lemma asked_and_answered reply clock cache screenshot variant :
  let call := checkVariantStock reply clock cache screenshot variant in
  invoked call = true -> returned call <> None ->
  exists response cache1,
    call = {| returned := Some (StockResult (AIVision.parseStockResponse response));
              invoked := true;
              cacheAfter :=
                setCache (atSet clock) (atSweep clock)
                  (getCacheKey ("stock-" ++ variant) screenshot)
                  (StockResult (AIVision.parseStockResponse response)) cache1 |}.
Proof.
  cbv zeta. unfold checkVariantStock.
  destruct (getFromCache (atGet clock) _ cache) as [[hit|] cache1]; simpl;
    [discriminate|].
  destruct reply as [response|]; simpl; [eauto | congruence].
Qed.

Lemma second_call_within_ttl reply1 reply2 clock1 clock2 cache screenshot variant :
  let call1 := checkVariantStock reply1 clock1 cache screenshot variant in
  let call2 := checkVariantStock reply2 clock2 (cacheAfter call1) screenshot variant in
  invoked call1 = true -> returned call1 <> None ->
  atSweep clock1 - atSet clock1 <= CACHE_TTL ->
  atGet clock2 - atSet clock1 <= CACHE_TTL ->
  invoked call2 = false /\ returned call2 = returned call1.
Proof.
  cbv zeta. intros Hi Hr Hsweep Hget.
  destruct (asked_and_answered _ _ _ _ _ Hi Hr) as (response & cache1 & ->).
  simpl. unfold checkVariantStock, getFromCache.
  rewrite (setCache_stores _ _ _ _ cache1 Hsweep).
  cbv zeta. simpl. rewrite bool_decide_eq_false_2 by lia. auto.
Qed.

Lemma second_call_after_ttl reply1 reply2 clock1 clock2 cache screenshot variant :
  let call1 := checkVariantStock reply1 clock1 cache screenshot variant in
  let call2 := checkVariantStock reply2 clock2 (cacheAfter call1) screenshot variant in
  invoked call1 = true -> returned call1 <> None ->
  atGet clock2 - atSet clock1 > CACHE_TTL ->
  invoked call2 = true.
Proof.
  cbv zeta. intros Hi Hr Hget.
  destruct (asked_and_answered _ _ _ _ _ Hi Hr) as (response & cache1 & ->).
  simpl. unfold checkVariantStock.
  destruct (getFromCache (atGet clock2) _ _) as [[hit|] cache2] eqn:E.
  - apply getFromCache_hit in E. destruct E as (e & He & _ & Hage & _).
    rewrite setCache_lookup in He. cbv zeta in He. rewrite lookup_insert_eq in He.
    assert (timestamp e = atSet clock1).
    { case_bool_decide as Hsize; [|injection He as <-; reflexivity].
      case_bool_decide as Hx; [discriminate | injection He as <-; reflexivity]. }
    lia.
  - destruct reply2; reflexivity.
Qed.

End ServiceFacts.

(** ** The keys of the two operations *)

Module ServiceKeys.
Import Str AIVision Cache Service CacheFacts ServiceSpec Answers.

Lemma keys_apart key : stock_key key -> variants_key key -> False.
Proof.
  intros (variant & s & ->) (s' & H). unfold getCacheKey in H.
  simpl in H. discriminate H.
Qed.

Lemma getFromCache_sorted now key cache :
  sorted cache -> sorted (getFromCache now key cache).2.
Proof.
  intros Hs k e. unfold getFromCache.
  destruct (cache !! key) as [c|]; [|apply Hs].
  cbv zeta. case_bool_decide as Hx; [|apply Hs]. simpl.
  intros H. apply lookup_delete_Some in H. apply Hs, H.
Qed.

Lemma setCache_sorted now sweepNow key r cache :
  sorted cache ->
  match r with StockResult _ => stock_key key | VariantsResult _ => variants_key key end ->
  sorted (setCache now sweepNow key r cache).
Proof.
  intros Hs Hr k e H. rewrite setCache_lookup in H. cbv zeta in H.
  assert (Hin : <[key := {| result := r; timestamp := now |}]> cache !! k = Some e).
  { case_bool_decide as Hsize; [|exact H].
    destruct (_ !! k) as [e'|]; [|discriminate].
    case_bool_decide as Hx; [discriminate | exact H]. }
  apply lookup_insert_Some in Hin. destruct Hin as [[<- <-] | [_ Hin]].
  - exact Hr.
  - apply Hs, Hin.
Qed.

Lemma getFromCache_miss now key (cache cache' : gmap string (entry Cached)) :
  getFromCache now key cache = (None, cache') -> cache' !! key = None.
Proof.
  unfold getFromCache. destruct (cache !! key) as [c|] eqn:E.
  - cbv zeta. case_bool_decide as Hx; [|discriminate].
    intros [= <-]. apply lookup_delete_eq.
  - intros [= <-]. exact E.
Qed.

Lemma same_key_same_call reply clock cache s s' variant :
  substring s 0 100 = substring s' 0 100 ->
  checkVariantStock reply clock cache s' variant
  = checkVariantStock reply clock cache s variant.
Proof.
  intros H. unfold checkVariantStock, getCacheKey. rewrite H. reflexivity.
Qed.

End ServiceKeys.

(** ** The whole-product classifier, in plain words

  What [parseStockStatus] answers, said on the text of the page, with no
  pattern in sight: the two phrase patterns hold exactly when one of
  their phrases stands in the page as a whole word, letter case aside,
  and the pattern of the disabled marks holds exactly when the word
  [disabled] occurs. *)

Module StockCheckerWording.
Import Str Regex Syntax StockChecker RegexSpec StrSpec RegexFacts StrFacts Samples.
Import RegexSem RegexSemFacts PageText PageTextFacts.

(** X1.  On a page whose structured data says nothing, the classifier
    answers [unavailable] exactly when one of [out of stock], [sold out],
    [currently unavailable], [not available], [unavailable] stands in the
    page as a whole word, in any letter case, or when, none of the
    low-stock wordings standing in the page, the page holds a purchase
    phrase and the word [disabled] occurs in the text cut around [add to
    cart]. *)
Theorem unavailable_in_plain_words (html : string) :
  checkStructuredData html = None ->
  (parseStockStatus html = unavailable <->
   says_out_of_stock html
   \/ (~ says_low_stock html
       /\ hasAddToCart (toLowerCase html) = true
       /\ includes (buttonSection (toLowerCase html)) "disabled" = true)).
Proof.
  intros Hs. unfold parseStockStatus. rewrite Hs.
  rewrite <- outOfStockPattern_says, <- lowStockPattern_says.
  cbv zeta. rewrite hasDisabledButton_plain.
  destruct (test flag_i outOfStockPattern html); [intuition|].
  destruct (test flag_i lowStockPattern html); [intuition congruence|].
  destruct (hasAddToCart (toLowerCase html)); simpl; [|intuition congruence].
  destruct (includes _ "disabled"); simpl; intuition congruence.
Qed.

Lemma unavailable_in_plain_words_witness :
  parseStockStatus page_sold_out_shout = unavailable.
Proof.
  apply (proj2 (unavailable_in_plain_words page_sold_out_shout
                  ltac:(vm_compute; reflexivity))).
  left. exists "sold out". split; [simpl; auto|].
  exists (chars "SOLD OUT"). split.
  - repeat constructor.
  - exists (chars "<p>"), (chars "!</p>"). repeat split.
Defined.

(** X2.  On a page whose structured data says nothing, the classifier
    answers [few_left] exactly when none of the unavailability phrases
    stands in the page as a whole word and one of [low stock], [few
    left], [limited stock], or [only], a run of digits and [left], does;
    the purchase phrases and the disabled marks have no say in it. *)
Theorem few_left_in_plain_words (html : string) :
  checkStructuredData html = None ->
  (parseStockStatus html = few_left <->
   ~ says_out_of_stock html /\ says_low_stock html).
Proof.
  intros Hs. unfold parseStockStatus. rewrite Hs.
  rewrite <- outOfStockPattern_says, <- lowStockPattern_says.
  cbv zeta.
  destruct (test flag_i outOfStockPattern html); [intuition congruence|].
  destruct (test flag_i lowStockPattern html); [intuition congruence|].
  destruct (hasAddToCart (toLowerCase html) && negb (hasDisabledButton (toLowerCase html)));
    [intuition congruence|].
  destruct (hasAddToCart (toLowerCase html) && hasDisabledButton (toLowerCase html));
    intuition congruence.
Qed.

Lemma few_left_in_plain_words_witness :
  parseStockStatus page_only_3_left = few_left.
Proof.
  apply (proj2 (few_left_in_plain_words page_only_3_left
                  ltac:(vm_compute; reflexivity))).
  split.
  - rewrite <- outOfStockPattern_says. vm_compute. discriminate.
  - right. exists (chars "Only "), (chars "3"), (chars " left"). repeat split.
    + repeat constructor.
    + discriminate.
    + repeat constructor.
    + repeat constructor.
    + exists (chars "<p>Hurry, "), (chars " in stock</p>"). repeat split.
Defined.

(** X3.  The three alternatives of the pattern of the disabled marks
    ([disabled], [aria-disabled="true"], a class that holds [disabled])
    come to one: whatever text the flag is computed on, it is set exactly
    when that text holds a purchase phrase and the word [disabled]
    occurs, in any letter case, in the text cut around [add to cart]. *)
Theorem disabled_marks_one_word (lowerHtml : string) :
  hasDisabledButton lowerHtml
  = hasAddToCart lowerHtml
    && includes (toLowerCase (buttonSection lowerHtml)) "disabled".
Proof.
  unfold hasDisabledButton.
  destruct (hasAddToCart lowerHtml); [|reflexivity].
  rewrite disabledPattern_holds. reflexivity.
Qed.

End StockCheckerWording.

(** ** Sizes that are plain text *)

Module VariantChecks.
Import Str Regex Syntax StockChecker RegexSpec StrSpec RegexFacts StrFacts Samples.
Import RegexSem RegexSemFacts PageText PageTextFacts VariantText VariantTextFacts.

(** X4.  The [SyntaxError] of a size pattern needs a syntax character:
    when the size read in the descriptor holds none of the characters
    that are syntax in a pattern, classification with the descriptor
    returns a status, whatever the page. *)
Theorem plain_size_returns (engine : Engine) (html variant size : string) :
  variantField sizePattern variant = Returns (Some size) ->
  plain_text size = true ->
  exists s, parseVariantStock engine html variant = Returns s.
Proof.
  intros Hsize Hp.
  rewrite (StockCheckerFacts.parseVariantStock_plain _ _ _ _ Hsize Hp). eauto.
Qed.

Lemma plain_size_returns_witness :
  exists s, parseVariantStock no_engine page_size_L_disabled "Size: XL, Color: Black"
            = Returns s.
Proof.
  apply (plain_size_returns no_engine page_size_L_disabled
           "Size: XL, Color: Black" "XL"); vm_compute; reflexivity.
Defined.

(** X5.  A size can be marked by accident: the first size pattern looks
    for the size anywhere in the page, inside a word too, and for the
    marker anywhere after it before the next [<].  On
    [page_sold_outside], a page for sale whose prose reads [Items sold
    outside the EU], the size M is [unavailable]: the [m] of [Items] is
    followed by [sold out]. *)
Theorem size_marked_by_accident (engine : Engine) :
  parseStockStatus page_sold_outside = in_stock
  /\ size_marked "M" page_sold_outside
  /\ parseVariantStock engine page_sold_outside "Size: M" = Returns unavailable.
Proof.
  split; [vm_compute; reflexivity|].
  assert (Hm : size_marked "M" page_sold_outside).
  { exists (chars "<p>Ite"), (chars "m"), (chars "s "), (chars "sold out"),
      (chars "side the EU ship later</p><button>Add to Cart</button>"),
      "sold out".
    repeat split.
    - repeat constructor.
    - repeat constructor; discriminate.
    - simpl. auto.
    - repeat constructor. }
  split; [exact Hm|].
  rewrite (StockCheckerFacts.parseVariantStock_plain engine page_sold_outside
             "Size: M" "M" ltac:(vm_compute; reflexivity) ltac:(vm_compute; reflexivity)).
  apply test_sizeUnavailable in Hm. rewrite Hm. reflexivity.
Qed.

End VariantChecks.

(** ** The answer of the model, wrapped in prose *)

Module AnswerReading.
Import Str Regex Syntax RegexSpec RegexFacts StrSpec StrFacts.
Import RegexSem RegexSemFacts PageText PageTextFacts VariantText VariantTextFacts.
Import Run RunFacts AIVision Answers AnswerText AnswerTextFacts.

Lemma jsonMatch_wrapped pre mid post :
  none_is "{" (chars pre) -> none_is "}" (chars post) ->
  jsonMatch (pre ++ "{" ++ mid ++ "}" ++ post) = Some ("{" ++ mid ++ "}").
Proof.
  intros Hpre Hpost.
  rewrite (jsonMatch_found _ (chars pre) (chars mid) (chars post)); auto.
  - f_equal. rewrite <- (str_chars ("{" ++ mid ++ "}")). f_equal.
    rewrite !chars_app. reflexivity.
  - rewrite !chars_app. reflexivity.
Qed.

Lemma jsonMatch_bare mid : jsonMatch ("{" ++ mid ++ "}") = Some ("{" ++ mid ++ "}").
Proof.
  rewrite (jsonMatch_found _ [] (chars mid) []); try constructor.
  - f_equal. rewrite <- (str_chars ("{" ++ mid ++ "}")). f_equal.
    rewrite !chars_app. reflexivity.
  - rewrite !chars_app. reflexivity.
Qed.

Lemma parsedAnswer_wrapped pre mid post rest :
  none_is "{" (chars pre) -> none_is "}" (chars post) ->
  parsedAnswer (TextBlock (pre ++ "{" ++ mid ++ "}" ++ post) :: rest)
  = parsedAnswer [TextBlock ("{" ++ mid ++ "}")].
Proof.
  intros Hpre Hpost. unfold parsedAnswer.
  rewrite (jsonMatch_wrapped pre mid post Hpre Hpost), (jsonMatch_bare mid).
  reflexivity.
Qed.

(** X6.  Prose around the JSON of an answer changes nothing: when the
    text before the first brace holds no opening brace and the text after
    the last one no closing brace, both parsers return what they return
    on the braces and what stands between them, alone; the blocks after
    the first one are not read. *)
Theorem wrapped_answer_read_alike (pre mid post : string) (rest : Message) :
  none_is "{" (chars pre) -> none_is "}" (chars post) ->
  parseStockResponse (TextBlock (pre ++ "{" ++ mid ++ "}" ++ post) :: rest)
  = parseStockResponse [TextBlock ("{" ++ mid ++ "}")]
  /\ parseVariantResponse (TextBlock (pre ++ "{" ++ mid ++ "}" ++ post) :: rest)
     = parseVariantResponse [TextBlock ("{" ++ mid ++ "}")].
Proof.
  intros Hpre Hpost.
  unfold parseStockResponse, parseVariantResponse, tryParseStock, tryParseVariants.
  rewrite (parsedAnswer_wrapped pre mid post rest Hpre Hpost). split; reflexivity.
Qed.

Lemma wrapped_answer_read_alike_witness :
  status (parseStockResponse
            [TextBlock ("Here is the result: ```json {" ++ answer_body ++ "} ``` Done.");
             OtherBlock]) = few_left.
Proof.
  change ("Here is the result: ```json {" ++ answer_body ++ "} ``` Done.")
    with ("Here is the result: ```json " ++ "{" ++ answer_body ++ "}" ++ " ``` Done.").
  rewrite (proj1 (wrapped_answer_read_alike "Here is the result: ```json " answer_body
                    " ``` Done." [OtherBlock]
                    ltac:(repeat constructor; discriminate)
                    ltac:(repeat constructor; discriminate))).
  vm_compute. reflexivity.
Defined.

(** X7.  The failure [No JSON found] is that of a text with no opening
    brace followed, anywhere later, by a closing brace, and of no other
    text: both parsers return their degraded result with that reason
    exactly on such a text. *)
Theorem no_json_found_iff (text : string) (rest : Message) :
  (parseStockResponse (TextBlock text :: rest) = degradedStock NoJsonFound
   <-> ~ has_braces text)
  /\ (parseVariantResponse (TextBlock text :: rest) = degradedVariants NoJsonFound
      <-> ~ has_braces text).
Proof.
  rewrite <- jsonMatch_none.
  unfold parseStockResponse, parseVariantResponse, tryParseStock, tryParseVariants,
    parsedAnswer, degradedStock, degradedVariants.
  destruct (jsonMatch text) as [json|]; [|split; split; reflexivity].
  destruct (Json.parse json) as [parsed|].
  - unfold read. split; (split; [|discriminate]).
    + destruct parsed; try (intros H; discriminate H);
        destruct (validStatus _); intros H; discriminate H.
    + destruct parsed; try (intros H; discriminate H).
      destruct (Json.member _ "variants") as [[]|]; intros H; discriminate H.
  - split; split; intros H; discriminate H.
Qed.

End AnswerReading.

(** ** Calls of the service, one after the other *)

Module ServiceChecks.
Import Str AIVision Cache Service CacheFacts ServiceFacts ServiceSpec ServiceKeys Answers.

(** X8.  The key of a call is made of the first 100 units of the
    screenshot only: a call for another screenshot that starts with the
    same 100 units, for the same variant and within the time to live, is
    served the result of the first one, and the model is not asked. *)
Theorem same_prefix_served_from_cache
    reply1 reply2 clock1 clock2 cache (screenshot screenshot' variant : string) :
  let call1 := checkVariantStock reply1 clock1 cache screenshot variant in
  let call2 := checkVariantStock reply2 clock2 (cacheAfter call1) screenshot' variant in
  substring screenshot 0 100 = substring screenshot' 0 100 ->
  invoked call1 = true -> returned call1 <> None ->
  atSweep clock1 - atSet clock1 <= CACHE_TTL ->
  atGet clock2 - atSet clock1 <= CACHE_TTL ->
  invoked call2 = false /\ returned call2 = returned call1.
Proof.
  cbv zeta. intros Hk Hi Hr Hsweep Hget.
  rewrite (same_key_same_call _ _ _ _ _ _ Hk).
  apply second_call_within_ttl; assumption.
Qed.

Lemma same_prefix_served_from_cache_witness :
  screenshot_a <> screenshot_b
  /\ returned (checkVariantStock (Some answer_certain) (clock_at 1000)
                 (cacheAfter (checkVariantStock (Some answer_few_left) (clock_at 0) ∅
                                screenshot_a "Size: M"))
                 screenshot_b "Size: M")
     = returned (checkVariantStock (Some answer_few_left) (clock_at 0) ∅
                   screenshot_a "Size: M").
Proof.
  split; [intros H; discriminate H|].
  apply (same_prefix_served_from_cache (Some answer_few_left) (Some answer_certain)
           (clock_at 0) (clock_at 1000) ∅ screenshot_a screenshot_b "Size: M").
  - vm_compute. reflexivity.
  - reflexivity.
  - simpl. discriminate.
  - vm_compute. discriminate.
  - vm_compute. discriminate.
Defined.

(** X9.  A call whose model call fails stores nothing: no entry stands
    under its key afterwards, so the next call for the same screenshot and
    variant asks the model again, whenever it comes. *)
Theorem failed_call_asks_again reply2 clock1 clock2 cache (screenshot variant : string) :
  let call1 := checkVariantStock None clock1 cache screenshot variant in
  let call2 := checkVariantStock reply2 clock2 (cacheAfter call1) screenshot variant in
  returned call1 = None ->
  invoked call1 = true
  /\ cacheAfter call1 !! getCacheKey ("stock-" ++ variant) screenshot = None
  /\ invoked call2 = true.
Proof.
  cbv zeta. unfold checkVariantStock at 1 2 3 5.
  destruct (getFromCache (atGet clock1) _ cache) as [[hit|] cache1] eqn:E; simpl;
    [discriminate|].
  intros _. apply getFromCache_miss in E.
  split; [reflexivity|]. split; [exact E|].
  unfold checkVariantStock, getFromCache. rewrite E.
  destruct reply2; reflexivity.
Qed.

Lemma failed_call_asks_again_witness :
  invoked (checkVariantStock (Some answer_few_left) (clock_at 1)
             (cacheAfter (checkVariantStock None (clock_at 0) ∅ screenshot_a "Size: M"))
             screenshot_a "Size: M") = true.
Proof.
  apply (proj2 (proj2 (failed_call_asks_again (Some answer_few_left) (clock_at 0)
                         (clock_at 1) ∅ screenshot_a "Size: M"
                         ltac:(unfold checkVariantStock, getFromCache;
                               rewrite lookup_empty; reflexivity)))).
Defined.

(** X10.  The one cache holds the results of both operations, and each
    operation takes what it finds under its key for a result of its own
    kind.  That is sound: the keys of the two operations never meet
    ([stock-...] and [variants-...]), so on a cache where every entry is
    of the kind of its key either operation leaves such a cache, and
    [checkVariantStock] never returns a list of variants, nor
    [detectVariants] a stock result. *)
Theorem results_keep_their_kind reply clock cache (screenshot variant : string) :
  sorted cache ->
  (sorted (cacheAfter (checkVariantStock reply clock cache screenshot variant))
   /\ forall r, returned (checkVariantStock reply clock cache screenshot variant)
                <> Some (VariantsResult r))
  /\ (sorted (cacheAfter (detectVariants reply clock cache screenshot))
      /\ forall r, returned (detectVariants reply clock cache screenshot)
                   <> Some (StockResult r)).
Proof.
  intros Hs. split.
  - unfold checkVariantStock.
    pose proof (getFromCache_sorted (atGet clock)
                  (getCacheKey ("stock-" ++ variant) screenshot) cache Hs) as Hg.
    destruct (getFromCache (atGet clock) _ cache) as [[hit|] cache1] eqn:E; simpl in *.
    + split; [exact Hg|]. intros r [= ->].
      apply getFromCache_hit in E. destruct E as (e & He & Hr & _).
      specialize (Hs _ _ He). rewrite Hr in Hs.
      apply (keys_apart _ ltac:(eexists _, _; reflexivity) Hs).
    + destruct reply as [response|]; simpl.
      * split; [|intros r H; discriminate H].
        apply setCache_sorted; [exact Hg|]. eexists _, _. reflexivity.
      * split; [exact Hg | intros r H; discriminate H].
  - unfold detectVariants.
    pose proof (getFromCache_sorted (atGet clock)
                  (getCacheKey "variants" screenshot) cache Hs) as Hg.
    destruct (getFromCache (atGet clock) _ cache) as [[hit|] cache1] eqn:E; simpl in *.
    + split; [exact Hg|]. intros r [= ->].
      apply getFromCache_hit in E. destruct E as (e & He & Hr & _).
      specialize (Hs _ _ He). rewrite Hr in Hs.
      apply (keys_apart _ Hs ltac:(eexists; reflexivity)).
    + destruct reply as [response|]; simpl.
      * split; [|intros r H; discriminate H].
        apply setCache_sorted; [exact Hg|]. eexists. reflexivity.
      * split; [exact Hg | intros r H; discriminate H].
Qed.

Lemma results_keep_their_kind_witness :
  sorted (cacheAfter (checkVariantStock (Some answer_few_left) (clock_at 0) ∅
                        screenshot_a "Size: M"))
  /\ sorted (cacheAfter (detectVariants (Some answer_few_left) (clock_at 0) ∅
                           screenshot_a)).
Proof.
  assert (H0 : sorted ∅).
  { intros k e H. rewrite lookup_empty in H. discriminate H. }
  split.
  - apply (proj1 (proj1 (results_keep_their_kind (Some answer_few_left) (clock_at 0) ∅
                           screenshot_a "Size: M" H0))).
  - apply (proj1 (proj2 (results_keep_their_kind (Some answer_few_left) (clock_at 0) ∅
                           screenshot_a "Size: M" H0))).
Defined.

End ServiceChecks.
